(** * The scheduled "coming soon" release pipeline of dramashort

    A shallow embedding of [jobs/releaseComingSoonEpisodes.js]: the two
    promoters [releaseComingSoonEpisodes] and [releaseComingSoonSeries] and
    the cron callback, over a document store with five collections.

    Conventions of the embedding.
    - A collection is the list of its documents in natural order; [save] and
      [create] append, [findOne] returns the first match, [find] keeps the
      order.  MongoDB keeps [_id] unique inside a collection, so an update or
      a delete "by id" acts on every document carrying that id.
    - An [ObjectId] is a natural number drawn from a counter ([nextObjectId]).
    - JavaScript numbers that the promoters only copy, compare or test for
      truthiness are integers here; dates are integers (milliseconds).
    - A field that a document may lack is an [option]; [x || d] is [orElse].
    - A string holds the UTF-8 bytes of the JavaScript string.
    - [newEpisode.save()] validates the document against models/Episode.js
      before the store is called; a document that fails is refused with a
      ValidationError and the store is not reached.
    - Every awaited store call may reject.  The world carries a script
      [faults]: the n-th store call consumes the n-th entry and rejects with
      it when it is [Some error]; an exhausted script means no more faults.
      A rejected call leaves the collections as they were.
    - Every store call and every console line is appended to [trace].
    - The clock is only read: time does not advance inside a run.
    - The locals [released] and [errors] of the running promoter live in the
      world, so that what was pushed before a throw is not lost. *)

From Stdlib Require Import String Ascii List ZArith NArith Bool Lia Arith PeanoNat.
Import ListNotations.
Local Open Scope Z_scope.

(** ** Documents *)

Definition ObjectId := nat.
Bind Scope nat_scope with ObjectId.

Inductive Status := StPending | StReleased.

Definition Status_eqb (a b : Status) : bool :=
  match a, b with
  | StPending, StPending | StReleased, StReleased => true
  | _, _ => false
  end.

(** models/ComingSoonSeries.js *)
Record ComingSoonSeries := mkComingSoonSeries {
  css_id : ObjectId;
  css_title : string;
  css_description : string;
  css_totalEpisode : Z;
  css_freeEpisode : Z;
  css_free : bool;
  css_membersOnly : bool;
  css_type : string;
  css_active : bool;
  css_category : list string;
  css_tags : list string;
  css_image : string;
  css_banner : string;
  css_rating : option Z;
  css_viewCount : Z;
  css_scheduledReleaseDate : Z;
  css_status : Status
}.

(** The fields the promoter passes to [new Series({...})]. *)
Record Series := mkSeries {
  s_id : ObjectId;
  s_title : string;
  s_description : string;
  s_totalEpisode : Z;
  s_freeEpisode : Z;
  s_free : bool;
  s_membersOnly : bool;
  s_type : string;
  s_active : bool;
  s_category : list string;
  s_tags : list string;
  s_image : string;
  s_banner : string;
  s_rating : Z;
  s_viewCount : Z
}.

(** models/ComingSoonEpisode.js *)
Record ComingSoonEpisode := mkComingSoonEpisode {
  ce_id : ObjectId;
  ce_seriesId : option ObjectId;
  ce_comingSoonSeriesId : option ObjectId;
  ce_episode : Z;
  ce_title : option string;
  ce_coin : option Z;
  ce_views : option Z;
  ce_coinEarned : option Z;
  ce_videoUrl : string;
  ce_videoThumbnail : option string;
  ce_scheduledReleaseDate : Z;
  ce_status : Status
}.

(** models/Episode.js *)
Record Episode := mkEpisode {
  e_id : ObjectId;
  e_seriesId : ObjectId;
  e_episode : Z;
  e_title : string;
  e_coin : Z;
  e_views : Z;
  e_coinEarned : Z;
  e_videoUrl : string;
  e_videoThumbnail : option string
}.

(** models/SeriesTransferLog.js ([seriesId] is required by the schema). *)
Record SeriesTransferLog := mkSeriesTransferLog {
  tl_id : ObjectId;
  tl_comingSoonSeriesId : ObjectId;
  tl_seriesId : ObjectId;
  tl_title : string;
  tl_scheduledReleaseDate : Z;
  tl_transferredAt : Z
}.

(** ** Strings and validators of models/Episode.js *)

(** U+0009 to U+000D and U+0020. *)
Definition isAsciiSpace (c : ascii) : bool :=
  let n := N_of_ascii c in
  ((9 <=? n) && (n <=? 13) || (n =? 32))%N.

(** U+00A0 is C2 A0. *)
Definition isSpace2 (c1 c2 : ascii) : bool :=
  ((N_of_ascii c1 =? 194) && (N_of_ascii c2 =? 160))%N.

(** U+1680 is E1 9A 80; U+2000 to U+200A, U+2028, U+2029 and U+202F are
    E2 80 80 to 8A, A8, A9 and AF; U+205F is E2 81 9F; U+3000 is E3 80 80;
    U+FEFF is EF BB BF. *)
Definition isSpace3 (c1 c2 c3 : ascii) : bool :=
  let n1 := N_of_ascii c1 in
  let n2 := N_of_ascii c2 in
  let n3 := N_of_ascii c3 in
  ((n1 =? 225) && (n2 =? 154) && (n3 =? 128)
   || (n1 =? 226) && (n2 =? 128)
      && ((128 <=? n3) && (n3 <=? 138) || (n3 =? 168) || (n3 =? 169) || (n3 =? 175))
   || (n1 =? 226) && (n2 =? 129) && (n3 =? 159)
   || (n1 =? 227) && (n2 =? 128) && (n3 =? 128)
   || (n1 =? 239) && (n2 =? 187) && (n3 =? 191))%N.

(** White space and line terminators off the front. *)
Fixpoint trimStart (s : string) : string :=
  match s with
  | EmptyString => EmptyString
  | String c1 s1 =>
      if isAsciiSpace c1 then trimStart s1
      else
        match s1 with
        | EmptyString => s
        | String c2 s2 =>
            if isSpace2 c1 c2 then trimStart s2
            else
              match s2 with
              | EmptyString => s
              | String c3 s3 => if isSpace3 c1 c2 c3 then trimStart s3 else s
              end
        end
  end.

(** The same off the end, on the bytes in reverse order. *)
Fixpoint trimReversed (l : list ascii) : list ascii :=
  match l with
  | [] => []
  | c3 :: l2 =>
      if isAsciiSpace c3 then trimReversed l2
      else
        match l2 with
        | [] => l
        | c2 :: l1 =>
            if isSpace2 c2 c3 then trimReversed l1
            else
              match l1 with
              | [] => l
              | c1 :: l0 => if isSpace3 c1 c2 c3 then trimReversed l0 else l
              end
        end
  end.

Definition trimEnd (s : string) : string :=
  string_of_list_ascii (rev (trimReversed (rev (list_ascii_of_string s)))).

(** [String.prototype.trim], the setter of [trim: true]. *)
Definition trim (s : string) : string := trimEnd (trimStart s).

(** ** Errors, console and trace *)

(** [code] is absent on errors that carry none; a numeric driver code stands
    as any text other than ENOSPC. *)
Record JsError := mkJsError {
  code : option string;
  message : string
}.

(** [error.code === 'ENOSPC'] *)
Definition isENOSPC (error : JsError) : bool :=
  match code error with
  | Some c => String.eqb c "ENOSPC"
  | None => false
  end.

Inductive StoreCall :=
| ComingSoonEpisode_find_due (now : Z)
| SeriesTransferLog_findOne (comingSoonSeriesId : ObjectId)
| ComingSoonEpisode_setSeriesId (id seriesId : ObjectId)
| Episode_findOne (seriesId : ObjectId) (episode : Z)
| ComingSoonEpisode_setReleased (id : ObjectId)
| ComingSoonEpisode_findByIdAndDelete (id : ObjectId)
| Episode_save (doc : Episode)
| ComingSoonSeries_find_due (now : Z)
| ComingSoonSeries_countDocuments_future (now : Z)
| ComingSoonSeries_findOne_future (now : Z)
| Series_save (doc : Series)
| ComingSoonEpisode_updateMany (comingSoonSeriesId seriesId : ObjectId)
| SeriesTransferLog_create (doc : SeriesTransferLog)
| ComingSoonSeries_setReleased (id : ObjectId)
| ComingSoonSeries_findByIdAndDelete (id : ObjectId)
| ComingSoonEpisode_find_ofSeries (seriesId comingSoonSeriesId : ObjectId).

Inductive Level := LOG | WARN | ERROR.

(** One constructor per console line of the job, with its interpolated data.
    [NoSeriesReady] carries the title and the date of the next series; the
    day count of that line, a floating-point function of the date and the
    clock, is not carried. *)
Inductive ConsoleLine :=
| EpisodesFound (n : nat)
| EpisodeResolved (seriesId episodeId : ObjectId)
| EpisodeSkippedNoSeries (episodeId : ObjectId)
| EpisodeAlreadyExists (episode : Z)
| EpisodeReleased (episode : Z) (seriesId : ObjectId)
| EpisodeDiskFull (episodeId : ObjectId)
| EpisodeError (episodeId : ObjectId) (msg : string)
| EpisodesReleasedCount (n : nat)
| EpisodesFailedCount (n : nat)
| EpisodesJobError (error : JsError)
| NoSeriesReady (title : string) (date : Z)
| SeriesFound (n : nat)
| SeriesReleased (title : string) (seriesId : ObjectId)
| SeriesEpisodesReleasing (n : nat) (title : string)
| SeriesEpisodeReleased (episode : Z) (title : string)
| SeriesEpisodeError (episodeId : ObjectId) (title : string) (msg : string)
| SeriesDiskFull (comingSoonSeriesId : ObjectId)
| SeriesError (comingSoonSeriesId : ObjectId) (msg : string)
| SeriesReleasedCount (n : nat)
| SeriesFailedCount (n : nat)
| SeriesJobError (error : JsError)
| SchedulerStarting
| SchedulerStarted.

Inductive Event :=
| Call (c : StoreCall)
| Console (lvl : Level) (line : ConsoleLine).

(** Entries of the local arrays [released] and [errors]. *)
Inductive Released :=
| ReleasedEpisode (episodeId seriesId : ObjectId) (episode : Z)
| ReleasedSeries (seriesId : ObjectId) (title : string).

Record Failure := mkFailure {
  failedId : ObjectId;
  error : string
}.

(** ** The world: store, id generator, clock, fault script, trace, locals *)

Record World := mkWorld {
  db_ComingSoonSeries : list ComingSoonSeries;
  db_ComingSoonEpisode : list ComingSoonEpisode;
  db_Series : list Series;
  db_Episode : list Episode;
  db_SeriesTransferLog : list SeriesTransferLog;
  nextObjectId : ObjectId;
  clock : Z;
  faults : list (option JsError);
  trace : list Event;
  released : list Released;
  errors : list Failure
}.

Definition with_ComingSoonSeries (f : list ComingSoonSeries -> list ComingSoonSeries) (w : World) : World :=
  mkWorld (f (db_ComingSoonSeries w)) (db_ComingSoonEpisode w) (db_Series w) (db_Episode w)
    (db_SeriesTransferLog w) (nextObjectId w) (clock w) (faults w) (trace w) (released w) (errors w).

Definition with_ComingSoonEpisode (f : list ComingSoonEpisode -> list ComingSoonEpisode) (w : World) : World :=
  mkWorld (db_ComingSoonSeries w) (f (db_ComingSoonEpisode w)) (db_Series w) (db_Episode w)
    (db_SeriesTransferLog w) (nextObjectId w) (clock w) (faults w) (trace w) (released w) (errors w).

Definition with_Series (f : list Series -> list Series) (w : World) : World :=
  mkWorld (db_ComingSoonSeries w) (db_ComingSoonEpisode w) (f (db_Series w)) (db_Episode w)
    (db_SeriesTransferLog w) (nextObjectId w) (clock w) (faults w) (trace w) (released w) (errors w).

Definition with_Episode (f : list Episode -> list Episode) (w : World) : World :=
  mkWorld (db_ComingSoonSeries w) (db_ComingSoonEpisode w) (db_Series w) (f (db_Episode w))
    (db_SeriesTransferLog w) (nextObjectId w) (clock w) (faults w) (trace w) (released w) (errors w).

Definition with_SeriesTransferLog (f : list SeriesTransferLog -> list SeriesTransferLog) (w : World) : World :=
  mkWorld (db_ComingSoonSeries w) (db_ComingSoonEpisode w) (db_Series w) (db_Episode w)
    (f (db_SeriesTransferLog w)) (nextObjectId w) (clock w) (faults w) (trace w) (released w) (errors w).

Definition with_nextObjectId (n : ObjectId) (w : World) : World :=
  mkWorld (db_ComingSoonSeries w) (db_ComingSoonEpisode w) (db_Series w) (db_Episode w)
    (db_SeriesTransferLog w) n (clock w) (faults w) (trace w) (released w) (errors w).

Definition with_faults (fs : list (option JsError)) (w : World) : World :=
  mkWorld (db_ComingSoonSeries w) (db_ComingSoonEpisode w) (db_Series w) (db_Episode w)
    (db_SeriesTransferLog w) (nextObjectId w) (clock w) fs (trace w) (released w) (errors w).

Definition emit (ev : Event) (w : World) : World :=
  mkWorld (db_ComingSoonSeries w) (db_ComingSoonEpisode w) (db_Series w) (db_Episode w)
    (db_SeriesTransferLog w) (nextObjectId w) (clock w) (faults w) (trace w ++ [ev]) (released w) (errors w).

Definition with_released (f : list Released -> list Released) (w : World) : World :=
  mkWorld (db_ComingSoonSeries w) (db_ComingSoonEpisode w) (db_Series w) (db_Episode w)
    (db_SeriesTransferLog w) (nextObjectId w) (clock w) (faults w) (trace w) (f (released w)) (errors w).

Definition with_errors (f : list Failure -> list Failure) (w : World) : World :=
  mkWorld (db_ComingSoonSeries w) (db_ComingSoonEpisode w) (db_Series w) (db_Episode w)
    (db_SeriesTransferLog w) (nextObjectId w) (clock w) (faults w) (trace w) (released w) (f (errors w)).

(** ** A state-and-exception monad for the async functions *)

Inductive Completion (A : Type) :=
| Normal (a : A)
| Throw (error : JsError).
Arguments Normal {A} a.
Arguments Throw {A} error.

Definition M (A : Type) := World -> Completion A * World.

Definition ret {A} (a : A) : M A := fun w => (Normal a, w).

Definition bind {A B} (m : M A) (k : A -> M B) : M B :=
  fun w =>
    match m w with
    | (Normal a, w') => k a w'
    | (Throw e, w') => (Throw e, w')
    end.

(** [try { m } catch (error) { h error }] *)
Definition tryCatch {A} (m : M A) (h : JsError -> M A) : M A :=
  fun w =>
    match m w with
    | (Normal a, w') => (Normal a, w')
    | (Throw e, w') => h e w'
    end.

Declare Scope js_scope.
Delimit Scope js_scope with js.
Notation "x <- m ;; k" := (bind m (fun x => k))
  (at level 61, m at next level, right associativity) : js_scope.
Notation "m ;; k" := (bind m (fun _ => k))
  (at level 61, right associativity) : js_scope.
Local Open Scope js_scope.

Definition gets {A} (f : World -> A) : M A := fun w => (Normal (f w), w).
Definition modify (f : World -> World) : M unit := fun w => (Normal tt, f w).

(** An awaited store call: traced, then resolved or rejected by the next
    entry of the script. *)
Definition call (c : StoreCall) : M unit :=
  fun w =>
    let w1 := with_faults (tl (faults w)) (emit (Call c) w) in
    match hd None (faults w) with
    | None => (Normal tt, w1)
    | Some e => (Throw e, w1)
    end.

(** A call that is refused before it reaches the store: it shows in the
    trace, takes nothing from the script and throws. *)
Definition refuse {A} (c : StoreCall) (e : JsError) : M A :=
  fun w => (Throw e, emit (Call c) w).

Definition query {A} (c : StoreCall) (f : World -> A) : M A := call c ;; gets f.
Definition command (c : StoreCall) (f : World -> World) : M unit := call c ;; modify f.

Definition console (lvl : Level) (line : ConsoleLine) : M unit :=
  modify (emit (Console lvl line)).

(** [new Date()] *)
Definition newDate : M Z := gets clock.

(** The [_id] a Mongoose document receives when it is constructed. *)
Definition newObjectId : M ObjectId :=
  fun w => (Normal (nextObjectId w), with_nextObjectId (S (nextObjectId w)) w).

(** Loop control: [Next] is falling through or [continue], [Break] is [break]. *)
Inductive Ctl := Next | Break.

(** [for (const x of xs) { body }]; the result tells whether the loop broke. *)
Fixpoint forOf {A} (xs : list A) (body : A -> M Ctl) : M Ctl :=
  match xs with
  | [] => ret Next
  | x :: xs' =>
      c <- body x ;;
      match c with
      | Next => forOf xs' body
      | Break => ret Break
      end
  end.

(** [x || d] on a possibly absent value. *)
Definition orElse {A} (x : option A) (d : A) : A :=
  match x with Some a => a | None => d end.

Definition idIs (id : ObjectId) (x : option ObjectId) : bool :=
  match x with Some y => Nat.eqb y id | None => false end.

(** ** Store operations used by the job *)

Definition isDue (now : Z) (status : Status) (scheduledReleaseDate : Z) : bool :=
  Status_eqb status StPending && (scheduledReleaseDate <=? now).

(** [ComingSoonEpisode.find({status: 'pending', scheduledReleaseDate: {$lte: now}})] *)
Definition dueEpisode (now : Z) (e : ComingSoonEpisode) : bool :=
  isDue now (ce_status e) (ce_scheduledReleaseDate e).

Definition ComingSoonEpisode_findDue (now : Z) : M (list ComingSoonEpisode) :=
  query (ComingSoonEpisode_find_due now)
        (fun w => filter (dueEpisode now) (db_ComingSoonEpisode w)).

(** [SeriesTransferLog.findOne({comingSoonSeriesId})] *)
Definition transferLogFor (comingSoonSeriesId : ObjectId) (w : World) : option SeriesTransferLog :=
  find (fun tl => Nat.eqb (tl_comingSoonSeriesId tl) comingSoonSeriesId) (db_SeriesTransferLog w).

Definition SeriesTransferLog_findOneBy (comingSoonSeriesId : ObjectId) : M (option SeriesTransferLog) :=
  query (SeriesTransferLog_findOne comingSoonSeriesId) (transferLogFor comingSoonSeriesId).

Definition setSeriesId (seriesId : ObjectId) (e : ComingSoonEpisode) : ComingSoonEpisode :=
  mkComingSoonEpisode (ce_id e) (Some seriesId) (ce_comingSoonSeriesId e) (ce_episode e)
    (ce_title e) (ce_coin e) (ce_views e) (ce_coinEarned e) (ce_videoUrl e)
    (ce_videoThumbnail e) (ce_scheduledReleaseDate e) (ce_status e).

Definition setEpisodeStatus (st : Status) (e : ComingSoonEpisode) : ComingSoonEpisode :=
  mkComingSoonEpisode (ce_id e) (ce_seriesId e) (ce_comingSoonSeriesId e) (ce_episode e)
    (ce_title e) (ce_coin e) (ce_views e) (ce_coinEarned e) (ce_videoUrl e)
    (ce_videoThumbnail e) (ce_scheduledReleaseDate e) st.

Definition updateWhere {A} (p : A -> bool) (f : A -> A) (l : list A) : list A :=
  map (fun x => if p x then f x else x) l.

Definition deleteWhere {A} (p : A -> bool) (l : list A) : list A :=
  filter (fun x => negb (p x)) l.

(** [ComingSoonEpisode.findByIdAndUpdate(id, {seriesId})] *)
Definition ComingSoonEpisode_updateSeriesId (id seriesId : ObjectId) : M unit :=
  command (ComingSoonEpisode_setSeriesId id seriesId)
          (with_ComingSoonEpisode
             (updateWhere (fun e => Nat.eqb (ce_id e) id) (setSeriesId seriesId))).

(** [ComingSoonEpisode.findByIdAndUpdate(id, {status: 'released'})] *)
Definition ComingSoonEpisode_markReleased (id : ObjectId) : M unit :=
  command (ComingSoonEpisode_setReleased id)
          (with_ComingSoonEpisode
             (updateWhere (fun e => Nat.eqb (ce_id e) id) (setEpisodeStatus StReleased))).

(** [ComingSoonEpisode.findByIdAndDelete(id)] *)
Definition ComingSoonEpisode_delete (id : ObjectId) : M unit :=
  command (ComingSoonEpisode_findByIdAndDelete id)
          (with_ComingSoonEpisode (deleteWhere (fun e => Nat.eqb (ce_id e) id))).

(** [Episode.findOne({seriesId, episode})] *)
Definition sameEpisode (seriesId : ObjectId) (episode : Z) (e : Episode) : bool :=
  Nat.eqb (e_seriesId e) seriesId && (e_episode e =? episode).

Definition Episode_findOneBy (seriesId : ObjectId) (episode : Z) : M (option Episode) :=
  query (Episode_findOne seriesId episode)
        (fun w => find (sameEpisode seriesId episode) (db_Episode w)).

(** The validators of models/Episode.js: [episode] from 1 to 100, [coin],
    [views] and [coinEarned] not negative, [videoUrl] required (a string that
    is not empty).  [seriesId] and [episode], required too, are always there
    in an [Episode]. *)
Definition Episode_validate (doc : Episode) : bool :=
  (1 <=? e_episode doc) && (e_episode doc <=? 100) &&
  (0 <=? e_coin doc) && (0 <=? e_views doc) && (0 <=? e_coinEarned doc) &&
  negb (String.eqb (e_videoUrl doc) EmptyString).

(** The ValidationError of a refused [save()]: it carries no [code]; of its
    message, which goes on to list the failing paths, the opening words are
    kept. *)
Definition validationError : JsError :=
  mkJsError None "Episode validation failed".

(** [newEpisode.save()]: the document is validated first and reaches the
    store only when it passes. *)
Definition Episode_insert (doc : Episode) : M unit :=
  if Episode_validate doc
  then command (Episode_save doc) (with_Episode (fun l => l ++ [doc]))
  else refuse (Episode_save doc) validationError.

(** [new Episode({seriesId, episode, title: x.title || '', coin: x.coin || 0, ...})];
    the schema trims [title], [videoUrl] and [videoThumbnail] as they are set. *)
Definition newEpisodeDoc (id seriesId : ObjectId) (x : ComingSoonEpisode) : Episode :=
  mkEpisode id seriesId (ce_episode x)
    (trim (orElse (ce_title x) EmptyString)) (orElse (ce_coin x) 0) (orElse (ce_views x) 0)
    (orElse (ce_coinEarned x) 0) (trim (ce_videoUrl x))
    (option_map trim (ce_videoThumbnail x)).

(** [ComingSoonSeries.find({status: 'pending', scheduledReleaseDate: {$lte: now}})] *)
Definition dueSeries (now : Z) (s : ComingSoonSeries) : bool :=
  isDue now (css_status s) (css_scheduledReleaseDate s).

Definition ComingSoonSeries_findDue (now : Z) : M (list ComingSoonSeries) :=
  query (ComingSoonSeries_find_due now)
        (fun w => filter (dueSeries now) (db_ComingSoonSeries w)).

(** [{status: 'pending', scheduledReleaseDate: {$gt: now}}] *)
Definition futureSeries (now : Z) (s : ComingSoonSeries) : bool :=
  Status_eqb (css_status s) StPending && (now <? css_scheduledReleaseDate s).

Definition ComingSoonSeries_countFuture (now : Z) : M nat :=
  query (ComingSoonSeries_countDocuments_future now)
        (fun w => length (filter (futureSeries now) (db_ComingSoonSeries w))).

(** [findOne(...).sort({scheduledReleaseDate: 1})]: the earliest future series,
    the first one in natural order among equals. *)
Fixpoint earliest (l : list ComingSoonSeries) : option ComingSoonSeries :=
  match l with
  | [] => None
  | s :: l' =>
      match earliest l' with
      | Some s' =>
          if css_scheduledReleaseDate s' <? css_scheduledReleaseDate s
          then Some s' else Some s
      | None => Some s
      end
  end.

Definition ComingSoonSeries_nextFuture (now : Z) : M (option ComingSoonSeries) :=
  query (ComingSoonSeries_findOne_future now)
        (fun w => earliest (filter (futureSeries now) (db_ComingSoonSeries w))).

(** [new Series({title: cs.title, ..., rating: cs.rating || 0, viewCount: 0})] *)
Definition newSeriesDoc (id : ObjectId) (cs : ComingSoonSeries) : Series :=
  mkSeries id (css_title cs) (css_description cs) (css_totalEpisode cs)
    (css_freeEpisode cs) (css_free cs) (css_membersOnly cs) (css_type cs)
    (css_active cs) (css_category cs) (css_tags cs) (css_image cs) (css_banner cs)
    (orElse (css_rating cs) 0) 0.

(** [newSeries.save()] *)
Definition Series_insert (doc : Series) : M unit :=
  command (Series_save doc) (with_Series (fun l => l ++ [doc])).

(** [ComingSoonEpisode.updateMany({comingSoonSeriesId}, {$set: {seriesId}})] *)
Definition ComingSoonEpisode_relink (comingSoonSeriesId seriesId : ObjectId) : M unit :=
  command (ComingSoonEpisode_updateMany comingSoonSeriesId seriesId)
          (with_ComingSoonEpisode
             (updateWhere (fun e => idIs comingSoonSeriesId (ce_comingSoonSeriesId e))
                          (setSeriesId seriesId))).

(** [SeriesTransferLog.create(doc)] *)
Definition SeriesTransferLog_insert (doc : SeriesTransferLog) : M unit :=
  command (SeriesTransferLog_create doc) (with_SeriesTransferLog (fun l => l ++ [doc])).

Definition setSeriesStatus (st : Status) (s : ComingSoonSeries) : ComingSoonSeries :=
  mkComingSoonSeries (css_id s) (css_title s) (css_description s) (css_totalEpisode s)
    (css_freeEpisode s) (css_free s) (css_membersOnly s) (css_type s) (css_active s)
    (css_category s) (css_tags s) (css_image s) (css_banner s) (css_rating s)
    (css_viewCount s) (css_scheduledReleaseDate s) st.

(** [ComingSoonSeries.findByIdAndUpdate(id, {status: 'released'})] *)
Definition ComingSoonSeries_markReleased (id : ObjectId) : M unit :=
  command (ComingSoonSeries_setReleased id)
          (with_ComingSoonSeries
             (updateWhere (fun s => Nat.eqb (css_id s) id) (setSeriesStatus StReleased))).

(** [ComingSoonSeries.findByIdAndDelete(id)] *)
Definition ComingSoonSeries_delete (id : ObjectId) : M unit :=
  command (ComingSoonSeries_findByIdAndDelete id)
          (with_ComingSoonSeries (deleteWhere (fun s => Nat.eqb (css_id s) id))).

(** [{$or: [{seriesId}, {comingSoonSeriesId}], status: 'pending'}] *)
Definition episodeOfSeries (seriesId comingSoonSeriesId : ObjectId) (e : ComingSoonEpisode) : bool :=
  (idIs seriesId (ce_seriesId e) || idIs comingSoonSeriesId (ce_comingSoonSeriesId e))
  && Status_eqb (ce_status e) StPending.

Definition ComingSoonEpisode_findOfSeries (seriesId comingSoonSeriesId : ObjectId)
  : M (list ComingSoonEpisode) :=
  query (ComingSoonEpisode_find_ofSeries seriesId comingSoonSeriesId)
        (fun w => filter (episodeOfSeries seriesId comingSoonSeriesId) (db_ComingSoonEpisode w)).

(** A fresh activation record: the locals [released] and [errors] are empty
    until the function pushes to them. *)
Definition enter : M unit :=
  modify (fun w => with_released (fun _ => []) (with_errors (fun _ => []) w)).

Definition released_push (r : Released) : M unit :=
  modify (with_released (fun l => l ++ [r])).

Definition errors_push (f : Failure) : M unit :=
  modify (with_errors (fun l => l ++ [f])).

(** ** releaseComingSoonEpisodes *)

(** The body of [for (const comingSoonEpisode of episodesToRelease) { try {...} }];
    [promote] is the part of the body after the resolution of [finalSeriesId]. *)
Definition releaseEpisode (comingSoonEpisode : ComingSoonEpisode) : M Ctl :=
  let promote (finalSeriesId : option ObjectId) : M Ctl :=
    match finalSeriesId with
    | None =>
        console WARN (EpisodeSkippedNoSeries (ce_id comingSoonEpisode)) ;;
        ret Next
    | Some seriesId =>
        existingEpisode <- Episode_findOneBy seriesId (ce_episode comingSoonEpisode) ;;
        match existingEpisode with
        | Some _ =>
            ComingSoonEpisode_markReleased (ce_id comingSoonEpisode) ;;
            ComingSoonEpisode_delete (ce_id comingSoonEpisode) ;;
            console LOG (EpisodeAlreadyExists (ce_episode comingSoonEpisode)) ;;
            ret Next
        | None =>
            id <- newObjectId ;;
            let newEpisode := newEpisodeDoc id seriesId comingSoonEpisode in
            Episode_insert newEpisode ;;
            ComingSoonEpisode_markReleased (ce_id comingSoonEpisode) ;;
            ComingSoonEpisode_delete (ce_id comingSoonEpisode) ;;
            released_push (ReleasedEpisode (e_id newEpisode) seriesId
                                           (ce_episode comingSoonEpisode)) ;;
            console LOG (EpisodeReleased (ce_episode comingSoonEpisode) seriesId) ;;
            ret Next
        end
    end in
  match ce_seriesId comingSoonEpisode, ce_comingSoonSeriesId comingSoonEpisode with
  | None, Some comingSoonSeriesId =>
      transferLog <- SeriesTransferLog_findOneBy comingSoonSeriesId ;;
      match transferLog with
      | Some tl =>
          ComingSoonEpisode_updateSeriesId (ce_id comingSoonEpisode) (tl_seriesId tl) ;;
          console LOG (EpisodeResolved (tl_seriesId tl) (ce_id comingSoonEpisode)) ;;
          promote (Some (tl_seriesId tl))
      | None => ret Next
      end
  | finalSeriesId, _ => promote finalSeriesId
  end.

(** [catch (error) { if (error.code === 'ENOSPC') {...; break;} errors.push(...); ... }] *)
Definition episodeCatch (comingSoonEpisode : ComingSoonEpisode) (error : JsError) : M Ctl :=
  if isENOSPC error then
    console ERROR (EpisodeDiskFull (ce_id comingSoonEpisode)) ;;
    ret Break
  else
    errors_push (mkFailure (ce_id comingSoonEpisode) (message error)) ;;
    console ERROR (EpisodeError (ce_id comingSoonEpisode) (message error)) ;;
    ret Next.

Definition episodeLoopBody (comingSoonEpisode : ComingSoonEpisode) : M Ctl :=
  tryCatch (releaseEpisode comingSoonEpisode) (episodeCatch comingSoonEpisode).

Definition releaseComingSoonEpisodes : M unit :=
  enter ;;
  tryCatch
    (now <- newDate ;;
     episodesToRelease <- ComingSoonEpisode_findDue now ;;
     if Nat.eqb (length episodesToRelease) 0 then ret tt
     else
       console LOG (EpisodesFound (length episodesToRelease)) ;;
       forOf episodesToRelease episodeLoopBody ;;
       rel <- gets released ;;
       (if Nat.ltb 0 (length rel)
        then console LOG (EpisodesReleasedCount (length rel)) else ret tt) ;;
       errs <- gets errors ;;
       (if Nat.ltb 0 (length errs)
        then console ERROR (EpisodesFailedCount (length errs)) else ret tt))
    (fun error => console ERROR (EpisodesJobError error)).

(** ** releaseComingSoonSeries *)

(** The body of the inner [for (const episode of episodesToRelease) { try {...} }]. *)
Definition releaseEpisodeOfSeries (newSeries : Series) (episode : ComingSoonEpisode) : M Ctl :=
  existingEpisode <- Episode_findOneBy (s_id newSeries) (ce_episode episode) ;;
  match existingEpisode with
  | Some _ =>
      ComingSoonEpisode_markReleased (ce_id episode) ;;
      ComingSoonEpisode_delete (ce_id episode) ;;
      console LOG (EpisodeAlreadyExists (ce_episode episode)) ;;
      ret Next
  | None =>
      id <- newObjectId ;;
      let newEpisode := newEpisodeDoc id (s_id newSeries) episode in
      Episode_insert newEpisode ;;
      ComingSoonEpisode_markReleased (ce_id episode) ;;
      ComingSoonEpisode_delete (ce_id episode) ;;
      console LOG (SeriesEpisodeReleased (ce_episode episode) (s_title newSeries)) ;;
      ret Next
  end.

(** [catch (episodeError) { console.error(...) }] *)
Definition seriesEpisodeCatch (newSeries : Series) (episode : ComingSoonEpisode)
    (episodeError : JsError) : M Ctl :=
  console ERROR (SeriesEpisodeError (ce_id episode) (s_title newSeries) (message episodeError)) ;;
  ret Next.

Definition seriesEpisodeLoopBody (newSeries : Series) (episode : ComingSoonEpisode) : M Ctl :=
  tryCatch (releaseEpisodeOfSeries newSeries episode) (seriesEpisodeCatch newSeries episode).

(** The body of [for (const comingSoonSeries of seriesToRelease) { try {...} }]. *)
Definition releaseSeries (comingSoonSeries : ComingSoonSeries) : M Ctl :=
  id <- newObjectId ;;
  let newSeries := newSeriesDoc id comingSoonSeries in
  Series_insert newSeries ;;
  ComingSoonEpisode_relink (css_id comingSoonSeries) (s_id newSeries) ;;
  logId <- newObjectId ;;
  transferredAt <- newDate ;;
  SeriesTransferLog_insert
    (mkSeriesTransferLog logId (css_id comingSoonSeries) (s_id newSeries) (s_title newSeries)
                         (css_scheduledReleaseDate comingSoonSeries) transferredAt) ;;
  ComingSoonSeries_markReleased (css_id comingSoonSeries) ;;
  ComingSoonSeries_delete (css_id comingSoonSeries) ;;
  released_push (ReleasedSeries (s_id newSeries) (s_title newSeries)) ;;
  console LOG (SeriesReleased (s_title newSeries) (s_id newSeries)) ;;
  episodesToRelease <- ComingSoonEpisode_findOfSeries (s_id newSeries) (css_id comingSoonSeries) ;;
  if Nat.ltb 0 (length episodesToRelease) then
    console LOG (SeriesEpisodesReleasing (length episodesToRelease) (s_title newSeries)) ;;
    forOf episodesToRelease (seriesEpisodeLoopBody newSeries) ;;
    ret Next
  else ret Next.

Definition seriesCatch (comingSoonSeries : ComingSoonSeries) (error : JsError) : M Ctl :=
  if isENOSPC error then
    console ERROR (SeriesDiskFull (css_id comingSoonSeries)) ;;
    ret Break
  else
    errors_push (mkFailure (css_id comingSoonSeries) (message error)) ;;
    console ERROR (SeriesError (css_id comingSoonSeries) (message error)) ;;
    ret Next.

Definition seriesLoopBody (comingSoonSeries : ComingSoonSeries) : M Ctl :=
  tryCatch (releaseSeries comingSoonSeries) (seriesCatch comingSoonSeries).

Definition releaseComingSoonSeries : M unit :=
  enter ;;
  tryCatch
    (now <- newDate ;;
     seriesToRelease <- ComingSoonSeries_findDue now ;;
     if Nat.eqb (length seriesToRelease) 0 then
       futureSeriesCount <- ComingSoonSeries_countFuture now ;;
       (if Nat.ltb 0 futureSeriesCount then
          nextSeries <- ComingSoonSeries_nextFuture now ;;
          match nextSeries with
          | Some s => console LOG (NoSeriesReady (css_title s) (css_scheduledReleaseDate s))
          | None => ret tt
          end
        else ret tt)
     else
       console LOG (SeriesFound (length seriesToRelease)) ;;
       forOf seriesToRelease seriesLoopBody ;;
       rel <- gets released ;;
       (if Nat.ltb 0 (length rel)
        then console LOG (SeriesReleasedCount (length rel)) else ret tt) ;;
       errs <- gets errors ;;
       (if Nat.ltb 0 (length errs)
        then console ERROR (SeriesFailedCount (length errs)) else ret tt))
    (fun error => console ERROR (SeriesJobError error)).

(** The callback of [cron.schedule('* * * * *', async () => {...})]:
    [await releaseComingSoonSeries(); await releaseComingSoonEpisodes();] *)
Definition cronTick : M unit :=
  releaseComingSoonSeries ;;
  releaseComingSoonEpisodes.

(** ** Notions used by the statements *)

(** [min] on a count that may be absent: an absent value passes. *)
Definition atLeast (min : Z) (x : option Z) : bool :=
  match x with Some v => min <=? v | None => true end.

(** models/ComingSoonEpisode.js puts on a coming-soon episode the validators
    that models/Episode.js puts on a live one: [episode] from 1 to 100, the
    counts not negative, [videoUrl] not blank. *)
Definition ComingSoonEpisode_validate (x : ComingSoonEpisode) : bool :=
  (1 <=? ce_episode x) && (ce_episode x <=? 100) &&
  atLeast 0 (ce_coin x) && atLeast 0 (ce_views x) && atLeast 0 (ce_coinEarned x) &&
  negb (String.eqb (trim (ce_videoUrl x)) EmptyString).

(** [keeps R m]: whatever the script does to [m], and however [m] completes,
    the worlds before and after are related by [R]. *)
Definition keeps (R : World -> World -> Prop) {A} (m : M A) : Prop :=
  forall w c w', m w = (c, w') -> R w w'.

(** Relations that the bookkeeping of a store call (trace and script) cannot
    break. *)
Class Frame (R : World -> World -> Prop) : Prop := {
  frame_refl : forall w, R w w;
  frame_trans : forall a b c, R a b -> R b c -> R a c;
  frame_emit : forall w ev, R w (emit ev w);
  frame_faults : forall w fs, R w (with_faults fs w)
}.

(** The console lines by which a handler reports a caught error. *)
Definition isErrorReport (ev : Event) : bool :=
  match ev with
  | Console ERROR (EpisodeDiskFull _) | Console ERROR (EpisodeError _ _)
  | Console ERROR (EpisodesJobError _) | Console ERROR (SeriesEpisodeError _ _ _)
  | Console ERROR (SeriesDiskFull _) | Console ERROR (SeriesError _ _)
  | Console ERROR (SeriesJobError _) => true
  | _ => false
  end.

Definition isRejection (x : option JsError) : bool :=
  match x with Some _ => true | None => false end.

(** A [save()] that the validators refused. *)
Definition isRefusal (ev : Event) : bool :=
  match ev with
  | Call (Episode_save doc) => negb (Episode_validate doc)
  | _ => false
  end.

(** [Reported k w w']: between [w] and [w'] the calls that failed, rejected by
    the script or refused by the validators, are [k] more than the error
    reports written to the console. *)
Definition Reported (k : nat) (w w' : World) : Prop :=
  exists used added,
    faults w = used ++ faults w' /\
    trace w' = trace w ++ added /\
    (length (filter isRejection used) + length (filter isRefusal added))%nat
    = (length (filter isErrorReport added) + k)%nat.

(** [accounts m]: when [m] completes normally every rejection has been
    reported; when it throws, the thrown one is the only one outstanding. *)
Definition accounts {A} (m : M A) : Prop :=
  forall w, match m w with
            | (Normal _, w') => Reported 0 w w'
            | (Throw _, w') => Reported 1 w w'
            end.

(** [settles h]: a handler entered with one rejection outstanding. *)
Definition settles {A} (h : M A) : Prop :=
  forall w0 w, Reported 1 w0 w ->
    match h w with
    | (Normal _, w') => Reported 0 w0 w'
    | (Throw _, w') => Reported 1 w0 w'
    end.

Definition unchanged {X} (f : World -> X) (w w' : World) : Prop := f w' = f w.

(** [grows f]: the list [f] of the world only gets longer, at its end. *)
Definition grows {X} (f : World -> list X) (w w' : World) : Prop :=
  exists l, f w' = f w ++ l.

(** The records of a collection other than the one with a given id. *)
Definition otherSeries (id : ObjectId) (w : World) : list ComingSoonSeries :=
  deleteWhere (fun s => Nat.eqb (css_id s) id) (db_ComingSoonSeries w).

Definition otherEpisodes (id : ObjectId) (w : World) : list ComingSoonEpisode :=
  deleteWhere (fun e => Nat.eqb (ce_id e) id) (db_ComingSoonEpisode w).

(** [growsBy P f]: [f] only gets longer, by elements that satisfy [P]. *)
Definition growsBy {X} (P : X -> Prop) (f : World -> list X) (w w' : World) : Prop :=
  exists l, f w' = f w ++ l /\ Forall P l.

(** The coming-soon series whose id is not in [ids]. *)
Definition seriesOutside (ids : list ObjectId) (w : World) : list ComingSoonSeries :=
  deleteWhere (fun s => existsb (Nat.eqb (css_id s)) ids) (db_ComingSoonSeries w).

(** The value of [finalSeriesId] after the resolution step of
    [releaseComingSoonEpisodes]: the episode's own [seriesId], or else the
    [seriesId] of the first transfer log entry of its [comingSoonSeriesId]. *)
Definition finalSeriesIdOf (w : World) (e : ComingSoonEpisode) : option ObjectId :=
  match ce_seriesId e, ce_comingSoonSeriesId e with
  | None, Some comingSoonSeriesId =>
      option_map tl_seriesId (transferLogFor comingSoonSeriesId w)
  | seriesId, _ => seriesId
  end.

(** The coming-soon episodes once the resolution step of the iteration of
    [e] is over: with the [seriesId] found in the transfer log written back
    to [e], if that is how [finalSeriesId] was found. *)
Definition afterResolution (w : World) (e : ComingSoonEpisode) : list ComingSoonEpisode :=
  match ce_seriesId e, finalSeriesIdOf w e with
  | None, Some seriesId =>
      updateWhere (fun x => Nat.eqb (ce_id x) (ce_id e)) (setSeriesId seriesId)
                  (db_ComingSoonEpisode w)
  | _, _ => db_ComingSoonEpisode w
  end.

Definition isSome {X} (x : option X) : bool :=
  match x with Some _ => true | None => false end.

(** The ids of the due episodes that a calm run takes off the coming-soon
    collection: those whose [finalSeriesId] resolves. *)
Definition resolvedIds (w : World) (l : list ComingSoonEpisode) : list ObjectId :=
  map ce_id (filter (fun e => isSome (finalSeriesIdOf w e)) l).

Definition idIn (ids : list ObjectId) (id : ObjectId) : bool := existsb (Nat.eqb id) ids.

(** The events [seg] occur in the trace, in this order and with nothing in
    between. *)
Definition hasSegment (seg : list Event) (w : World) : Prop :=
  exists before after, trace w = before ++ seg ++ after.

Definition keepsSegment (seg : list Event) (w w' : World) : Prop :=
  hasSegment seg w -> hasSegment seg w'.

(** The transfer log entry that [releaseComingSoonSeries] writes for a series
    whose live copy received the id [seriesId] (the entry itself gets the next
    id). *)
Definition transferLogDoc (seriesId : ObjectId) (cs : ComingSoonSeries) (now : Z)
  : SeriesTransferLog :=
  mkSeriesTransferLog (S seriesId) (css_id cs) seriesId (css_title cs)
                      (css_scheduledReleaseDate cs) now.

(** The id counter never goes back. *)
Definition idsAdvance (w w' : World) : Prop := (nextObjectId w <= nextObjectId w')%nat.

(** The live episodes created for the episodes [eps] of the live series
    [seriesId], under consecutive ids from [id] on. *)
Fixpoint numberedEpisodeDocs (id seriesId : ObjectId) (eps : list ComingSoonEpisode)
  : list Episode :=
  match eps with
  | [] => []
  | ep :: eps' => newEpisodeDoc id seriesId ep :: numberedEpisodeDocs (S id) seriesId eps'
  end.

(** The coming-soon episodes of the coming-soon series [comingSoonSeriesId]
    that are still pending. *)
Definition pendingEpisodeOf (comingSoonSeriesId : ObjectId) (e : ComingSoonEpisode) : bool :=
  idIs comingSoonSeriesId (ce_comingSoonSeriesId e) && Status_eqb (ce_status e) StPending.

(** What the store guarantees about the collections the Series Promoter
    reads: ids come from the generator (so every stored id and reference is
    older than the next id), [_id] is unique in a collection, and the unique
    index of the coming-soon episodes on (comingSoonSeriesId, episode) holds,
    and every coming-soon episode passes the validators of its schema. *)
Record WellFormed (w : World) : Prop := {
  wf_series_ids : forall s, In s (db_Series w) -> (s_id s < nextObjectId w)%nat;
  wf_episode_refs : forall e, In e (db_Episode w) -> (e_seriesId e < nextObjectId w)%nat;
  wf_pending_refs :
    forall e s, In e (db_ComingSoonEpisode w) -> ce_seriesId e = Some s ->
                (s < nextObjectId w)%nat;
  wf_series_unique : NoDup (map css_id (db_ComingSoonSeries w));
  wf_pending_unique : NoDup (map ce_id (db_ComingSoonEpisode w));
  wf_pending_index :
    forall c, NoDup (map ce_episode
                         (filter (fun e => idIs c (ce_comingSoonSeriesId e))
                                 (db_ComingSoonEpisode w)));
  wf_pending_valid :
    Forall (fun e => ComingSoonEpisode_validate e = true) (db_ComingSoonEpisode w)
}.

(** The five collections. *)
Definition store (w : World) :=
  (db_ComingSoonSeries w, db_ComingSoonEpisode w, db_Series w, db_Episode w,
   db_SeriesTransferLog w).

(** The rule of a promoter's per-item handler, for a loop over
    [pre ++ x :: rest] in which the iteration of [x] threw [error] and left the
    world [w2]: on ENOSPC the loop breaks there, after one critical line;
    otherwise the failure is pushed to [errors], logged, and the loop goes on
    with [rest]. *)
Definition handlerRule {A} (body : A -> M Ctl) (idOf : A -> ObjectId)
    (diskFull : ObjectId -> ConsoleLine) (failed : ObjectId -> string -> ConsoleLine)
    (pre : list A) (x : A) (rest : list A) (w w2 : World) (error : JsError) : Prop :=
  (isENOSPC error = true ->
     forOf (pre ++ x :: rest) body w
     = (Normal Break, emit (Console ERROR (diskFull (idOf x))) w2)) /\
  (isENOSPC error = false ->
     forOf (pre ++ x :: rest) body w
     = forOf rest body
         (emit (Console ERROR (failed (idOf x) (message error)))
               (with_errors (fun l => l ++ [mkFailure (idOf x) (message error)]) w2))).

(** ** Sample worlds *)

Module Sample.

Definition aSeries (id : ObjectId) (title : string) (at_ : Z) (st : Status) : ComingSoonSeries :=
  mkComingSoonSeries id title "d" 10 2 false false "Exclusive" true ["Drama"%string] []
                     "img" "ban" (Some 8) 0 at_ st.

Definition anEpisode (id : ObjectId) (seriesId comingSoonSeriesId : option ObjectId)
    (n : Z) (at_ : Z) : ComingSoonEpisode :=
  mkComingSoonEpisode id seriesId comingSoonSeriesId n (Some "t"%string) (Some 5) None None
                      "v.mp4" None at_ StPending.

Definition ENOSPC : JsError := mkJsError (Some "ENOSPC"%string) "no space left on device".
Definition EBUSY : JsError := mkJsError (Some "EBUSY"%string) "busy".

Definition world (cs : list ComingSoonSeries) (ce : list ComingSoonEpisode)
    (s : list Series) (e : list Episode) (tl : list SeriesTransferLog)
    (fs : list (option JsError)) : World :=
  mkWorld cs ce s e tl 100 1000 fs [] [] [].

(** Series "X" is due, its only episode is scheduled an hour later. *)
Definition w1 : World :=
  world [aSeries 1 "X" 999 StPending] [anEpisode 2 None (Some 1%nat) 1 4600] [] [] [] [].
Definition w1Released : World := Eval vm_compute in snd (releaseComingSoonSeries w1).

(** The live copy of "X", and its episode at the moment [Episode.save] is
    rejected for lack of space. *)
Definition liveX : Series := newSeriesDoc 100 (aSeries 1 "X" 999 StPending).
Definition episode1 : ComingSoonEpisode := anEpisode 2 (Some 100%nat) (Some 1%nat) 1 4600.
Definition wSaveFull : World := world [] [episode1] [liveX] [] [] [None; Some ENOSPC].

(** Five due series; the script lets the first through (the query and its six
    calls) and rejects [Series.save] of the second for lack of space. *)
Definition fiveDue : list ComingSoonSeries :=
  [aSeries 1 "A" 10 StPending; aSeries 2 "B" 20 StPending; aSeries 3 "C" 30 StPending;
   aSeries 4 "D" 40 StPending; aSeries 5 "E" 50 StPending].
Definition wSecondFull : World :=
  world fiveDue [] [] [] [] [None; None; None; None; None; None; None; Some ENOSPC].

(** The same inside the loop, after the query. *)
Definition wLoopSecondFull : World :=
  world fiveDue [] [] [] [] [None; None; None; None; None; None; Some ENOSPC].

(** The script rejects the delete of "X", after its status was set. *)
Definition wDeleteFull : World :=
  world [aSeries 1 "X" 999 StPending] [] [] [] []
        [None; None; None; None; None; Some ENOSPC].

Definition dueEpisode1 : ComingSoonEpisode := anEpisode 2 (Some 100%nat) None 1 900.
(** Same for a due episode of an already live series, inside the loop. *)
Definition wLoopEpisodeDeleteFull : World :=
  world [] [dueEpisode1] [liveX] [] [] [None; None; None; Some ENOSPC].

(** The worlds reached in these runs. *)
Definition wAfterFirst : World :=
  Eval vm_compute in snd (forOf [aSeries 1 "A" 10 StPending] seriesLoopBody wLoopSecondFull).
Definition wSecondFailed : World :=
  Eval vm_compute in snd (releaseSeries (aSeries 2 "B" 20 StPending) wAfterFirst).
Definition wEpisodeFailed : World :=
  Eval vm_compute in snd (releaseEpisode dueEpisode1 wLoopEpisodeDeleteFull).
Definition wDeleteFailed : World :=
  Eval vm_compute in snd (releaseComingSoonSeries wDeleteFull).

(** A record left at status released (marked, not deleted). *)
Definition stuckX : ComingSoonSeries := aSeries 1 "X" 999 StReleased.
Definition wStuck : World := world [stuckX] [] [] [] [] [].
Definition wStuckLooped : World :=
  Eval vm_compute in snd (forOf [stuckX] seriesLoopBody wStuck).

(** Two due episodes without [seriesId]: the series of the first was released
    earlier (transfer log entry 1 -> 100), the series of the second is still
    coming soon. *)
Definition orphan1 : ComingSoonEpisode := anEpisode 2 None (Some 1%nat) 1 900.
Definition orphan2 : ComingSoonEpisode := anEpisode 3 None (Some 7%nat) 1 900.
Definition wOrphans : World :=
  world [aSeries 7 "Y" 5000 StPending] [orphan1; orphan2] [liveX] []
        [mkSeriesTransferLog 101 1 100 "X" 999 1000] [].

(** Episode 1 of the live series 100 exists already, and is due once more
    from the coming-soon collection. *)
Definition liveEpisode1 : Episode := newEpisodeDoc 50 100 dueEpisode1.
Definition wDuplicate : World := world [] [dueEpisode1] [liveX] [liveEpisode1] [] [].

(** The script lets the query, [Series.save] and the relink through and
    rejects [SeriesTransferLog.create]. *)
Definition wCreateRejected : World :=
  world [aSeries 1 "X" 999 StPending] [] [] [] [] [None; None; None; Some EBUSY].

(** A due episode of the live series 100 whose number is out of the range
    of the live schema. *)
Definition outOfRange1 : ComingSoonEpisode := anEpisode 2 (Some 100%nat) None 500 900.
Definition wOutOfRange : World := world [] [outOfRange1] [liveX] [] [] [].

End Sample.


(** ** Notions for the invariants of a whole tick *)

(** The key of the unique index of models/Episode.js:
    [episodeSchema.index({ seriesId: 1, episode: 1 }, { unique: true })]. *)
Definition episodeKey (e : Episode) : ObjectId * Z := (e_seriesId e, e_episode e).

Definition uniqueEpisodeIndex (w w' : World) : Prop :=
  NoDup (map episodeKey (db_Episode w)) -> NoDup (map episodeKey (db_Episode w')).

(** What a tick may do to a coming-soon series: nothing, or set its status to
    released. *)
Definition seriesEdit (s s' : ComingSoonSeries) : Prop :=
  s' = s \/ s' = setSeriesStatus StReleased s.

(** The fields of a coming-soon episode that the job never writes. *)
Definition episodeContent (e : ComingSoonEpisode) :=
  (ce_id e, ce_comingSoonSeriesId e, ce_episode e, ce_title e, ce_coin e, ce_views e,
   ce_coinEarned e, ce_videoUrl e, ce_videoThumbnail e, ce_scheduledReleaseDate e).

(** What a tick may do to a coming-soon episode: set [seriesId], and set the
    status to released. *)
Definition episodeEdit (e e' : ComingSoonEpisode) : Prop :=
  episodeContent e' = episodeContent e /\
  (ce_seriesId e' = ce_seriesId e \/ exists seriesId, ce_seriesId e' = Some seriesId) /\
  (ce_status e' = ce_status e \/ ce_status e' = StReleased).

(** [derived edit f]: every record of the list [f] afterwards comes from a
    record that was there before, by [edit]. *)
Definition derived {X} (edit : X -> X -> Prop) (f : World -> list X) (w w' : World) : Prop :=
  Forall (fun y => exists x, In x (f w) /\ edit x y) (f w').

(** The coming-soon episodes with a given [_id]. *)
Definition episodesWithId (id : ObjectId) (w : World) : list ComingSoonEpisode :=
  filter (fun x => Nat.eqb (ce_id x) id) (db_ComingSoonEpisode w).

(** The record [e] is the one coming-soon episode under its id, before and
    after. *)
Definition staysPut (e : ComingSoonEpisode) (w w' : World) : Prop :=
  episodesWithId (ce_id e) w = [e] -> episodesWithId (ce_id e) w' = [e].

(** [Math.ceil(a / b)] on integers, [b] not zero, in the range where the
    quotient of two doubles has the ceiling of the exact quotient. *)
Definition ceilDiv (a b : Z) : Z := - ((- a) / b).

(** ** The range validators of the episode schemas *)

(** models/ComingSoonEpisode.js: [episode: {min: 1, max: 100}],
    [coin], [views], [coinEarned]: [{min: 0}]. *)
Definition ComingSoonEpisode_rangesValid (e : ComingSoonEpisode) : bool :=
  (1 <=? ce_episode e) && (ce_episode e <=? 100) &&
  atLeast 0 (ce_coin e) && atLeast 0 (ce_views e) && atLeast 0 (ce_coinEarned e).

(** models/Episode.js: the same bounds. *)
Definition Episode_rangesValid (e : Episode) : bool :=
  (1 <=? e_episode e) && (e_episode e <=? 100) &&
  (0 <=? e_coin e) && (0 <=? e_views e) && (0 <=? e_coinEarned e).

Definition rangesValid (w : World) : Prop :=
  Forall (fun x => ComingSoonEpisode_rangesValid x = true) (db_ComingSoonEpisode w) /\
  Forall (fun e => Episode_rangesValid e = true) (db_Episode w).

Definition keepsRanges (w w' : World) : Prop := rangesValid w -> rangesValid w'.

(** ** What the Episode Promoter adds, and what it never reads *)

(** The live episode [e] is the copy of an episode [x] of the list [l], under
    the series id that the resolution step gives for [x] in the world [w0]. *)
Definition promotedFrom (w0 : World) (l : list ComingSoonEpisode) (e : Episode) : Prop :=
  exists x, In x l /\ finalSeriesIdOf w0 x = Some (e_seriesId e) /\
            e = newEpisodeDoc (e_id e) (e_seriesId e) x.

(** While the transfer log is that of [w0], it stays so and the live episodes
    grow by copies only. *)
Definition copiesOnly (w0 : World) (l : list ComingSoonEpisode) (w w' : World) : Prop :=
  db_SeriesTransferLog w = db_SeriesTransferLog w0 ->
  db_SeriesTransferLog w' = db_SeriesTransferLog w0 /\
  growsBy (promotedFrom w0 l) db_Episode w w'.

(** [ignoresSeries m]: with another Series collection in the store, [m]
    completes in the same way and does the same to the rest of the world. *)
Definition ignoresSeries {A} (m : M A) : Prop :=
  forall (w : World) (series : list Series),
    m (with_Series (fun _ => series) w)
    = (fst (m w), with_Series (fun _ => series) (snd (m w))).

(** ** The summary lines of a run *)

(** The per-item lines: one for each failure pushed to [errors], one for each
    entry pushed to [released]. *)
Definition isItemError (ev : Event) : bool :=
  match ev with
  | Console ERROR (SeriesError _ _) | Console ERROR (EpisodeError _ _) => true
  | _ => false
  end.

Definition isItemReleased (ev : Event) : bool :=
  match ev with
  | Console LOG (SeriesReleased _ _) | Console LOG (EpisodeReleased _ _) => true
  | _ => false
  end.

Definition isSummary (ev : Event) : bool :=
  match ev with
  | Console _ (SeriesReleasedCount _) | Console _ (SeriesFailedCount _)
  | Console _ (EpisodesReleasedCount _) | Console _ (EpisodesFailedCount _) => true
  | _ => false
  end.

(** The events that touch none of the counts. *)
Definition isPlain (ev : Event) : bool :=
  negb (isItemError ev || isItemReleased ev || isSummary ev).

(** [tallies w w']: between [w] and [w'] the arrays [errors] and [released]
    grew by as many entries as per-item lines were written, and no summary
    line was written. *)
Definition tallies (w w' : World) : Prop :=
  exists added,
    trace w' = trace w ++ added /\
    length (errors w') = (length (errors w) + length (filter isItemError added))%nat /\
    length (released w') = (length (released w) + length (filter isItemReleased added))%nat /\
    filter isSummary added = [].

(** [if (released.length > 0) console.log(...); if (errors.length > 0) console.error(...)] *)
Definition summaryLines (releasedCount failedCount : nat -> ConsoleLine) (nr nf : nat)
  : list Event :=
  (if Nat.ltb 0 nr then [Console LOG (releasedCount nr)] else []) ++
  (if Nat.ltb 0 nf then [Console ERROR (failedCount nf)] else []).

(** The lines [added] by a run end with its summary, which counts the
    per-item lines before it. *)
Definition tallied (releasedCount failedCount : nat -> ConsoleLine) (added : list Event)
  : Prop :=
  exists body,
    filter isSummary body = [] /\
    added = body ++ summaryLines releasedCount failedCount
                                 (length (filter isItemReleased body))
                                 (length (filter isItemError body)).

(** ** Consecutive ticks *)

Definition with_clock (now : Z) (w : World) : World :=
  mkWorld (db_ComingSoonSeries w) (db_ComingSoonEpisode w) (db_Series w) (db_Episode w)
          (db_SeriesTransferLog w) (nextObjectId w) now (faults w) (trace w)
          (released w) (errors w).

(** The callback of the scheduler run to its end at each of the given times,
    one run after the other. *)
Definition ticks (times : list Z) (w : World) : World :=
  fold_left (fun v now => snd (cronTick (with_clock now v))) times w.

(** ** controllers/comingSoonSeriesController.js *)

Record Response (A : Type) := mkResponse {
  statusCode : Z;
  success : bool;
  resMessage : string;
  resData : option A;
  resError : option string
}.
Arguments mkResponse {A}.
Arguments statusCode {A}.
Arguments success {A}.
Arguments resMessage {A}.
Arguments resData {A}.
Arguments resError {A}.

(** [ComingSoonSeries.findByIdAndDelete(id)] with its result: the record
    found, or null. *)
Definition ComingSoonSeries_findByIdAndDelete_doc (id : ObjectId)
  : M (option ComingSoonSeries) :=
  call (ComingSoonSeries_findByIdAndDelete id) ;;
  series <- gets (fun w => find (fun s => Nat.eqb (css_id s) id) (db_ComingSoonSeries w)) ;;
  modify (with_ComingSoonSeries (deleteWhere (fun s => Nat.eqb (css_id s) id))) ;;
  ret series.

(** [exports.deleteComingSoonSeries].  [req.params.id] is [None] when it does
    not cast to an ObjectId: the query then rejects with a CastError, which
    the handler answers with 400; a rejection by the store has another name
    and is answered with 500. *)
Definition deleteComingSoonSeries (id : option ObjectId) : M (Response ComingSoonSeries) :=
  match id with
  | None => ret (mkResponse 400 false "Invalid series ID" None None)
  | Some id =>
      tryCatch
        (series <- ComingSoonSeries_findByIdAndDelete_doc id ;;
         match series with
         | None => ret (mkResponse 404 false "Coming soon series not found" None None)
         | Some s =>
             ret (mkResponse 200 true "Coming soon series deleted successfully" (Some s) None)
         end)
        (fun error =>
           ret (mkResponse 500 false "Error deleting coming soon series" None
                           (Some (message error))))
  end.

(** What keeps an episode of a deleted coming-soon series where it is: it is
    the one record under its id, no coming-soon series and no transfer log
    entry has the id [comingSoonSeriesId]. *)
Definition orphaned (e : ComingSoonEpisode) (comingSoonSeriesId : ObjectId) (w : World) : Prop :=
  episodesWithId (ce_id e) w = [e] /\
  (forall s, In s (db_ComingSoonSeries w) -> css_id s <> comingSoonSeriesId) /\
  (forall entry, In entry (db_SeriesTransferLog w) ->
                 tl_comingSoonSeriesId entry <> comingSoonSeriesId).

Definition staysOrphaned (e : ComingSoonEpisode) (comingSoonSeriesId : ObjectId)
    (w w' : World) : Prop :=
  orphaned e comingSoonSeriesId w -> orphaned e comingSoonSeriesId w'.

(** [formatDateAndTime]: the 12-hour clock.
    [const ampm = hours >= 12 ? 'PM' : 'AM'; hours = hours % 12;
     hours = hours ? hours : 12;] *)
Inductive Meridiem := AM | PM.

Definition ampmOf (hours : Z) : Meridiem := if 12 <=? hours then PM else AM.

Definition hours12 (hours : Z) : Z :=
  let hours := Z.rem hours 12 in
  if hours =? 0 then 12 else hours.

(** ** controllers/seriesTransferLogController.js *)

(** [parseInt(x) || d]; [None] stands for NaN. *)
Definition parseIntOr (x : option Z) (d : Z) : Z :=
  match x with
  | Some v => if v =? 0 then d else v
  | None => d
  end.

Record Pagination := mkPagination {
  currentPage : Z;
  totalPages : Z;
  totalItems : Z;
  itemsPerPage : Z;
  hasNextPage : bool;
  hasPrevPage : bool
}.

(** [const skip = (page - 1) * limit;] *)
Definition skipOf (page limit : Z) : Z := (page - 1) * limit.

(** The [pagination] object of [getTransferLogs]. *)
Definition paginationOf (page limit total : Z) : Pagination :=
  mkPagination page (ceilDiv total limit) total limit
               (page <? ceilDiv total limit) (1 <? page).

(** [.skip(skip).limit(limit)] on the sorted logs, for a skip that is not
    negative and a positive limit. *)
Definition pageSlice {A} (skip limit : Z) (sorted : list A) : list A :=
  firstn (Z.to_nat limit) (skipn (Z.to_nat skip) sorted).

Module Scenario.

(** Nothing is due at 1000; two series are scheduled later. *)
Definition wIdle : World :=
  Sample.world [Sample.aSeries 1 "Later" 90000000 StPending;
                Sample.aSeries 2 "Sooner" 5000 StPending;
                Sample.aSeries 3 "Gone" 10 StReleased]
               [Sample.anEpisode 4 None (Some 2%nat) 1 5000]
               [] [] [] [].

(** A due episode that points to no series at all. *)
Definition loose : ComingSoonEpisode := Sample.anEpisode 7 None None 3 900.

Definition wLoose : World :=
  Sample.world [] [loose; Sample.dueEpisode1] [Sample.liveX] [] [] [].

(** The store rejects the [updateMany] that follows the first [save]. *)
Definition wRelinkFails : World :=
  Sample.world [Sample.aSeries 1 "X" 999 StPending] [] [] [] []
               [None; None; Some Sample.EBUSY].

(** Episode 1 of the coming-soon series 1, which has not been released. *)
Definition waiting : ComingSoonEpisode := Sample.anEpisode 2 None (Some 1%nat) 1 900.

Definition wBeforeDelete : World :=
  Sample.world [Sample.aSeries 1 "X" 999 StPending; Sample.aSeries 5 "Y" 2000 StPending]
               [waiting; Sample.anEpisode 6 None (Some 5%nat) 1 2000] [] [] [] [].

(** The episode of [Sample.wDuplicate] without its live copy, and without any
    live series. *)
Definition wDangling : World := Sample.world [] [Sample.dueEpisode1] [] [] [] [].

End Scenario.


(** * The scheduler: [startCronJob]

    [startCronJob] calls the two promoters without awaiting them, so their
    activations are in flight together.  To follow them, an async function
    is read as a resumption: it runs up to its next [await] of a store call
    and hands the world back; when it is resumed, the awaited call takes
    effect on the world as it then is, and the function runs on to its next
    [await].  The order in which pending activations are resumed is not
    decided by the job: it is a schedule, given from outside. *)

Inductive Step (A : Type) :=
| Finished (c : Completion A) (w : World)
| Awaiting (w : World) (resume : World -> Step A).
Arguments Finished {A} c w.
Arguments Awaiting {A} w resume.

Definition Co (A : Type) := World -> Step A.

(** Code without [await]. *)
Definition lift {A} (m : M A) : Co A :=
  fun w => let (c, w') := m w in Finished c w'.

(** [await] of one store operation. *)
Definition await {A} (m : M A) : Co A :=
  fun w => Awaiting w (lift m).

Definition retCo {A} (a : A) : Co A := lift (ret a).

Fixpoint bindStep {A B} (s : Step A) (k : A -> Co B) : Step B :=
  match s with
  | Finished (Normal a) w => k a w
  | Finished (Throw e) w => Finished (Throw e) w
  | Awaiting w resume => Awaiting w (fun w' => bindStep (resume w') k)
  end.

Definition bindCo {A B} (m : Co A) (k : A -> Co B) : Co B :=
  fun w => bindStep (m w) k.

Fixpoint catchStep {A} (s : Step A) (h : JsError -> Co A) : Step A :=
  match s with
  | Finished (Normal a) w => Finished (Normal a) w
  | Finished (Throw e) w => h e w
  | Awaiting w resume => Awaiting w (fun w' => catchStep (resume w') h)
  end.

Definition tryCatchCo {A} (m : Co A) (h : JsError -> Co A) : Co A :=
  fun w => catchStep (m w) h.

Declare Scope co_scope.
Delimit Scope co_scope with co.
Notation "x <- m ;; k" := (bindCo m (fun x => k))
  (at level 61, m at next level, right associativity) : co_scope.
Notation "m ;; k" := (bindCo m (fun _ => k))
  (at level 61, right associativity) : co_scope.

Fixpoint forOfCo {A} (xs : list A) (body : A -> Co Ctl) : Co Ctl :=
  match xs with
  | [] => retCo Next
  | x :: xs' =>
      bindCo (body x) (fun c =>
        match c with
        | Next => forOfCo xs' body
        | Break => retCo Break
        end)
  end.

(** The activation resumed every time it awaits, with nothing in between. *)
Fixpoint runStep {A} (s : Step A) : Completion A * World :=
  match s with
  | Finished c w => (c, w)
  | Awaiting w resume => runStep (resume w)
  end.

Definition run {A} (m : Co A) : M A := fun w => runStep (m w).

(** [runsAs c m]: resumed without interruption, [c] does what [m] does. *)
Definition runsAs {A} (c : Co A) (m : M A) : Prop := forall w, run c w = m w.

(** The number of times an activation left alone is resumed. *)
Fixpoint awaits {A} (s : Step A) : nat :=
  match s with
  | Finished _ _ => 0
  | Awaiting w resume => S (awaits (resume w))
  end.

(** ** The promoters, with their [await]s *)

Section Promoters.
Local Open Scope co_scope.

Definition releaseEpisodeCo (comingSoonEpisode : ComingSoonEpisode) : Co Ctl :=
  let promote (finalSeriesId : option ObjectId) : Co Ctl :=
    match finalSeriesId with
    | None =>
        lift (console WARN (EpisodeSkippedNoSeries (ce_id comingSoonEpisode))) ;;
        retCo Next
    | Some seriesId =>
        existingEpisode <- await (Episode_findOneBy seriesId (ce_episode comingSoonEpisode)) ;;
        match existingEpisode with
        | Some _ =>
            await (ComingSoonEpisode_markReleased (ce_id comingSoonEpisode)) ;;
            await (ComingSoonEpisode_delete (ce_id comingSoonEpisode)) ;;
            lift (console LOG (EpisodeAlreadyExists (ce_episode comingSoonEpisode))) ;;
            retCo Next
        | None =>
            id <- lift newObjectId ;;
            let newEpisode := newEpisodeDoc id seriesId comingSoonEpisode in
            await (Episode_insert newEpisode) ;;
            await (ComingSoonEpisode_markReleased (ce_id comingSoonEpisode)) ;;
            await (ComingSoonEpisode_delete (ce_id comingSoonEpisode)) ;;
            lift (released_push (ReleasedEpisode (e_id newEpisode) seriesId
                                                 (ce_episode comingSoonEpisode))) ;;
            lift (console LOG (EpisodeReleased (ce_episode comingSoonEpisode) seriesId)) ;;
            retCo Next
        end
    end in
  match ce_seriesId comingSoonEpisode, ce_comingSoonSeriesId comingSoonEpisode with
  | None, Some comingSoonSeriesId =>
      transferLog <- await (SeriesTransferLog_findOneBy comingSoonSeriesId) ;;
      match transferLog with
      | Some tl =>
          await (ComingSoonEpisode_updateSeriesId (ce_id comingSoonEpisode) (tl_seriesId tl)) ;;
          lift (console LOG (EpisodeResolved (tl_seriesId tl) (ce_id comingSoonEpisode))) ;;
          promote (Some (tl_seriesId tl))
      | None => retCo Next
      end
  | finalSeriesId, _ => promote finalSeriesId
  end.

Definition episodeLoopBodyCo (comingSoonEpisode : ComingSoonEpisode) : Co Ctl :=
  tryCatchCo (releaseEpisodeCo comingSoonEpisode)
             (fun error => lift (episodeCatch comingSoonEpisode error)).

(** What the [try] block does with [episodesToRelease]. *)
Definition episodesFound (episodesToRelease : list ComingSoonEpisode) : Co unit :=
  if Nat.eqb (length episodesToRelease) 0 then retCo tt
  else
    lift (console LOG (EpisodesFound (length episodesToRelease))) ;;
    forOfCo episodesToRelease episodeLoopBodyCo ;;
    rel <- lift (gets released) ;;
    lift (if Nat.ltb 0 (length rel)
          then console LOG (EpisodesReleasedCount (length rel)) else ret tt) ;;
    errs <- lift (gets errors) ;;
    lift (if Nat.ltb 0 (length errs)
          then console ERROR (EpisodesFailedCount (length errs)) else ret tt).

Definition releaseComingSoonEpisodesCo : Co unit :=
  lift enter ;;
  tryCatchCo
    (now <- lift newDate ;;
     episodesToRelease <- await (ComingSoonEpisode_findDue now) ;;
     episodesFound episodesToRelease)
    (fun error => lift (console ERROR (EpisodesJobError error))).

Definition releaseEpisodeOfSeriesCo (newSeries : Series) (episode : ComingSoonEpisode)
  : Co Ctl :=
  existingEpisode <- await (Episode_findOneBy (s_id newSeries) (ce_episode episode)) ;;
  match existingEpisode with
  | Some _ =>
      await (ComingSoonEpisode_markReleased (ce_id episode)) ;;
      await (ComingSoonEpisode_delete (ce_id episode)) ;;
      lift (console LOG (EpisodeAlreadyExists (ce_episode episode))) ;;
      retCo Next
  | None =>
      id <- lift newObjectId ;;
      let newEpisode := newEpisodeDoc id (s_id newSeries) episode in
      await (Episode_insert newEpisode) ;;
      await (ComingSoonEpisode_markReleased (ce_id episode)) ;;
      await (ComingSoonEpisode_delete (ce_id episode)) ;;
      lift (console LOG (SeriesEpisodeReleased (ce_episode episode) (s_title newSeries))) ;;
      retCo Next
  end.

Definition seriesEpisodeLoopBodyCo (newSeries : Series) (episode : ComingSoonEpisode)
  : Co Ctl :=
  tryCatchCo (releaseEpisodeOfSeriesCo newSeries episode)
             (fun episodeError => lift (seriesEpisodeCatch newSeries episode episodeError)).

Definition releaseSeriesCo (comingSoonSeries : ComingSoonSeries) : Co Ctl :=
  id <- lift newObjectId ;;
  let newSeries := newSeriesDoc id comingSoonSeries in
  await (Series_insert newSeries) ;;
  await (ComingSoonEpisode_relink (css_id comingSoonSeries) (s_id newSeries)) ;;
  logId <- lift newObjectId ;;
  transferredAt <- lift newDate ;;
  await (SeriesTransferLog_insert
           (mkSeriesTransferLog logId (css_id comingSoonSeries) (s_id newSeries)
                                (s_title newSeries)
                                (css_scheduledReleaseDate comingSoonSeries) transferredAt)) ;;
  await (ComingSoonSeries_markReleased (css_id comingSoonSeries)) ;;
  await (ComingSoonSeries_delete (css_id comingSoonSeries)) ;;
  lift (released_push (ReleasedSeries (s_id newSeries) (s_title newSeries))) ;;
  lift (console LOG (SeriesReleased (s_title newSeries) (s_id newSeries))) ;;
  episodesToRelease <-
    await (ComingSoonEpisode_findOfSeries (s_id newSeries) (css_id comingSoonSeries)) ;;
  if Nat.ltb 0 (length episodesToRelease) then
    lift (console LOG (SeriesEpisodesReleasing (length episodesToRelease)
                                               (s_title newSeries))) ;;
    forOfCo episodesToRelease (seriesEpisodeLoopBodyCo newSeries) ;;
    retCo Next
  else retCo Next.

Definition seriesLoopBodyCo (comingSoonSeries : ComingSoonSeries) : Co Ctl :=
  tryCatchCo (releaseSeriesCo comingSoonSeries)
             (fun error => lift (seriesCatch comingSoonSeries error)).

(** What the [try] block does with [seriesToRelease]. *)
Definition seriesFound (now : Z) (seriesToRelease : list ComingSoonSeries) : Co unit :=
  if Nat.eqb (length seriesToRelease) 0 then
    futureSeriesCount <- await (ComingSoonSeries_countFuture now) ;;
    if Nat.ltb 0 futureSeriesCount then
      nextSeries <- await (ComingSoonSeries_nextFuture now) ;;
      match nextSeries with
      | Some s =>
          lift (console LOG (NoSeriesReady (css_title s) (css_scheduledReleaseDate s)))
      | None => retCo tt
      end
    else retCo tt
  else
    lift (console LOG (SeriesFound (length seriesToRelease))) ;;
    forOfCo seriesToRelease seriesLoopBodyCo ;;
    rel <- lift (gets released) ;;
    lift (if Nat.ltb 0 (length rel)
          then console LOG (SeriesReleasedCount (length rel)) else ret tt) ;;
    errs <- lift (gets errors) ;;
    lift (if Nat.ltb 0 (length errs)
          then console ERROR (SeriesFailedCount (length errs)) else ret tt).

Definition releaseComingSoonSeriesCo : Co unit :=
  lift enter ;;
  tryCatchCo
    (now <- lift newDate ;;
     seriesToRelease <- await (ComingSoonSeries_findDue now) ;;
     seriesFound now seriesToRelease)
    (fun error => lift (console ERROR (SeriesJobError error))).

(** [async () => { await releaseComingSoonSeries(); await releaseComingSoonEpisodes(); }] *)
Definition cronTickCo : Co unit :=
  releaseComingSoonSeriesCo ;;
  releaseComingSoonEpisodesCo.

End Promoters.

(** ** Activations in flight *)

(** The world with the local arrays of a new activation. *)
Definition entered (w : World) : World := snd (enter w).

(** A pending activation: its local arrays and what it does when resumed. *)
Record Thread := mkThread {
  th_released : list Released;
  th_errors : list Failure;
  th_resume : World -> Step unit
}.

(** The world as the activation [t] sees it: with its own [released] and
    [errors]. *)
Definition switchTo (t : Thread) (w : World) : World :=
  with_released (fun _ => th_released t) (with_errors (fun _ => th_errors t) w).

(** Where a step leaves its activation: finished, or pending again.  The
    promise of the activation is not awaited by anyone, so its completion is
    dropped. *)
Definition settle (s : Step unit) : World * option Thread :=
  match s with
  | Finished _ w => (w, None)
  | Awaiting w resume => (w, Some (mkThread (released w) (errors w) resume))
  end.

(** A call [f()] of an async function that is not awaited: [f] runs up to
    its first [await]. *)
Definition spawn (f : Co unit) (w : World) : World * option Thread := settle (f w).

Definition resumeThread (t : Thread) (w : World) : World * option Thread :=
  settle (th_resume t (switchTo t w)).

(** The process of the job: the world, the callbacks registered with
    [cron.schedule], and the activations started so far ([None] once
    finished). *)
Record Job := mkJob {
  job_world : World;
  job_scheduled : list (Co unit);
  job_pending : list (option Thread)
}.

Fixpoint setNth {A} (i : nat) (x : A) (l : list A) : list A :=
  match i, l with
  | _, [] => []
  | O, _ :: l' => x :: l'
  | S i', y :: l' => y :: setNth i' x l'
  end.

(** The activation number [i] is resumed once (nothing happens if it has
    finished). *)
Definition advance (i : nat) (j : Job) : Job :=
  match nth i (job_pending j) None with
  | None => j
  | Some t =>
      let (w', t') := resumeThread t (job_world j) in
      mkJob w' (job_scheduled j) (setNth i t' (job_pending j))
  end.

Definition runSchedule (schedule : list nat) (j : Job) : Job :=
  fold_left (fun j i => advance i j) schedule j.

(** node-cron invokes the callback number [k]: one more activation. *)
Definition fire (k : nat) (j : Job) : Job :=
  match nth_error (job_scheduled j) k with
  | None => j
  | Some callback =>
      let (w', t) := spawn callback (job_world j) in
      mkJob w' (job_scheduled j) (job_pending j ++ [t])
  end.

(** [startCronJob()], up to its return: the line that it starts, the
    callback handed to [cron.schedule('* * * * *', ...)], the two calls
    [releaseComingSoonSeries(); releaseComingSoonEpisodes();] that are not
    awaited, and the line that it has started. *)
Definition startCronJob (w : World) : Job :=
  let w0 := emit (Console LOG SchedulerStarting) w in
  let scheduled := [cronTickCo] in
  let (w1, series) := spawn releaseComingSoonSeriesCo w0 in
  let (w2, episodes) := spawn releaseComingSoonEpisodesCo w1 in
  mkJob (emit (Console LOG SchedulerStarted) w2) scheduled [series; episodes].

Module Race.

(** Series "X" and its episode 1 are both due. *)
Definition episode1 : ComingSoonEpisode := Sample.anEpisode 2 None (Some 1%nat) 1 900.
Definition start : World :=
  Sample.world [Sample.aSeries 1 "X" 999 StPending] [episode1] [] [] [] [].

(** The Episode Promoter gets its due episodes, then the Series Promoter
    runs to its end, then the Episode Promoter goes on. *)
Definition schedule : list nat := [1%nat] ++ repeat 0%nat 11 ++ repeat 1%nat 5.

End Race.



(** ** Evaluating the monad *)

Ltac unfold_js :=
  cbv beta iota zeta delta
    [ seriesCatch seriesEpisodeCatch episodeCatch enter released_push errors_push
      ComingSoonEpisode_findOfSeries ComingSoonSeries_delete ComingSoonSeries_markReleased
      SeriesTransferLog_insert ComingSoonEpisode_relink Series_insert
      ComingSoonSeries_nextFuture ComingSoonSeries_countFuture ComingSoonSeries_findDue
      Episode_insert Episode_findOneBy ComingSoonEpisode_delete ComingSoonEpisode_markReleased
      ComingSoonEpisode_updateSeriesId SeriesTransferLog_findOneBy ComingSoonEpisode_findDue
      newObjectId newDate console command query call refuse modify gets tryCatch bind ret
      with_ComingSoonSeries with_ComingSoonEpisode with_Series with_Episode
      with_SeriesTransferLog with_nextObjectId with_faults emit with_released with_errors
      db_ComingSoonSeries db_ComingSoonEpisode db_Series db_Episode db_SeriesTransferLog
      nextObjectId clock faults trace released errors transferLogFor ].

Ltac split_fault :=
  match goal with
  | |- context [match hd None ?fs with _ => _ end] =>
      let E := fresh "Hfault" in destruct (hd None fs) eqn:E
  end.

Ltac split_valid :=
  match goal with
  | |- context [if Episode_validate ?doc then _ else _] =>
      let E := fresh "Hvalid" in destruct (Episode_validate doc) eqn:E
  end.

Ltac split_find :=
  match goal with
  | |- context [match find ?p ?l with _ => _ end] =>
      let E := fresh "Hfind" in destruct (find p l) eqn:E
  end.

(** ** Structural rules for [keeps] *)

Section KeepsRules.
Context (R : World -> World -> Prop) {FR : Frame R}.

Lemma keeps_ret {A} (a : A) : keeps R (ret a).
Proof. intros w c w' H. inversion H; subst. apply frame_refl. Qed.

Lemma keeps_gets {A} (f : World -> A) : keeps R (gets f).
Proof. intros w c w' H. inversion H; subst. apply frame_refl. Qed.

Lemma keeps_modify (f : World -> World) :
  (forall w, R w (f w)) -> keeps R (modify f).
Proof. intros Hf w c w' H. inversion H; subst. apply Hf. Qed.

Lemma keeps_bind {A B} (m : M A) (k : A -> M B) :
  keeps R m -> (forall a, keeps R (k a)) -> keeps R (bind m k).
Proof.
  intros Hm Hk w c w' H. unfold bind in H.
  destruct (m w) as [[a|e] w1] eqn:E.
  - eapply frame_trans; [eapply Hm; eauto | eapply Hk; eauto].
  - inversion H; subst. eapply Hm; eauto.
Qed.

Lemma keeps_tryCatch {A} (m : M A) (h : JsError -> M A) :
  keeps R m -> (forall e, keeps R (h e)) -> keeps R (tryCatch m h).
Proof.
  intros Hm Hh w c w' H. unfold tryCatch in H.
  destruct (m w) as [[a|e] w1] eqn:E.
  - inversion H; subst. eapply Hm; eauto.
  - eapply frame_trans; [eapply Hm; eauto | eapply Hh; eauto].
Qed.

Lemma keeps_call (c : StoreCall) : keeps R (call c).
Proof.
  intros w r w' H. unfold call in H.
  assert (R w (with_faults (tl (faults w)) (emit (Call c) w))) as HR
    by (eapply frame_trans; [apply frame_emit | apply frame_faults]).
  destruct (hd None (faults w)); inversion H; subst; exact HR.
Qed.

Lemma keeps_refuse {A} (c : StoreCall) (e : JsError) : keeps R (@refuse A c e).
Proof. intros w r w' H. inversion H; subst. apply frame_emit. Qed.

Lemma keeps_query {A} (c : StoreCall) (f : World -> A) : keeps R (query c f).
Proof. apply keeps_bind; [apply keeps_call | intros; apply keeps_gets]. Qed.

Lemma keeps_command (c : StoreCall) (f : World -> World) :
  (forall w, R w (f w)) -> keeps R (command c f).
Proof. intros. apply keeps_bind; [apply keeps_call | intros; now apply keeps_modify]. Qed.

Lemma keeps_console lvl line : keeps R (console lvl line).
Proof. apply keeps_modify. intros. apply frame_emit. Qed.

Lemma keeps_newObjectId :
  (forall w, R w (with_nextObjectId (S (nextObjectId w)) w)) -> keeps R newObjectId.
Proof. intros Hf w c w' H. inversion H; subst. apply Hf. Qed.

Lemma keeps_forOf {A} (xs : list A) (body : A -> M Ctl) :
  (forall x, In x xs -> keeps R (body x)) -> keeps R (forOf xs body).
Proof.
  induction xs as [|x xs IH]; intros Hb; simpl.
  - apply keeps_ret.
  - apply keeps_bind; [apply Hb; now left|].
    intros [|]; [apply IH; intros; apply Hb; now right | apply keeps_ret].
Qed.
End KeepsRules.

(** Decompose a [keeps] goal along the structure of the program; what is left
    are the effects of the primitive updates. *)
Ltac keeps_step :=
  lazymatch goal with
  | |- keeps ?R (ret _) => apply (@keeps_ret R _)
  | |- keeps ?R (gets _) => apply (@keeps_gets R _)
  | |- keeps ?R (call _) => apply (@keeps_call R _)
  | |- keeps ?R (refuse _ _) => apply (@keeps_refuse R _)
  | |- keeps ?R (query _ _) => apply (@keeps_query R _)
  | |- keeps ?R (console _ _) => apply (@keeps_console R _)
  | |- keeps ?R (command _ _) => apply (@keeps_command R _)
  | |- keeps ?R newObjectId => apply (@keeps_newObjectId R)
  | |- keeps ?R (modify _) => apply (@keeps_modify R)
  | |- keeps ?R (bind _ _) => apply (@keeps_bind R _); [ | intro ]
  | |- keeps ?R (tryCatch _ _) => apply (@keeps_tryCatch R _); [ | intro ]
  | |- keeps ?R (forOf _ _) => apply (@keeps_forOf R _); intros ? ?
  | |- keeps _ (match ?x with _ => _ end) => destruct x
  | |- keeps _ (let _ := _ in _) => cbv zeta
  | |- keeps _ ?m =>
      let h := (match m with ?f _ _ _ => f | ?f _ _ => f | ?f _ => f | ?f => f end) in
      unfold h
  end.

Ltac keeps_auto := repeat keeps_step.


(** ** Every rejected store call is reported *)

Lemma Reported_refl w : Reported 0 w w.
Proof. exists [], []. cbn. rewrite app_nil_r. auto. Qed.

Lemma Reported_trans i j a b c :
  Reported i a b -> Reported j b c -> Reported (i + j) a c.
Proof.
  intros (u1 & t1 & F1 & T1 & N1) (u2 & t2 & F2 & T2 & N2).
  exists (u1 ++ u2), (t1 ++ t2). repeat split.
  - rewrite F1, F2. now rewrite app_assoc.
  - rewrite T2, T1. now rewrite app_assoc.
  - rewrite !filter_app, !length_app. lia.
Qed.

Lemma Reported_quiet (f : World -> World) w :
  faults (f w) = faults w -> trace (f w) = trace w -> Reported 0 w (f w).
Proof.
  intros F T. exists [], []. cbn. rewrite F, T, app_nil_r. auto.
Qed.

Lemma accounts_ret {A} (a : A) : accounts (ret a).
Proof. intros w. apply Reported_refl. Qed.

Lemma accounts_gets {A} (f : World -> A) : accounts (gets f).
Proof. intros w. apply Reported_refl. Qed.

Lemma accounts_modify (f : World -> World) :
  (forall w, faults (f w) = faults w /\ trace (f w) = trace w) -> accounts (modify f).
Proof. intros H w. simpl. destruct (H w). now apply Reported_quiet. Qed.

Lemma accounts_call c : isRefusal (Call c) = false -> accounts (call c).
Proof.
  intros Hc [cs ce s e tl n clk fs tr rel errs]. unfold call; cbn -[isRefusal].
  destruct fs as [|[err|] fs]; cbn -[isRefusal].
  - exists [], [Call c]. cbn -[isRefusal]. rewrite Hc. auto.
  - exists [Some err], [Call c]. cbn -[isRefusal]. rewrite Hc. auto.
  - exists [None], [Call c]. cbn -[isRefusal]. rewrite Hc. auto.
Qed.

Lemma accounts_refuse {A} c e : isRefusal (Call c) = true -> accounts (@refuse A c e).
Proof.
  intros Hc [cs ce s ep tl n clk fs tr rel errs]. unfold refuse; cbn -[isRefusal].
  exists [], [Call c]. cbn -[isRefusal]. rewrite Hc. auto.
Qed.

Lemma accounts_console lvl line :
  isErrorReport (Console lvl line) = false -> accounts (console lvl line).
Proof.
  intros H [cs ce s e tl n clk fs tr rel errs]. unfold console, modify, emit; simpl.
  exists [], [Console lvl line].
  split; [reflexivity|]. split; [reflexivity|].
  cbn -[isErrorReport]. rewrite H. reflexivity.
Qed.

Lemma accounts_bind {A B} (m : M A) (k : A -> M B) :
  accounts m -> (forall a, accounts (k a)) -> accounts (bind m k).
Proof.
  intros Hm Hk w. unfold bind. specialize (Hm w).
  destruct (m w) as [[a|e] w1]; [|exact Hm].
  specialize (Hk a w1). destruct (k a w1) as [[b|e] w2].
  - exact (Reported_trans 0 0 _ _ _ Hm Hk).
  - exact (Reported_trans 0 1 _ _ _ Hm Hk).
Qed.

Lemma accounts_tryCatch {A} (m : M A) (h : JsError -> M A) :
  accounts m -> (forall e, settles (h e)) -> accounts (tryCatch m h).
Proof.
  intros Hm Hh w. unfold tryCatch. specialize (Hm w).
  destruct (m w) as [[a|e] w1]; [exact Hm|].
  exact (Hh e w w1 Hm).
Qed.

Lemma accounts_forOf {A} (xs : list A) (body : A -> M Ctl) :
  (forall x, accounts (body x)) -> accounts (forOf xs body).
Proof.
  intros Hb. induction xs as [|x xs IH]; simpl.
  - apply accounts_ret.
  - apply accounts_bind; [apply Hb|]. intros [|]; [apply IH | apply accounts_ret].
Qed.

(** A handler that writes its report first and then goes on quietly. *)
Lemma settles_report {A} line (m : M A) :
  isErrorReport (Console ERROR line) = true -> accounts m ->
  settles (console ERROR line ;; m).
Proof.
  intros Hl Hm w0 w (u & t & F & T & N).
  unfold bind, console, modify.
  assert (Reported 0 w0 (emit (Console ERROR line) w)) as H0.
  { exists u, (t ++ [Console ERROR line]).
    destruct w as [cs ce s e tl n clk fs tr rel errs];
      unfold emit; cbn [faults trace] in *. repeat split; auto.
    - rewrite T. now rewrite app_assoc.
    - rewrite !filter_app, !length_app. cbn -[isErrorReport]. rewrite Hl. cbn. lia. }
  specialize (Hm (emit (Console ERROR line) w)).
  destruct (m (emit (Console ERROR line) w)) as [[a|e] w'].
  - exact (Reported_trans 0 0 _ _ _ H0 Hm).
  - exact (Reported_trans 0 1 _ _ _ H0 Hm).
Qed.

Lemma settles_quiet_then {A} (f : World -> World) (h : M A) :
  (forall w, faults (f w) = faults w /\ trace (f w) = trace w) ->
  settles h -> settles (modify f ;; h).
Proof.
  intros Hf Hh w0 w H1. unfold bind, modify.
  apply Hh. destruct (Hf w) as [F T].
  replace 1%nat with (1 + 0)%nat by lia.
  eapply Reported_trans; [exact H1 | now apply Reported_quiet].
Qed.

Lemma settles_report_only line :
  isErrorReport (Console ERROR line) = true -> settles (console ERROR line).
Proof.
  intros Hl w0 w H1.
  pose proof (settles_report line (ret tt) Hl (accounts_ret tt) w0 w H1) as H.
  exact H.
Qed.

Lemma accounts_newObjectId : accounts newObjectId.
Proof.
  intros w. unfold newObjectId.
  apply (Reported_quiet (fun w => with_nextObjectId (S (nextObjectId w)) w));
    destruct w; reflexivity.
Qed.

(** [save()] either reaches the store or is refused. *)
Lemma accounts_Episode_insert doc : accounts (Episode_insert doc).
Proof.
  unfold Episode_insert. destruct (Episode_validate doc) eqn:Hv.
  - unfold command. apply accounts_bind.
    + apply accounts_call. cbn. now rewrite Hv.
    + intro. apply accounts_modify. intros []; split; reflexivity.
  - apply accounts_refuse. cbn. now rewrite Hv.
Qed.

Ltac accounts_step :=
  lazymatch goal with
  | |- accounts (ret _) => apply accounts_ret
  | |- accounts (gets _) => apply accounts_gets
  | |- accounts (Episode_insert _) => apply accounts_Episode_insert
  | |- accounts (call _) => apply accounts_call; reflexivity
  | |- accounts (console _ _) => apply accounts_console; reflexivity
  | |- accounts newObjectId => apply accounts_newObjectId
  | |- accounts (modify _) => apply accounts_modify; intros []; split; reflexivity
  | |- accounts (bind _ _) => apply accounts_bind; [ | intro ]
  | |- accounts (tryCatch _ _) => apply accounts_tryCatch; [ | intro ]
  | |- accounts (forOf _ _) => apply accounts_forOf; intro
  | |- accounts (match ?x with _ => _ end) => destruct x
  | |- accounts (let _ := _ in _) => cbv zeta
  | |- settles (console ERROR _ ;; _) => apply settles_report; [reflexivity | ]
  | |- settles (console ERROR _) => apply settles_report_only; reflexivity
  | |- settles (errors_push _ ;; _) => unfold errors_push
  | |- settles (modify _ ;; _) =>
      apply settles_quiet_then; [intros []; split; reflexivity | ]
  | |- settles (match ?x with _ => _ end) => destruct x
  | |- settles ?m =>
      let h := (match m with ?f _ _ _ => f | ?f _ _ => f | ?f _ => f | ?f => f end) in
      unfold h
  | |- accounts ?m =>
      let h := (match m with ?f _ _ _ => f | ?f _ _ => f | ?f _ => f | ?f => f end) in
      unfold h
  end.

Lemma releaseComingSoonSeries_accounts : accounts releaseComingSoonSeries.
Proof. repeat accounts_step. Qed.

Lemma releaseComingSoonEpisodes_accounts : accounts releaseComingSoonEpisodes.
Proof. repeat accounts_step. Qed.

Lemma releaseComingSoonSeries_normal w :
  exists w', releaseComingSoonSeries w = (Normal tt, w').
Proof.
  unfold releaseComingSoonSeries, bind at 1, enter, modify, tryCatch.
  match goal with |- context [match ?m ?x with _ => _ end] => destruct (m x) as [[[]|e] w1] end.
  - eauto.
  - unfold console, modify. eauto.
Qed.

Lemma releaseComingSoonEpisodes_normal w :
  exists w', releaseComingSoonEpisodes w = (Normal tt, w').
Proof.
  unfold releaseComingSoonEpisodes, bind at 1, enter, modify, tryCatch.
  match goal with |- context [match ?m ?x with _ => _ end] => destruct (m x) as [[[]|e] w1] end.
  - eauto.
  - unfold console, modify. eauto.
Qed.

(** C9.  Whatever the store contains and whichever store calls the script
    rejects, [releaseComingSoonSeries] and [releaseComingSoonEpisodes]
    complete normally (nothing is thrown to the caller), and every rejected
    call has been reported by one error line on the console. *)
Theorem promoters_never_throw (w : World) :
  (exists w', releaseComingSoonSeries w = (Normal tt, w') /\ Reported 0 w w') /\
  (exists w', releaseComingSoonEpisodes w = (Normal tt, w') /\ Reported 0 w w').
Proof.
  split.
  - destruct (releaseComingSoonSeries_normal w) as [w' H].
    exists w'. split; [exact H|].
    pose proof (releaseComingSoonSeries_accounts w) as A. now rewrite H in A.
  - destruct (releaseComingSoonEpisodes_normal w) as [w' H].
    exists w'. split; [exact H|].
    pose proof (releaseComingSoonEpisodes_accounts w) as A. now rewrite H in A.
Qed.

(** ** Observations that a computation leaves unchanged *)


Lemma unchanged_frame {X} (f : World -> X) :
  (forall w ev, f (emit ev w) = f w) ->
  (forall w fs, f (with_faults fs w) = f w) ->
  Frame (unchanged f).
Proof.
  intros He Hf. split; unfold unchanged; intros; try congruence.
Qed.

#[export] Hint Extern 1 (Frame (unchanged _)) =>
  apply unchanged_frame; intros [? ? ? ? ? ? ? ? ? ? ?] ?; reflexivity : typeclass_instances.

Ltac world_eq := intros [? ? ? ? ? ? ? ? ? ? ?]; reflexivity.

Lemma nth_tl {X} (k : nat) (l : list X) (d : X) : nth (S k) l d = nth k (tl l) d.
Proof. destruct l; simpl; [destruct k|]; reflexivity. Qed.

Lemma nth_hd {X} (l : list X) (d : X) : nth 0 l d = hd d l.
Proof. destruct l; reflexivity. Qed.

(** ** The release-with-parent pass of the Series Promoter *)

Lemma seriesEpisodeLoopBody_next newSeries episode w :
  exists w', seriesEpisodeLoopBody newSeries episode w = (Normal Next, w').
Proof.
  destruct w as [cs ce sr ep lg n clk fs tr rel errs].
  unfold seriesEpisodeLoopBody, releaseEpisodeOfSeries. unfold_js.
  repeat first [split_fault | split_find | split_valid]; eauto.
Qed.

Lemma seriesEpisodeLoop_next newSeries eps w :
  exists w', forOf eps (seriesEpisodeLoopBody newSeries) w = (Normal Next, w').
Proof.
  revert w. induction eps as [|ep eps IH]; intros w; simpl.
  - unfold ret; eauto.
  - unfold bind at 1.
    destruct (seriesEpisodeLoopBody_next newSeries ep w) as [w1 ->]. apply IH.
Qed.

Lemma seriesEpisodeLoop_errors newSeries eps :
  keeps (unchanged errors) (forOf eps (seriesEpisodeLoopBody newSeries)).
Proof. keeps_auto; world_eq. Qed.

Lemma seriesEpisodeLoop_released newSeries eps :
  keeps (unchanged released) (forOf eps (seriesEpisodeLoopBody newSeries)).
Proof. keeps_auto; world_eq. Qed.

(** Six series-level store calls precede the episodes of a series. *)
Lemma seriesLoopBody_past_series_calls comingSoonSeries w :
  (forall i, (i < 6)%nat -> nth i (faults w) None = None) ->
  exists w', seriesLoopBody comingSoonSeries w = (Normal Next, w') /\
             errors w' = errors w.
Proof.
  intros H.
  pose proof (H 0%nat ltac:(lia)) as H0. pose proof (H 1%nat ltac:(lia)) as H1.
  pose proof (H 2%nat ltac:(lia)) as H2. pose proof (H 3%nat ltac:(lia)) as H3.
  pose proof (H 4%nat ltac:(lia)) as H4. pose proof (H 5%nat ltac:(lia)) as H5.
  rewrite ?nth_tl, nth_hd in *.
  destruct w as [cs ce sr ep lg n clk fs tr rel errs]. cbn [faults] in *.
  unfold seriesLoopBody, releaseSeries. unfold_js.
  rewrite H0, H1, H2, H3, H4, H5.
  match goal with |- context [if ?b then _ else _] => destruct b end.
  - match goal with |- context [forOf ?l ?b ?x] =>
      pose proof (seriesEpisodeLoop_errors (newSeriesDoc n comingSoonSeries) l x) as He;
      destruct (seriesEpisodeLoop_next (newSeriesDoc n comingSoonSeries) l x) as [w' Hw']
    end.
    rewrite Hw'. eexists; split; [reflexivity|].
    specialize (He _ _ Hw'). exact He.
  - eexists; split; reflexivity.
Qed.

(** C10.  In the pass that releases the episodes of a just-released series,
    an error thrown while releasing one episode -- whatever its code, ENOSPC
    included -- is caught by the per-episode handler, which writes one console
    line and nothing else: the iteration ends normally, [errors] is as before,
    the loop goes on with the remaining episodes and always ends without a
    break or a throw; so a series whose own six store calls succeed ends its
    iteration of the outer loop normally, with nothing added to [errors]. *)
Theorem series_episode_errors_only_logged
    (newSeries : Series) (episode : ComingSoonEpisode) (rest : list ComingSoonEpisode)
    (w w1 : World) (episodeError : JsError) :
  releaseEpisodeOfSeries newSeries episode w = (Throw episodeError, w1) ->
  let w2 := emit (Console ERROR (SeriesEpisodeError (ce_id episode) (s_title newSeries)
                                                   (message episodeError))) w1 in
  seriesEpisodeLoopBody newSeries episode w = (Normal Next, w2) /\
  errors w2 = errors w /\
  released w2 = released w /\
  forOf (episode :: rest) (seriesEpisodeLoopBody newSeries) w
    = forOf rest (seriesEpisodeLoopBody newSeries) w2 /\
  (exists w', forOf (episode :: rest) (seriesEpisodeLoopBody newSeries) w = (Normal Next, w')
              /\ errors w' = errors w) /\
  (forall comingSoonSeries w0,
      (forall i, (i < 6)%nat -> nth i (faults w0) None = None) ->
      exists w', seriesLoopBody comingSoonSeries w0 = (Normal Next, w') /\
                 errors w' = errors w0).
Proof.
  intros Hthrow w2.
  assert (seriesEpisodeLoopBody newSeries episode w = (Normal Next, w2)) as Hbody.
  { unfold seriesEpisodeLoopBody, tryCatch. rewrite Hthrow. reflexivity. }
  assert (errors w2 = errors w /\ released w2 = released w) as [He Hr].
  { split.
    - apply (seriesEpisodeLoop_errors newSeries [episode] w (Normal Next) w2).
      simpl. unfold bind at 1. rewrite Hbody. reflexivity.
    - apply (seriesEpisodeLoop_released newSeries [episode] w (Normal Next) w2).
      simpl. unfold bind at 1. rewrite Hbody. reflexivity. }
  repeat split; auto.
  - simpl. unfold bind at 1. rewrite Hbody. reflexivity.
  - destruct (seriesEpisodeLoop_next newSeries (episode :: rest) w) as [w' Hw'].
    exists w'. split; [exact Hw'|].
    exact (seriesEpisodeLoop_errors newSeries _ _ _ _ Hw').
  - intros cs w0. apply seriesLoopBody_past_series_calls.
Qed.

Lemma series_episode_errors_only_logged_witness :
  let w1 := snd (releaseEpisodeOfSeries Sample.liveX Sample.episode1 Sample.wSaveFull) in
  releaseEpisodeOfSeries Sample.liveX Sample.episode1 Sample.wSaveFull
    = (Throw Sample.ENOSPC, w1) /\
  seriesEpisodeLoopBody Sample.liveX Sample.episode1 Sample.wSaveFull
    = (Normal Next,
       emit (Console ERROR (SeriesEpisodeError 2 "X" "no space left on device")) w1).
Proof.
  intros w1.
  assert (releaseEpisodeOfSeries Sample.liveX Sample.episode1 Sample.wSaveFull
          = (Throw Sample.ENOSPC, w1)) as H by reflexivity.
  split; [exact H|].
  exact (proj1 (series_episode_errors_only_logged
                  Sample.liveX Sample.episode1 [] Sample.wSaveFull w1 Sample.ENOSPC H)).
Defined.


(** ** Loops *)

Lemma forOf_app {A} (pre rest : list A) (body : A -> M Ctl) w w1 :
  forOf pre body w = (Normal Next, w1) ->
  forOf (pre ++ rest) body w = forOf rest body w1.
Proof.
  revert w. induction pre as [|x pre IH]; intros w H; simpl in *.
  - unfold ret in H. now inversion H.
  - unfold bind in *. destruct (body x w) as [[[|]|e] w0]; try discriminate.
    now apply IH.
Qed.

Lemma forOf_break {A} (x : A) (rest : list A) (body : A -> M Ctl) w w' :
  body x w = (Normal Break, w') -> forOf (x :: rest) body w = (Normal Break, w').
Proof. intros H. simpl. unfold bind. now rewrite H. Qed.

Lemma forOf_next {A} (x : A) (rest : list A) (body : A -> M Ctl) w w' :
  body x w = (Normal Next, w') -> forOf (x :: rest) body w = forOf rest body w'.
Proof. intros H. simpl. unfold bind. now rewrite H. Qed.

(** ** Growth and frames *)

Lemma grows_frame {X} (f : World -> list X) :
  (forall w ev, f (emit ev w) = f w) ->
  (forall w fs, f (with_faults fs w) = f w) ->
  Frame (grows f).
Proof.
  intros He Hf. split; unfold grows; intros.
  - exists []. now rewrite app_nil_r.
  - destruct H as [l1 H1], H0 as [l2 H2]. exists (l1 ++ l2).
    now rewrite H2, H1, app_assoc.
  - exists []. now rewrite He, app_nil_r.
  - exists []. now rewrite Hf, app_nil_r.
Qed.

#[export] Hint Extern 1 (Frame (grows _)) =>
  apply grows_frame; intros [? ? ? ? ? ? ? ? ? ? ?] ?; reflexivity : typeclass_instances.

Ltac grows_eq :=
  intros [? ? ? ? ? ? ? ? ? ? ?]; unfold grows; cbn;
  first [ exists []; now rewrite app_nil_r | eexists; reflexivity ].

Lemma deleteWhere_updateWhere {A} (p : A -> bool) (f : A -> A) (l : list A) :
  (forall x, p (f x) = p x) ->
  deleteWhere p (updateWhere p f l) = deleteWhere p l.
Proof.
  intros Hp. unfold deleteWhere, updateWhere.
  induction l as [|x l IH]; simpl; [reflexivity|].
  destruct (p x) eqn:E.
  - rewrite Hp, E. simpl. exact IH.
  - rewrite E. simpl. now rewrite IH.
Qed.

Lemma deleteWhere_idem {A} (p : A -> bool) (l : list A) :
  deleteWhere p (deleteWhere p l) = deleteWhere p l.
Proof.
  unfold deleteWhere. induction l as [|x l IH]; simpl; [reflexivity|].
  destruct (p x) eqn:E; simpl; [exact IH | rewrite E; simpl; now rewrite IH].
Qed.

Lemma In_deleteWhere {A} (p : A -> bool) (l : list A) (x : A) :
  In x (deleteWhere p l) <-> In x l /\ p x = false.
Proof.
  unfold deleteWhere. rewrite filter_In. now rewrite negb_true_iff.
Qed.

(** ** What a series iteration can touch, whatever the script *)

Lemma releaseSeries_otherSeries comingSoonSeries :
  keeps (unchanged (otherSeries (css_id comingSoonSeries))) (releaseSeries comingSoonSeries).
Proof.
  keeps_auto; try world_eq.
  - intros [? ? ? ? ? ? ? ? ? ? ?]. unfold unchanged, otherSeries; cbn.
    now apply deleteWhere_updateWhere.
  - intros [? ? ? ? ? ? ? ? ? ? ?]. unfold unchanged, otherSeries; cbn.
    apply deleteWhere_idem.
Qed.

Lemma releaseSeries_grows_Series comingSoonSeries :
  keeps (grows db_Series) (releaseSeries comingSoonSeries).
Proof. keeps_auto; grows_eq. Qed.

Lemma releaseSeries_grows_Episode comingSoonSeries :
  keeps (grows db_Episode) (releaseSeries comingSoonSeries).
Proof. keeps_auto; grows_eq. Qed.

Lemma releaseSeries_grows_Log comingSoonSeries :
  keeps (grows db_SeriesTransferLog) (releaseSeries comingSoonSeries).
Proof. keeps_auto; grows_eq. Qed.

Lemma releaseEpisode_otherEpisodes comingSoonEpisode :
  keeps (unchanged (otherEpisodes (ce_id comingSoonEpisode))) (releaseEpisode comingSoonEpisode).
Proof.
  keeps_auto; try world_eq.
  all: intros [? ? ? ? ? ? ? ? ? ? ?]; unfold unchanged, otherEpisodes; cbn;
    first [ now apply deleteWhere_updateWhere | apply deleteWhere_idem ].
Qed.

Lemma releaseEpisode_grows_Episode comingSoonEpisode :
  keeps (grows db_Episode) (releaseEpisode comingSoonEpisode).
Proof. keeps_auto; grows_eq. Qed.

Lemma releaseEpisode_same_Series comingSoonEpisode :
  keeps (unchanged db_Series) (releaseEpisode comingSoonEpisode).
Proof. keeps_auto; world_eq. Qed.

Lemma releaseEpisode_same_ComingSoonSeries comingSoonEpisode :
  keeps (unchanged db_ComingSoonSeries) (releaseEpisode comingSoonEpisode).
Proof. keeps_auto; world_eq. Qed.

(** ** Where a rejected call leaves the record being promoted *)

(** The iteration of a series throws at a store call, the last event of the
    trace, and what it wrote before that call stays written. *)
Lemma releaseSeries_throw_stage comingSoonSeries w e w2 :
  releaseSeries comingSoonSeries w = (Throw e, w2) ->
  exists t c,
    trace w2 = t ++ [Call c] /\
    db_ComingSoonSeries w2
      = match c with
        | ComingSoonSeries_findByIdAndDelete _ =>
            updateWhere (fun s => Nat.eqb (css_id s) (css_id comingSoonSeries))
                        (setSeriesStatus StReleased) (db_ComingSoonSeries w)
        | ComingSoonEpisode_find_ofSeries _ _ =>
            deleteWhere (fun s => Nat.eqb (css_id s) (css_id comingSoonSeries))
                        (db_ComingSoonSeries w)
        | _ => db_ComingSoonSeries w
        end /\
    db_ComingSoonEpisode w2
      = match c with
        | Series_save _ | ComingSoonEpisode_updateMany _ _ => db_ComingSoonEpisode w
        | _ => updateWhere (fun x => idIs (css_id comingSoonSeries) (ce_comingSoonSeriesId x))
                           (setSeriesId (nextObjectId w)) (db_ComingSoonEpisode w)
        end /\
    db_Series w2
      = match c with
        | Series_save _ => db_Series w
        | _ => db_Series w ++ [newSeriesDoc (nextObjectId w) comingSoonSeries]
        end /\
    db_SeriesTransferLog w2
      = match c with
        | Series_save _ | ComingSoonEpisode_updateMany _ _ | SeriesTransferLog_create _ =>
            db_SeriesTransferLog w
        | _ => db_SeriesTransferLog w
               ++ [transferLogDoc (nextObjectId w) comingSoonSeries (clock w)]
        end /\
    db_Episode w2 = db_Episode w.
Proof.
  destruct w as [cs ce sr ep lg n clk fs tr rel errs].
  unfold releaseSeries. unfold_js.
  repeat split_fault;
    try (intros H; inversion H; subst; cbn; eexists; eexists;
         (split; [reflexivity|]); cbn;
         repeat (split; [first [ reflexivity | now apply deleteWhere_updateWhere ]|]);
         reflexivity; fail).
  match goal with |- context [if ?b then _ else _] => destruct b end.
  - match goal with |- context [forOf ?l ?b ?x] =>
      destruct (seriesEpisodeLoop_next (newSeriesDoc n comingSoonSeries) l x) as [w' Hw']
    end.
    rewrite Hw'. discriminate.
  - discriminate.
Qed.

(** The same for the iteration of an episode. *)
Lemma releaseEpisode_throw_stage comingSoonEpisode w e w2 :
  releaseEpisode comingSoonEpisode w = (Throw e, w2) ->
  exists t c,
    trace w2 = t ++ [Call c] /\
    db_ComingSoonEpisode w2
      = match c with
        | SeriesTransferLog_findOne _ | ComingSoonEpisode_setSeriesId _ _ =>
            db_ComingSoonEpisode w
        | ComingSoonEpisode_findByIdAndDelete _ =>
            updateWhere (fun x => Nat.eqb (ce_id x) (ce_id comingSoonEpisode))
                        (setEpisodeStatus StReleased) (afterResolution w comingSoonEpisode)
        | _ => afterResolution w comingSoonEpisode
        end.
Proof.
  destruct w as [cs ce sr ep lg n clk fs tr rel errs].
  unfold afterResolution, finalSeriesIdOf, transferLogFor.
  cbn [db_SeriesTransferLog db_ComingSoonEpisode].
  unfold releaseEpisode. unfold_js.
  destruct (ce_seriesId comingSoonEpisode), (ce_comingSoonSeriesId comingSoonEpisode);
    repeat first [split_fault | split_find | split_valid];
    intros H; inversion H; subst; cbn; eexists; eexists;
    (split; [reflexivity|]); reflexivity.
Qed.

Lemma handlerRule_series pre comingSoonSeries rest w w1 w2 error :
  forOf pre seriesLoopBody w = (Normal Next, w1) ->
  releaseSeries comingSoonSeries w1 = (Throw error, w2) ->
  handlerRule seriesLoopBody css_id SeriesDiskFull SeriesError
              pre comingSoonSeries rest w w2 error.
Proof.
  intros Hpre Hthrow. split; intros Hcode; rewrite (forOf_app _ _ _ _ _ Hpre).
  - apply forOf_break. unfold seriesLoopBody, tryCatch. rewrite Hthrow.
    unfold seriesCatch. rewrite Hcode. reflexivity.
  - apply forOf_next. unfold seriesLoopBody, tryCatch. rewrite Hthrow.
    unfold seriesCatch. rewrite Hcode. reflexivity.
Qed.

Lemma handlerRule_episode pre comingSoonEpisode rest w w1 w2 error :
  forOf pre episodeLoopBody w = (Normal Next, w1) ->
  releaseEpisode comingSoonEpisode w1 = (Throw error, w2) ->
  handlerRule episodeLoopBody ce_id EpisodeDiskFull EpisodeError
              pre comingSoonEpisode rest w w2 error.
Proof.
  intros Hpre Hthrow. split; intros Hcode; rewrite (forOf_app _ _ _ _ _ Hpre).
  - apply forOf_break. unfold episodeLoopBody, tryCatch. rewrite Hthrow.
    unfold episodeCatch. rewrite Hcode. reflexivity.
  - apply forOf_next. unfold episodeLoopBody, tryCatch. rewrite Hthrow.
    unfold episodeCatch. rewrite Hcode. reflexivity.
Qed.






(** ** The loops never throw *)

Lemma seriesLoopBody_normal comingSoonSeries w :
  exists c w', seriesLoopBody comingSoonSeries w = (Normal c, w').
Proof.
  unfold seriesLoopBody, tryCatch.
  destruct (releaseSeries comingSoonSeries w) as [[c|e] w1]; [eauto|].
  unfold seriesCatch. destruct (isENOSPC e); unfold_js; eauto.
Qed.

Lemma episodeLoopBody_normal comingSoonEpisode w :
  exists c w', episodeLoopBody comingSoonEpisode w = (Normal c, w').
Proof.
  unfold episodeLoopBody, tryCatch.
  destruct (releaseEpisode comingSoonEpisode w) as [[c|e] w1]; [eauto|].
  unfold episodeCatch. destruct (isENOSPC e); unfold_js; eauto.
Qed.

Lemma forOf_normal {A} (body : A -> M Ctl) :
  (forall x w, exists c w', body x w = (Normal c, w')) ->
  forall xs w, exists c w', forOf xs body w = (Normal c, w').
Proof.
  intros Hb xs. induction xs as [|x xs IH]; intros w; simpl.
  - unfold ret; eauto.
  - unfold bind. destruct (Hb x w) as (c & w1 & ->).
    destruct c; [apply IH | unfold ret; eauto].
Qed.

(** ** The shape of a run *)

Lemma releaseComingSoonSeries_run w r w' :
  releaseComingSoonSeries w = (r, w') ->
  r = Normal tt /\
  ((store w' = store w /\ nextObjectId w' = nextObjectId w /\ errors w' = [] /\
    (hd None (faults w) <> None \/
     filter (dueSeries (clock w)) (db_ComingSoonSeries w) = [])) \/
   (hd None (faults w) = None /\
    filter (dueSeries (clock w)) (db_ComingSoonSeries w) <> [] /\
    exists w0 c w1,
      store w0 = store w /\ nextObjectId w0 = nextObjectId w /\ clock w0 = clock w /\
      faults w0 = tl (faults w) /\ errors w0 = [] /\ released w0 = [] /\
      forOf (filter (dueSeries (clock w)) (db_ComingSoonSeries w)) seriesLoopBody w0
        = (Normal c, w1) /\
      store w' = store w1 /\ nextObjectId w' = nextObjectId w1 /\
      errors w' = errors w1 /\ released w' = released w1 /\ faults w' = faults w1 /\
      grows trace w1 w')).
Proof.
  destruct w as [cs ce sr ep lg n clk fs tr rel errs].
  cbn [clock db_ComingSoonSeries faults].
  unfold releaseComingSoonSeries. unfold_js.
  destruct (hd None fs) eqn:Hfs.
  - intros H; inversion H; subst. split; [reflexivity|]. left.
    repeat split; try reflexivity. left; discriminate.
  - remember (filter (dueSeries clk) cs) as seriesToRelease eqn:El.
    destruct seriesToRelease as [|x l].
    + cbn [length Nat.eqb].
      destruct (hd None (List.tl fs)).
      * intros H; inversion H; subst. split; [reflexivity|]. left. repeat split; auto.
      * match goal with |- context [if ?b then _ else _] => destruct b end.
        -- destruct (hd None (List.tl (List.tl fs)));
             [intros H; inversion H; subst; split; [reflexivity|];
              left; repeat split; auto|].
           match goal with |- context [match ?o with Some _ => _ | None => _ end] =>
             destruct o end;
             intros H; inversion H; subst; (split; [reflexivity|]);
             left; repeat split; auto.
        -- intros H; inversion H; subst. split; [reflexivity|].
           left. repeat split; auto.
    + cbn [length Nat.eqb].
      match goal with |- context [forOf ?xs seriesLoopBody ?x0] =>
        destruct (forOf_normal seriesLoopBody seriesLoopBody_normal xs x0) as (c & w1 & Hloop);
        set (w0 := x0) in *
      end.
      rewrite Hloop.
      destruct w1 as [cs1 ce1 sr1 ep1 lg1 n1 clk1 fs1 tr1 rel1 errs1].
      destruct rel1 as [|? ?], errs1 as [|? ?]; cbn;
        intros H; inversion H; subst; (split; [reflexivity|]); right;
        (split; [reflexivity|]); (split; [discriminate|]);
        eexists w0, c, _;
        (split; [reflexivity|]); (split; [reflexivity|]); (split; [reflexivity|]);
        (split; [reflexivity|]); (split; [reflexivity|]); (split; [reflexivity|]);
        (split; [exact Hloop|]);
        (split; [reflexivity|]); (split; [reflexivity|]); (split; [reflexivity|]);
        (split; [reflexivity|]); (split; [reflexivity|]);
        unfold grows; cbn [trace];
        first [ eexists; rewrite <- ?app_assoc; reflexivity
              | exists []; now rewrite app_nil_r ].
Qed.

Lemma releaseComingSoonEpisodes_run w r w' :
  releaseComingSoonEpisodes w = (r, w') ->
  r = Normal tt /\
  ((store w' = store w /\ nextObjectId w' = nextObjectId w /\ errors w' = [] /\
    (hd None (faults w) <> None \/
     filter (dueEpisode (clock w)) (db_ComingSoonEpisode w) = [])) \/
   (hd None (faults w) = None /\
    filter (dueEpisode (clock w)) (db_ComingSoonEpisode w) <> [] /\
    exists w0 c w1,
      store w0 = store w /\ nextObjectId w0 = nextObjectId w /\ clock w0 = clock w /\
      faults w0 = tl (faults w) /\ errors w0 = [] /\ released w0 = [] /\
      forOf (filter (dueEpisode (clock w)) (db_ComingSoonEpisode w)) episodeLoopBody w0
        = (Normal c, w1) /\
      store w' = store w1 /\ nextObjectId w' = nextObjectId w1 /\
      errors w' = errors w1 /\ released w' = released w1 /\ faults w' = faults w1 /\
      grows trace w1 w')).
Proof.
  destruct w as [cs ce sr ep lg n clk fs tr rel errs].
  cbn [clock db_ComingSoonEpisode faults].
  unfold releaseComingSoonEpisodes. unfold_js.
  destruct (hd None fs) eqn:Hfs.
  - intros H; inversion H; subst. split; [reflexivity|]. left.
    repeat split; try reflexivity. left; discriminate.
  - remember (filter (dueEpisode clk) ce) as episodesToRelease eqn:El.
    destruct episodesToRelease as [|x l].
    + cbn [length Nat.eqb].
      intros H; inversion H; subst. split; [reflexivity|]. left. repeat split; auto.
    + cbn [length Nat.eqb].
      match goal with |- context [forOf ?xs episodeLoopBody ?x0] =>
        destruct (forOf_normal episodeLoopBody episodeLoopBody_normal xs x0)
          as (c & w1 & Hloop);
        set (w0 := x0) in *
      end.
      rewrite Hloop.
      destruct w1 as [cs1 ce1 sr1 ep1 lg1 n1 clk1 fs1 tr1 rel1 errs1].
      destruct rel1 as [|? ?], errs1 as [|? ?]; cbn;
        intros H; inversion H; subst; (split; [reflexivity|]); right;
        (split; [reflexivity|]); (split; [discriminate|]);
        eexists w0, c, _;
        (split; [reflexivity|]); (split; [reflexivity|]); (split; [reflexivity|]);
        (split; [reflexivity|]); (split; [reflexivity|]); (split; [reflexivity|]);
        (split; [exact Hloop|]);
        (split; [reflexivity|]); (split; [reflexivity|]); (split; [reflexivity|]);
        (split; [reflexivity|]); (split; [reflexivity|]);
        unfold grows; cbn [trace];
        first [ eexists; rewrite <- ?app_assoc; reflexivity
              | exists []; now rewrite app_nil_r ].
Qed.

(** ** What a batch of series can touch, whatever the script *)

Lemma growsBy_frame {X} (P : X -> Prop) (f : World -> list X) :
  (forall w ev, f (emit ev w) = f w) ->
  (forall w fs, f (with_faults fs w) = f w) ->
  Frame (growsBy P f).
Proof.
  intros He Hf. split; unfold growsBy; intros.
  - exists []. rewrite app_nil_r. auto.
  - destruct H as (l1 & H1 & P1), H0 as (l2 & H2 & P2). exists (l1 ++ l2).
    rewrite H2, H1, app_assoc. split; [reflexivity|]. apply Forall_app; auto.
  - exists []. rewrite He, app_nil_r. auto.
  - exists []. rewrite Hf, app_nil_r. auto.
Qed.

#[export] Hint Extern 1 (Frame (growsBy _ _)) =>
  apply growsBy_frame; intros [? ? ? ? ? ? ? ? ? ? ?] ?; reflexivity : typeclass_instances.

Ltac growsBy_nil :=
  intros [? ? ? ? ? ? ? ? ? ? ?]; unfold growsBy; cbn;
  exists []; rewrite app_nil_r; split; [reflexivity | constructor].

Lemma deleteWhere_updateWhere_sub {A} (p q : A -> bool) (f : A -> A) (l : list A) :
  (forall x, p x = true -> q x = true /\ q (f x) = true) ->
  deleteWhere q (updateWhere p f l) = deleteWhere q l.
Proof.
  intros H. unfold deleteWhere, updateWhere.
  induction l as [|x l IH]; simpl; [reflexivity|].
  destruct (p x) eqn:E.
  - destruct (H x E) as [Q1 Q2]. rewrite Q1, Q2. simpl. exact IH.
  - destruct (q x); simpl; now rewrite IH.
Qed.

Lemma deleteWhere_deleteWhere_sub {A} (p q : A -> bool) (l : list A) :
  (forall x, p x = true -> q x = true) ->
  deleteWhere q (deleteWhere p l) = deleteWhere q l.
Proof.
  intros H. unfold deleteWhere.
  induction l as [|x l IH]; simpl; [reflexivity|].
  destruct (p x) eqn:E; simpl.
  - rewrite (H x E). simpl. exact IH.
  - destruct (q x); simpl; now rewrite IH.
Qed.

Lemma existsb_eqb_In (ids : list ObjectId) (id : ObjectId) :
  existsb (Nat.eqb id) ids = true <-> In id ids.
Proof.
  rewrite existsb_exists. split.
  - intros (y & Hy & E). apply Nat.eqb_eq in E. now subst.
  - intros H. exists id. split; [exact H | apply Nat.eqb_refl].
Qed.

Lemma seriesLoop_outside (ids : list ObjectId) (l : list ComingSoonSeries) :
  (forall cs, In cs l -> In (css_id cs) ids) ->
  keeps (unchanged (seriesOutside ids)) (forOf l seriesLoopBody).
Proof.
  intros Hin. keeps_auto; try world_eq.
  - intros [? ? ? ? ? ? ? ? ? ? ?]. unfold unchanged, seriesOutside; cbn.
    apply deleteWhere_updateWhere_sub. intros y Hy. apply Nat.eqb_eq in Hy.
    cbn. rewrite Hy. split; apply existsb_eqb_In, Hin; assumption.
  - intros [? ? ? ? ? ? ? ? ? ? ?]. unfold unchanged, seriesOutside; cbn.
    apply deleteWhere_deleteWhere_sub. intros y Hy. apply Nat.eqb_eq in Hy.
    rewrite Hy. apply existsb_eqb_In, Hin; assumption.
Qed.

Lemma seriesLoop_logs (l : list ComingSoonSeries) :
  keeps (growsBy (fun tl => exists cs, In cs l /\ tl_comingSoonSeriesId tl = css_id cs)
                 db_SeriesTransferLog)
        (forOf l seriesLoopBody).
Proof.
  keeps_auto; try growsBy_nil.
  intros [? ? ? ? ? ? ? ? ? ? ?]. unfold growsBy; cbn.
  eexists; split; [reflexivity|]. constructor; [|constructor].
  cbn. eauto.
Qed.

Lemma seriesLoop_series (l : list ComingSoonSeries) :
  keeps (growsBy (fun s => exists cs, In cs l /\ s = newSeriesDoc (s_id s) cs) db_Series)
        (forOf l seriesLoopBody).
Proof.
  keeps_auto; try growsBy_nil.
  intros [? ? ? ? ? ? ? ? ? ? ?]. unfold growsBy; cbn.
  eexists; split; [reflexivity|]. constructor; [|constructor].
  cbn. eauto.
Qed.

Lemma NoDup_map_In_eq {A B} (f : A -> B) (l : list A) (x y : A) :
  NoDup (map f l) -> In x l -> In y l -> f x = f y -> x = y.
Proof.
  induction l as [|a l IH]; simpl; intros ND Hx Hy E; [contradiction|].
  inversion ND as [|? ? Hnot ND']; subst.
  destruct Hx as [->|Hx], Hy as [->|Hy]; auto.
  - exfalso. apply Hnot. rewrite E. now apply in_map.
  - exfalso. apply Hnot. rewrite <- E. now apply in_map.
Qed.

Lemma dueSeries_pending now cs : dueSeries now cs = true -> css_status cs = StPending.
Proof.
  unfold dueSeries, isDue. intros H. apply andb_true_iff in H as [H _].
  now destruct (css_status cs).
Qed.

Lemma store_eq w w' :
  store w' = store w ->
  db_ComingSoonSeries w' = db_ComingSoonSeries w /\
  db_ComingSoonEpisode w' = db_ComingSoonEpisode w /\
  db_Series w' = db_Series w /\
  db_Episode w' = db_Episode w /\
  db_SeriesTransferLog w' = db_SeriesTransferLog w.
Proof. unfold store. intros H. inversion H. auto. Qed.

(** C8 (amended).  A coming-soon series at status released is never promoted
    by a run of the Series Promoter, whatever the script: the query
    [{status: 'pending', ...}] alone keeps it out of [seriesToRelease]; the
    record stays in the collection as it is, no transfer log entry is written
    for it, and every series the run adds to the live collection is the copy
    of a record that was pending. *)
Theorem released_series_never_promoted
    (w : World) (stuck : ComingSoonSeries) (r : Completion unit) (w' : World) :
  NoDup (map css_id (db_ComingSoonSeries w)) ->
  In stuck (db_ComingSoonSeries w) ->
  css_status stuck = StReleased ->
  releaseComingSoonSeries w = (r, w') ->
  ~ In stuck (filter (dueSeries (clock w)) (db_ComingSoonSeries w)) /\
  In stuck (db_ComingSoonSeries w') /\
  (exists added,
      db_SeriesTransferLog w' = db_SeriesTransferLog w ++ added /\
      Forall (fun tl => tl_comingSoonSeriesId tl <> css_id stuck) added) /\
  (exists added,
      db_Series w' = db_Series w ++ added /\
      Forall (fun s => exists cs, In cs (db_ComingSoonSeries w) /\
                                  css_status cs = StPending /\
                                  s = newSeriesDoc (s_id s) cs) added).
Proof.
  intros ND Hin Hst Hrun.
  set (l := filter (dueSeries (clock w)) (db_ComingSoonSeries w)).
  assert (forall cs, In cs l -> In cs (db_ComingSoonSeries w) /\ css_status cs = StPending)
    as Hl.
  { intros cs H. apply filter_In in H as [H1 H2]. split; [exact H1|].
    now apply dueSeries_pending in H2. }
  assert (~ In stuck l) as Hnot.
  { intros H. apply Hl in H as [_ H]. congruence. }
  assert (~ In (css_id stuck) (map css_id l)) as Hid.
  { intros H. apply in_map_iff in H as (cs & E & Hcs).
    destruct (Hl cs Hcs) as [Hcs' Hp].
    assert (cs = stuck) by (eapply NoDup_map_In_eq; eauto). subst cs. congruence. }
  split; [exact Hnot|].
  destruct (releaseComingSoonSeries_run w r w' Hrun) as [_ [Hsame|Hloop]].
  - destruct Hsame as (Hs & _). apply store_eq in Hs as (E1 & _ & E3 & _ & E5).
    split; [now rewrite E1|].
    split; exists []; rewrite app_nil_r; auto.
  - destruct Hloop as (_ & _ & w0 & c & w1 & Hs0 & _ & _ & _ & _ & _ & Hfor & Hs1 & _).
    apply store_eq in Hs0 as (A1 & _ & A3 & _ & A5).
    apply store_eq in Hs1 as (B1 & _ & B3 & _ & B5).
    fold l in Hfor.
    pose proof (seriesLoop_outside (map css_id l) l
                  (fun cs H => in_map css_id l cs H) _ _ _ Hfor) as Hout.
    pose proof (seriesLoop_logs l _ _ _ Hfor) as (logs & Hlogs & Plogs).
    pose proof (seriesLoop_series l _ _ _ Hfor) as (news & Hnews & Pnews).
    unfold unchanged, seriesOutside in Hout.
    split; [|split].
    + rewrite B1.
      assert (In stuck (deleteWhere (fun s => existsb (Nat.eqb (css_id s)) (map css_id l))
                                    (db_ComingSoonSeries w1))) as H.
      { rewrite Hout, A1. apply In_deleteWhere. split; [exact Hin|].
        destruct (existsb (Nat.eqb (css_id stuck)) (map css_id l)) eqn:E; [|reflexivity].
        apply existsb_eqb_In in E. contradiction. }
      now apply In_deleteWhere in H.
    + exists logs. split; [now rewrite B5, Hlogs, A5|].
      eapply Forall_impl; [|exact Plogs]. cbn. intros tl (cs & Hcs & E) Heq.
      apply Hid. rewrite <- Heq, E. now apply in_map.
    + exists news. split; [now rewrite B3, Hnews, A3|].
      eapply Forall_impl; [|exact Pnews]. cbn. intros s (cs & Hcs & E).
      exists cs. destruct (Hl cs Hcs). auto.
Qed.

Lemma released_series_never_promoted_witness :
  NoDup (map css_id (db_ComingSoonSeries Sample.wStuck)) /\
  In Sample.stuckX (db_ComingSoonSeries Sample.wStuck) /\
  css_status Sample.stuckX = StReleased /\
  In Sample.stuckX
     (db_ComingSoonSeries (snd (releaseComingSoonSeries Sample.wStuck))).
Proof.
  assert (NoDup (map css_id (db_ComingSoonSeries Sample.wStuck))) as H1
    by (repeat constructor; intros []).
  assert (In Sample.stuckX (db_ComingSoonSeries Sample.wStuck)) as H2
    by (left; reflexivity).
  split; [exact H1|]. split; [exact H2|]. split; [reflexivity|].
  exact (proj1 (proj2 (released_series_never_promoted
                         Sample.wStuck Sample.stuckX
                         (fst (releaseComingSoonSeries Sample.wStuck))
                         (snd (releaseComingSoonSeries Sample.wStuck))
                         H1 H2 eq_refl (surjective_pairing _)))).
Defined.

(** C8 as stated fails: the loop has no re-check of the status.  Handed a
    record that is already at status released, its body promotes it again:
    a live copy and a transfer log entry are written. *)
Lemma loop_has_no_released_guard :
  css_status Sample.stuckX = StReleased /\
  forOf [Sample.stuckX] seriesLoopBody Sample.wStuck = (Normal Next, Sample.wStuckLooped) /\
  db_Series Sample.wStuckLooped = [newSeriesDoc 100 Sample.stuckX] /\
  map tl_comingSoonSeriesId (db_SeriesTransferLog Sample.wStuckLooped) = [1%nat] /\
  db_Series Sample.wStuckLooped <> db_Series Sample.wStuck.
Proof.
  repeat split; try reflexivity. discriminate.
Qed.


(** ** Runs that the script leaves alone *)

(** A run is calm when it starts with an empty script: no store call is
    rejected, and the script stays empty. *)
Lemma accounts_calm {A} (m : M A) w :
  accounts m -> faults w = [] -> faults (snd (m w)) = [].
Proof.
  intros Hm Hw. specialize (Hm w).
  destruct (m w) as [[a|e] w']; destruct Hm as (used & added & F & T & N);
    cbn [snd]; rewrite Hw in F; symmetry in F; now apply app_eq_nil in F.
Qed.

Lemma releaseSeries_accounts cs : accounts (releaseSeries cs).
Proof. repeat accounts_step. Qed.

Lemma releaseEpisode_accounts e : accounts (releaseEpisode e).
Proof. repeat accounts_step. Qed.

Lemma seriesEpisodeLoop_accounts ns eps : accounts (forOf eps (seriesEpisodeLoopBody ns)).
Proof. repeat accounts_step. Qed.

Lemma seriesLoop_accounts l : accounts (forOf l seriesLoopBody).
Proof. repeat accounts_step. Qed.

Lemma episodeLoop_accounts l : accounts (forOf l episodeLoopBody).
Proof. repeat accounts_step. Qed.

Lemma releaseSeries_errors cs : keeps (unchanged errors) (releaseSeries cs).
Proof. keeps_auto; world_eq. Qed.

Lemma releaseEpisode_errors e : keeps (unchanged errors) (releaseEpisode e).
Proof. keeps_auto; world_eq. Qed.

(** A calm iteration of the Series Promoter's loop falls through, with
    [errors] as before: what fails inside is an episode, and stays inside. *)
Lemma seriesLoopBody_calm cs w :
  faults w = [] ->
  exists w', releaseSeries cs w = (Normal Next, w') /\
             seriesLoopBody cs w = (Normal Next, w') /\
             faults w' = [] /\ errors w' = errors w.
Proof.
  intros Hw.
  pose proof (accounts_calm _ w (releaseSeries_accounts cs) Hw) as F.
  destruct (seriesLoopBody_past_series_calls cs w) as (w2 & P & E2).
  { intros i _. rewrite Hw. now destruct i. }
  destruct (releaseSeries cs w) as [[c|e] w'] eqn:H; cbn [snd] in F.
  - unfold seriesLoopBody, tryCatch in P. rewrite H in P. inversion P; subst.
    exists w2. repeat split; auto.
    unfold seriesLoopBody, tryCatch. now rewrite H.
  - exfalso. pose proof (releaseSeries_errors cs _ _ _ H) as E. unfold unchanged in E.
    unfold seriesLoopBody, tryCatch in P. rewrite H in P. unfold seriesCatch in P.
    destruct (isENOSPC e); [discriminate P|].
    destruct w' as [cs1 ce1 sr1 ep1 lg1 n1 clk1 fs1 tr1 rel1 errs1].
    inversion P; subst. cbn in E2, E. rewrite E in E2.
    apply (f_equal (@length _)) in E2. rewrite length_app in E2. cbn in E2. lia.
Qed.

Lemma releaseEpisode_next e w c w' : releaseEpisode e w = (Normal c, w') -> c = Next.
Proof.
  destruct w as [cs ce sr ep lg n clk fs tr rel errs].
  unfold releaseEpisode. unfold_js.
  destruct (ce_seriesId e), (ce_comingSoonSeriesId e);
    repeat first [split_fault | split_find | split_valid];
    intros H; inversion H; reflexivity.
Qed.

(** The copy of a coming-soon episode passes the validators of the live
    schema exactly when the coming-soon episode passes its own. *)
Lemma validate_copy id seriesId x :
  Episode_validate (newEpisodeDoc id seriesId x) = ComingSoonEpisode_validate x.
Proof.
  unfold Episode_validate, ComingSoonEpisode_validate, newEpisodeDoc.
  destruct (ce_coin x), (ce_views x), (ce_coinEarned x); cbn; reflexivity.
Qed.

Ltac refused_valid :=
  match goal with
  | Hx : ComingSoonEpisode_validate ?x = true,
    Hv : Episode_validate (newEpisodeDoc _ _ ?x) = false |- _ =>
      rewrite validate_copy, Hx in Hv; discriminate Hv
  end.

(** In a calm run nothing but a refused [save()] throws. *)
Lemma releaseEpisode_calm_throw e w err w' :
  faults w = [] -> releaseEpisode e w = (Throw err, w') ->
  err = validationError /\ ComingSoonEpisode_validate e = false.
Proof.
  destruct w as [cs ce sr ep lg n clk fs tr rel errs]. cbn [faults]. intros ->.
  unfold releaseEpisode. unfold_js. cbv beta iota delta [hd tl].
  destruct (ce_seriesId e), (ce_comingSoonSeriesId e);
    repeat first [split_find | split_valid];
    intros H; inversion H; subst;
    (split; [reflexivity | rewrite validate_copy in *; assumption]).
Qed.

(** A calm iteration of the Episode Promoter's loop goes on to the next
    episode. *)
Lemma episodeLoopBody_calm_next e w :
  faults w = [] ->
  exists w', episodeLoopBody e w = (Normal Next, w') /\ faults w' = [].
Proof.
  intros Hw.
  assert (accounts (episodeLoopBody e)) as Ha by (repeat accounts_step).
  pose proof (accounts_calm _ w Ha Hw) as F.
  unfold episodeLoopBody, tryCatch in *.
  destruct (releaseEpisode e w) as [[c|err] w1] eqn:H.
  - rewrite (releaseEpisode_next _ _ _ _ H). eauto.
  - destruct (releaseEpisode_calm_throw _ _ _ _ Hw H) as [-> _].
    unfold episodeCatch in *. cbn [isENOSPC validationError code] in *.
    unfold bind, errors_push, console, modify, ret in *. cbn [snd] in F. eauto.
Qed.

(** With an episode that passes the validators, the iteration itself ends
    normally, with [errors] as before. *)
Lemma episodeLoopBody_calm e w :
  ComingSoonEpisode_validate e = true ->
  faults w = [] ->
  exists w', releaseEpisode e w = (Normal Next, w') /\
             episodeLoopBody e w = (Normal Next, w') /\
             faults w' = [] /\ errors w' = errors w.
Proof.
  intros Hx Hw.
  pose proof (accounts_calm _ w (releaseEpisode_accounts e) Hw) as F.
  destruct (releaseEpisode e w) as [[c|err] w'] eqn:H; cbn [snd] in F.
  - assert (c = Next) as -> by (eapply releaseEpisode_next; eauto).
    exists w'. split; [reflexivity|]. split; [|split; [exact F|]].
    + unfold episodeLoopBody, tryCatch. now rewrite H.
    + exact (releaseEpisode_errors e _ _ _ H).
  - destruct (releaseEpisode_calm_throw _ _ _ _ Hw H) as [_ Hno]. congruence.
Qed.

(** ** A calm iteration of the Episode Promoter *)

Lemma releaseEpisode_calm e w w' :
  faults w = [] ->
  releaseEpisode e w = (Normal Next, w') ->
  match finalSeriesIdOf w e with
  | None =>
      store w' = store w /\ nextObjectId w' = nextObjectId w /\ released w' = released w
  | Some seriesId =>
      db_ComingSoonEpisode w'
        = deleteWhere (fun x => Nat.eqb (ce_id x) (ce_id e)) (db_ComingSoonEpisode w) /\
      db_ComingSoonSeries w' = db_ComingSoonSeries w /\
      db_Series w' = db_Series w /\
      db_SeriesTransferLog w' = db_SeriesTransferLog w /\
      match find (sameEpisode seriesId (ce_episode e)) (db_Episode w) with
      | Some _ =>
          db_Episode w' = db_Episode w /\ nextObjectId w' = nextObjectId w /\
          released w' = released w
      | None =>
          db_Episode w' = db_Episode w ++ [newEpisodeDoc (nextObjectId w) seriesId e] /\
          nextObjectId w' = S (nextObjectId w) /\
          released w' = released w ++ [ReleasedEpisode (nextObjectId w) seriesId (ce_episode e)]
      end
  end.
Proof.
  destruct w as [cs ce sr ep lg n clk fs tr rel errs]. cbn [faults]. intros ->.
  unfold finalSeriesIdOf, transferLogFor. cbn [db_SeriesTransferLog db_Episode].
  unfold releaseEpisode. unfold_js. cbv beta iota delta [hd tl].
  destruct (ce_seriesId e) as [sid|], (ce_comingSoonSeriesId e) as [csid|];
    cbn [option_map];
    repeat first [split_find | split_valid]; cbn [option_map];
    intros H; inversion H; subst; cbn;
    repeat match goal with
           | Hf : find ?p ?l = _ |- context [find ?p ?l] => rewrite Hf
           end;
    repeat split; try reflexivity; clear H;
    repeat (rewrite deleteWhere_updateWhere by reflexivity); reflexivity.
Qed.

Lemma finalSeriesIdOf_logs w w' e :
  db_SeriesTransferLog w' = db_SeriesTransferLog w ->
  finalSeriesIdOf w' e = finalSeriesIdOf w e.
Proof. intros H. unfold finalSeriesIdOf, transferLogFor. now rewrite H. Qed.

Lemma resolvedIds_logs w w' l :
  db_SeriesTransferLog w' = db_SeriesTransferLog w ->
  resolvedIds w' l = resolvedIds w l.
Proof.
  intros H. unfold resolvedIds. f_equal. apply filter_ext.
  intros e. now rewrite (finalSeriesIdOf_logs w w' e H).
Qed.

Lemma deleteWhere_ext {A} (p q : A -> bool) (l : list A) :
  (forall x, p x = q x) -> deleteWhere p l = deleteWhere q l.
Proof. intros H. unfold deleteWhere. apply filter_ext. intros x. now rewrite H. Qed.

Lemma deleteWhere_deleteWhere {A} (p q : A -> bool) (l : list A) :
  deleteWhere q (deleteWhere p l) = deleteWhere (fun x => p x || q x) l.
Proof.
  unfold deleteWhere. induction l as [|x l IH]; simpl; [reflexivity|].
  destruct (p x); simpl; [exact IH|]. destruct (q x); simpl; now rewrite IH.
Qed.

Lemma deleteWhere_none {A} (l : list A) : deleteWhere (fun _ => false) l = l.
Proof.
  unfold deleteWhere. induction l as [|x l IH]; simpl; [reflexivity | f_equal; exact IH].
Qed.

Lemma find_some_exists {A} (p : A -> bool) (l : list A) x :
  find p l = Some x -> exists y, In y l /\ p y = true.
Proof. intros H. apply find_some in H. eauto. Qed.

(** A calm pass of the Episode Promoter's loop. *)
Lemma episodeLoop_calm l : forall w,
  Forall (fun x => ComingSoonEpisode_validate x = true) l ->
  faults w = [] ->
  exists w',
    forOf l episodeLoopBody w = (Normal Next, w') /\
    faults w' = [] /\ errors w' = errors w /\
    db_SeriesTransferLog w' = db_SeriesTransferLog w /\
    db_ComingSoonSeries w' = db_ComingSoonSeries w /\
    db_Series w' = db_Series w /\
    db_ComingSoonEpisode w'
      = deleteWhere (fun x => idIn (resolvedIds w l) (ce_id x)) (db_ComingSoonEpisode w) /\
    grows db_Episode w w' /\
    (length (db_Episode w') <= length (db_Episode w) + length (resolvedIds w l))%nat /\
    (forall x seriesId, In x l -> finalSeriesIdOf w x = Some seriesId ->
       exists y, In y (db_Episode w') /\ sameEpisode seriesId (ce_episode x) y = true).
Proof.
  induction l as [|e l IH]; intros w Hvalid Hw.
  - exists w. simpl. unfold ret. repeat split; auto.
    + unfold resolvedIds, idIn. simpl. now rewrite deleteWhere_none.
    + exists []. now rewrite app_nil_r.
    + lia.
    + intros x sid [].
  - inversion Hvalid as [|? ? Hve Hvl]; subst.
    destruct (episodeLoopBody_calm e w Hve Hw) as (w1 & Hitem & Hbody & F1 & E1).
    pose proof (releaseEpisode_calm e w w1 Hw Hitem) as Heff.
    destruct (IH w1 Hvl F1) as (w' & Hloop & F' & E' & L' & CS' & S' & CE' & G' & N' & X').
    assert (db_SeriesTransferLog w1 = db_SeriesTransferLog w /\
            db_ComingSoonSeries w1 = db_ComingSoonSeries w /\
            db_Series w1 = db_Series w /\
            grows db_Episode w w1 /\
            (length (db_Episode w1)
             <= length (db_Episode w) + (if isSome (finalSeriesIdOf w e) then 1 else 0))%nat /\
            db_ComingSoonEpisode w1
              = deleteWhere (fun x => isSome (finalSeriesIdOf w e) && Nat.eqb (ce_id x) (ce_id e))
                            (db_ComingSoonEpisode w) /\
            (forall seriesId, finalSeriesIdOf w e = Some seriesId ->
               exists y, In y (db_Episode w1) /\ sameEpisode seriesId (ce_episode e) y = true))
      as (L1 & CS1 & S1 & G1 & N1 & CE1 & X1).
    { destruct (finalSeriesIdOf w e) as [sid|].
      - destruct Heff as (A & B & C & D & R). repeat split; auto.
        + unfold grows.
          destruct (find (sameEpisode sid (ce_episode e)) (db_Episode w));
            destruct R as (R1 & _); rewrite R1;
            [exists []; now rewrite app_nil_r | eexists; eauto].
        + destruct (find (sameEpisode sid (ce_episode e)) (db_Episode w));
            destruct R as (R1 & _); rewrite R1; cbn; rewrite ?length_app; cbn; lia.
        + intros s Hs. inversion Hs; subst s.
          destruct (find (sameEpisode sid (ce_episode e)) (db_Episode w)) eqn:Hf;
            destruct R as (R1 & _); rewrite R1.
          * now apply find_some_exists in Hf.
          * exists (newEpisodeDoc (nextObjectId w) sid e). split.
            -- apply in_or_app. right. now left.
            -- unfold sameEpisode, newEpisodeDoc. cbn. now rewrite Nat.eqb_refl, Z.eqb_refl.
      - destruct Heff as (A & _). apply store_eq in A as (A1 & A2 & A3 & A4 & A5).
        repeat split; auto.
        + exists []. now rewrite app_nil_r.
        + rewrite A4. cbn. lia.
        + rewrite A2. cbn. now rewrite deleteWhere_none.
        + discriminate. }
    exists w'. split; [|split; [exact F'|split; [congruence|split; [congruence|
                 split; [congruence|split; [congruence|split; [|split; [|split]]]]]]]].
    + simpl. unfold bind. now rewrite Hbody.
    + rewrite CE', CE1, deleteWhere_deleteWhere. apply deleteWhere_ext. intros x.
      rewrite (resolvedIds_logs w w1 l L1).
      unfold resolvedIds, idIn. simpl.
      destruct (isSome (finalSeriesIdOf w e)); simpl; reflexivity.
    + destruct G1 as [l1 G1], G' as [l2 G2]. exists (l1 ++ l2).
      now rewrite G2, G1, app_assoc.
    + rewrite (resolvedIds_logs w w1 l L1) in N'. unfold resolvedIds in *. simpl.
      destruct (isSome (finalSeriesIdOf w e)); simpl; lia.
    + intros x sid [->|Hx] Hs.
      * destruct (X1 sid Hs) as (y & Hy & K). exists y. split; [|exact K].
        destruct G' as [l2 G2]. rewrite G2. apply in_or_app. now left.
      * apply (X' x sid Hx). now rewrite (finalSeriesIdOf_logs w w1 x L1).
Qed.

Lemma releaseComingSoonEpisodes_clock : keeps (unchanged clock) releaseComingSoonEpisodes.
Proof. keeps_auto; world_eq. Qed.

Lemma releaseComingSoonSeries_clock : keeps (unchanged clock) releaseComingSoonSeries.
Proof. keeps_auto; world_eq. Qed.

(** A calm run of the Episode Promoter. *)
Lemma releaseComingSoonEpisodes_calm w :
  Forall (fun x => ComingSoonEpisode_validate x = true) (db_ComingSoonEpisode w) ->
  faults w = [] ->
  exists w',
    releaseComingSoonEpisodes w = (Normal tt, w') /\
    faults w' = [] /\ errors w' = [] /\ clock w' = clock w /\
    db_SeriesTransferLog w' = db_SeriesTransferLog w /\
    db_ComingSoonSeries w' = db_ComingSoonSeries w /\
    db_Series w' = db_Series w /\
    db_ComingSoonEpisode w'
      = deleteWhere
          (fun x => idIn (resolvedIds w (filter (dueEpisode (clock w)) (db_ComingSoonEpisode w)))
                         (ce_id x))
          (db_ComingSoonEpisode w) /\
    grows db_Episode w w' /\
    (length (db_Episode w')
     <= length (db_Episode w)
        + length (resolvedIds w (filter (dueEpisode (clock w)) (db_ComingSoonEpisode w))))%nat /\
    (forall x seriesId,
       In x (filter (dueEpisode (clock w)) (db_ComingSoonEpisode w)) ->
       finalSeriesIdOf w x = Some seriesId ->
       exists y, In y (db_Episode w') /\ sameEpisode seriesId (ce_episode x) y = true).
Proof.
  intros Hvalid Hw.
  assert (Forall (fun x => ComingSoonEpisode_validate x = true)
                 (filter (dueEpisode (clock w)) (db_ComingSoonEpisode w))) as Hdue.
  { rewrite Forall_forall in *. intros x Hx. apply filter_In in Hx as [Hx _]. auto. }
  destruct (releaseComingSoonEpisodes w) as [r w'] eqn:Hrun.
  pose proof (releaseComingSoonEpisodes_clock _ _ _ Hrun) as Hclk.
  destruct (releaseComingSoonEpisodes_run w r w' Hrun) as [-> [Hsame|Hloop]].
  - destruct Hsame as (Hs & _ & He & [Hf|Hl]); [rewrite Hw in Hf; now elim Hf|].
    pose proof (accounts_calm _ w releaseComingSoonEpisodes_accounts Hw) as F2.
    rewrite Hrun in F2. cbn [snd] in F2.
    apply store_eq in Hs as (A1 & A2 & A3 & A4 & A5).
    exists w'. rewrite Hl. repeat split; auto.
    + rewrite A2. unfold resolvedIds, idIn. simpl. now rewrite deleteWhere_none.
    + exists []. now rewrite app_nil_r.
    + rewrite A4. simpl. lia.
    + intros x sid [].
  - destruct Hloop as (_ & _ & w0 & c & w1 & Hs0 & _ & _ & F0 & E0 & _ & Hfor & Hs1 & _
                       & E1 & _ & F1 & _).
    rewrite Hw in F0. cbn in F0.
    destruct (episodeLoop_calm (filter (dueEpisode (clock w)) (db_ComingSoonEpisode w)) w0
                               Hdue F0)
      as (w1' & Hfor' & Fl & El & Ll & CSl & Sl & CEl & Gl & Nl & Xl).
    rewrite Hfor in Hfor'. inversion Hfor'; subst w1'. clear Hfor'.
    apply store_eq in Hs0 as (A1 & A2 & A3 & A4 & A5).
    apply store_eq in Hs1 as (B1 & B2 & B3 & B4 & B5).
    assert (forall l, resolvedIds w0 l = resolvedIds w l) as HR
      by (intros l; now apply resolvedIds_logs).
    exists w'. split; [reflexivity|].
    split; [congruence|]. split; [congruence|]. split; [exact Hclk|].
    split; [congruence|]. split; [congruence|]. split; [congruence|].
    split; [|split; [|split]].
    + rewrite B2, CEl, HR, A2. reflexivity.
    + destruct Gl as [l1 G]. exists l1. now rewrite B4, G, A4.
    + rewrite B4, <- HR, <- A4. exact Nl.
    + intros x sid Hx Hs. rewrite B4. apply (Xl x sid Hx).
      now rewrite (finalSeriesIdOf_logs w w0 x A5).
Qed.


(** ** Segments of the trace *)

#[export] Instance keepsSegment_frame seg : Frame (keepsSegment seg).
Proof.
  split; unfold keepsSegment, hasSegment.
  - auto.
  - auto.
  - intros [? ? ? ? ? ? ? ? tr ? ?] ev (t1 & t2 & H). cbn in *.
    exists t1, (t2 ++ [ev]). rewrite H. now rewrite <- !app_assoc.
  - intros [? ? ? ? ? ? ? ? tr ? ?] fs H. exact H.
Qed.

Ltac segment_eq := let Hs := fresh "Hseg" in intros [? ? ? ? ? ? ? ? ? ? ?] Hs; exact Hs.

Lemma episodeLoop_keepsSegment seg l : keeps (keepsSegment seg) (forOf l episodeLoopBody).
Proof. keeps_auto; segment_eq. Qed.

Lemma grows_trace_keepsSegment seg w w' : grows trace w w' -> keepsSegment seg w w'.
Proof.
  intros [t H] (t1 & t2 & E). exists t1, (t2 ++ t). rewrite H, E.
  now rewrite <- !app_assoc.
Qed.

(** A calm iteration that resolves [finalSeriesId] from the transfer log:
    lookup, write-back, console line, and only then the promotion. *)
Lemma releaseEpisode_resolves e c entry w w' :
  faults w = [] ->
  ce_seriesId e = None -> ce_comingSoonSeriesId e = Some c ->
  transferLogFor c w = Some entry ->
  releaseEpisode e w = (Normal Next, w') ->
  hasSegment [Call (SeriesTransferLog_findOne c);
              Call (ComingSoonEpisode_setSeriesId (ce_id e) (tl_seriesId entry));
              Console LOG (EpisodeResolved (tl_seriesId entry) (ce_id e));
              Call (Episode_findOne (tl_seriesId entry) (ce_episode e))] w'.
Proof.
  destruct w as [cs ce sr ep lg n clk fs tr rel errs]. cbn [faults]. intros -> Hs Hc.
  unfold transferLogFor. cbn [db_SeriesTransferLog]. intros Hl.
  unfold releaseEpisode. rewrite Hs, Hc. unfold_js. cbv beta iota delta [hd tl].
  rewrite Hl.
  repeat first [split_find | split_valid];
    intros H; inversion H; subst; unfold hasSegment; cbn [trace];
    exists tr; eexists; rewrite <- !app_assoc; cbn [app]; reflexivity.
Qed.

(** The write-back is in the store before the promotion starts: when the
    call that follows it is rejected, the coming-soon record is left with
    the [seriesId] of the transfer log. *)
Lemma releaseEpisode_write_back e c entry v error rest :
  ce_seriesId e = None -> ce_comingSoonSeriesId e = Some c ->
  transferLogFor c v = Some entry ->
  faults v = None :: None :: Some error :: rest ->
  exists v',
    releaseEpisode e v = (Throw error, v') /\
    db_ComingSoonEpisode v'
      = updateWhere (fun x => Nat.eqb (ce_id x) (ce_id e)) (setSeriesId (tl_seriesId entry))
                    (db_ComingSoonEpisode v) /\
    db_Episode v' = db_Episode v /\
    trace v' = trace v ++
               [Call (SeriesTransferLog_findOne c);
                Call (ComingSoonEpisode_setSeriesId (ce_id e) (tl_seriesId entry));
                Console LOG (EpisodeResolved (tl_seriesId entry) (ce_id e));
                Call (Episode_findOne (tl_seriesId entry) (ce_episode e))].
Proof.
  destruct v as [cs ce sr ep lg n clk fs tr rel errs]. cbn [faults]. intros Hs Hc.
  unfold transferLogFor. cbn [db_SeriesTransferLog]. intros Hl ->.
  unfold releaseEpisode. rewrite Hs, Hc. unfold_js. cbv beta iota delta [hd tl].
  rewrite Hl. eexists. split; [reflexivity|]. cbn.
  repeat split. now rewrite <- !app_assoc.
Qed.

Lemma sameEpisode_true seriesId episode y :
  sameEpisode seriesId episode y = true ->
  e_seriesId y = seriesId /\ e_episode y = episode.
Proof.
  unfold sameEpisode. intros H. apply andb_true_iff in H as [H1 H2].
  apply Nat.eqb_eq in H1. apply Z.eqb_eq in H2. auto.
Qed.



(** ** A live episode with the same series and number exists already *)

Lemma releaseEpisode_existing e w seriesId x :
  faults w = [] ->
  finalSeriesIdOf w e = Some seriesId ->
  find (sameEpisode seriesId (ce_episode e)) (db_Episode w) = Some x ->
  exists w',
    releaseEpisode e w = (Normal Next, w') /\
    db_Episode w' = db_Episode w /\
    db_ComingSoonEpisode w'
      = deleteWhere (fun y => Nat.eqb (ce_id y) (ce_id e)) (db_ComingSoonEpisode w) /\
    errors w' = errors w /\ released w' = released w /\ faults w' = [] /\
    exists t, trace w' = trace w ++ t ++
                         [Call (ComingSoonEpisode_setReleased (ce_id e));
                          Call (ComingSoonEpisode_findByIdAndDelete (ce_id e));
                          Console LOG (EpisodeAlreadyExists (ce_episode e))].
Proof.
  destruct w as [cs ce sr ep lg n clk fs tr rel errs]. cbn [faults]. intros ->.
  unfold finalSeriesIdOf, transferLogFor.
  cbn [db_SeriesTransferLog db_Episode db_ComingSoonEpisode trace errors released faults].
  unfold releaseEpisode. unfold_js. cbv beta iota delta [hd tl].
  destruct (ce_seriesId e) as [sid|], (ce_comingSoonSeriesId e) as [csid|];
    cbn [option_map]; try discriminate;
    try (destruct (find (fun tl => Nat.eqb (tl_comingSoonSeriesId tl) csid) lg) as [entry|];
         cbn [option_map]; try discriminate);
    intros Hs Hf; inversion Hs; subst; rewrite Hf;
    eexists; (split; [reflexivity|]); cbn;
    (split; [reflexivity|]);
    (split; [repeat (rewrite deleteWhere_updateWhere by reflexivity); reflexivity|]);
    repeat (split; [reflexivity|]);
    rewrite <- !app_assoc; cbn [app];
    first [ eexists [_]; reflexivity | eexists [_; _; _; _]; reflexivity ].
Qed.

(** The status update is in the store before the delete is asked for: when
    the delete is rejected, the record is left marked released. *)
Lemma releaseEpisode_existing_marked e w seriesId x error rest :
  finalSeriesIdOf w e = Some seriesId ->
  find (sameEpisode seriesId (ce_episode e)) (db_Episode w) = Some x ->
  exists u,
    releaseEpisode e
      (with_faults (match ce_seriesId e with
                    | Some _ => [None; None]
                    | None => [None; None; None; None]
                    end ++ Some error :: rest) w) = (Throw error, u) /\
    db_ComingSoonEpisode u
      = updateWhere (fun y => Nat.eqb (ce_id y) (ce_id e)) (setEpisodeStatus StReleased)
          (match ce_seriesId e with
           | Some _ => db_ComingSoonEpisode w
           | None => updateWhere (fun y => Nat.eqb (ce_id y) (ce_id e)) (setSeriesId seriesId)
                                 (db_ComingSoonEpisode w)
           end) /\
    db_Episode u = db_Episode w.
Proof.
  destruct w as [cs ce sr ep lg n clk fs tr rel errs].
  unfold finalSeriesIdOf, transferLogFor.
  cbn [db_SeriesTransferLog db_Episode db_ComingSoonEpisode].
  unfold releaseEpisode. unfold_js. cbv beta iota delta [hd tl].
  destruct (ce_seriesId e) as [sid|], (ce_comingSoonSeriesId e) as [csid|];
    cbn [option_map app]; try discriminate;
    try (destruct (find (fun tl => Nat.eqb (tl_comingSoonSeriesId tl) csid) lg) as [entry|];
         cbn [option_map]; try discriminate);
    intros Hs Hf; inversion Hs; subst; rewrite Hf;
    eexists; (split; [reflexivity|]); cbn; split; reflexivity.
Qed.

Lemma releaseEpisodeOfSeries_existing newSeries episode w x :
  faults w = [] ->
  find (sameEpisode (s_id newSeries) (ce_episode episode)) (db_Episode w) = Some x ->
  exists w',
    seriesEpisodeLoopBody newSeries episode w = (Normal Next, w') /\
    db_Episode w' = db_Episode w /\
    db_ComingSoonEpisode w'
      = deleteWhere (fun y => Nat.eqb (ce_id y) (ce_id episode)) (db_ComingSoonEpisode w) /\
    errors w' = errors w /\ released w' = released w /\
    trace w' = trace w ++ [Call (Episode_findOne (s_id newSeries) (ce_episode episode));
                           Call (ComingSoonEpisode_setReleased (ce_id episode));
                           Call (ComingSoonEpisode_findByIdAndDelete (ce_id episode));
                           Console LOG (EpisodeAlreadyExists (ce_episode episode))].
Proof.
  intros Hw Hf.
  destruct (seriesEpisodeLoopBody_next newSeries episode w) as [w' H].
  exists w'. split; [exact H|]. revert H.
  destruct w as [cs ce sr ep lg n clk fs tr rel errs].
  cbn [faults db_Episode db_ComingSoonEpisode errors released trace] in *. subst fs.
  unfold seriesEpisodeLoopBody, releaseEpisodeOfSeries. unfold_js.
  cbv beta iota delta [hd tl]. rewrite Hf.
  intros H. inversion H; subst w'. cbn.
  repeat split.
  - now apply deleteWhere_updateWhere.
  - now rewrite <- !app_assoc.
Qed.

Lemma releaseEpisodeOfSeries_existing_marked newSeries episode w x error rest :
  find (sameEpisode (s_id newSeries) (ce_episode episode)) (db_Episode w) = Some x ->
  exists u,
    releaseEpisodeOfSeries newSeries episode
      (with_faults (None :: None :: Some error :: rest) w) = (Throw error, u) /\
    db_ComingSoonEpisode u
      = updateWhere (fun y => Nat.eqb (ce_id y) (ce_id episode)) (setEpisodeStatus StReleased)
                    (db_ComingSoonEpisode w) /\
    db_Episode u = db_Episode w.
Proof.
  destruct w as [cs ce sr ep lg n clk fs tr rel errs].
  cbn [db_Episode db_ComingSoonEpisode]. intros Hf.
  unfold releaseEpisodeOfSeries. unfold_js. cbv beta iota delta [hd tl]. rewrite Hf.
  eexists. split; [reflexivity|]. cbn. split; reflexivity.
Qed.




(** ** A calm iteration of the Series Promoter *)

(** The six store calls of the series itself, up to the world [w6] in which
    the loop over its episodes starts. *)
Lemma releaseSeries_calm cs w :
  faults w = [] ->
  exists w6 w',
    forOf (filter (episodeOfSeries (nextObjectId w) (css_id cs)) (db_ComingSoonEpisode w6))
          (seriesEpisodeLoopBody (newSeriesDoc (nextObjectId w) cs)) w6 = (Normal Next, w') /\
    releaseSeries cs w = (Normal Next, w') /\
    db_Series w6 = db_Series w ++ [newSeriesDoc (nextObjectId w) cs] /\
    db_SeriesTransferLog w6
      = db_SeriesTransferLog w ++ [transferLogDoc (nextObjectId w) cs (clock w)] /\
    db_ComingSoonSeries w6
      = deleteWhere (fun s => Nat.eqb (css_id s) (css_id cs)) (db_ComingSoonSeries w) /\
    db_ComingSoonEpisode w6
      = updateWhere (fun e => idIs (css_id cs) (ce_comingSoonSeriesId e))
                    (setSeriesId (nextObjectId w)) (db_ComingSoonEpisode w) /\
    db_Episode w6 = db_Episode w /\
    nextObjectId w6 = S (S (nextObjectId w)) /\
    clock w6 = clock w /\ faults w6 = [].
Proof.
  intros Hw.
  destruct (seriesLoopBody_calm cs w Hw) as (w' & Hrun & _).
  destruct w as [css ce sr ep lg n clk fs tr rel errs]. cbn [faults] in Hw. subst fs.
  cbn [nextObjectId clock db_Series db_SeriesTransferLog db_ComingSoonSeries
       db_ComingSoonEpisode db_Episode].
  revert Hrun. unfold releaseSeries. unfold_js. cbv beta iota delta [hd tl].
  change (s_id (newSeriesDoc n cs)) with n.
  match goal with |- context [filter ?p ?l] => remember (filter p l) as eps eqn:El end.
  destruct eps as [|x eps].
  - cbn [length Nat.ltb Nat.leb]. intros H. inversion H as [Hw'].
    exists w', w'. rewrite <- Hw'.
    cbn [db_ComingSoonEpisode]. rewrite <- El.
    split; [reflexivity|]. split; [reflexivity|]. cbn.
    repeat split. now apply deleteWhere_updateWhere.
  - cbn [length Nat.ltb Nat.leb].
    match goal with |- context [forOf ?l ?b ?W] =>
      destruct (seriesEpisodeLoop_next (newSeriesDoc n cs) l W) as [w7 Hloop];
      rewrite Hloop; intros H; inversion H; subst w7; exists W
    end.
    exists w'. cbn [db_ComingSoonEpisode]. rewrite <- El.
    split; [exact Hloop|]. split; [reflexivity|]. cbn.
    repeat split. now apply deleteWhere_updateWhere.
Qed.

#[export] Instance idsAdvance_frame : Frame idsAdvance.
Proof.
  split; unfold idsAdvance.
  - intros; lia.
  - intros; lia.
  - intros [? ? ? ? ? ? ? ? ? ? ?] ?; cbn; lia.
  - intros [? ? ? ? ? ? ? ? ? ? ?] ?; cbn; lia.
Qed.

Ltac ids_le := intros [? ? ? ? ? ? ? ? ? ? ?]; unfold idsAdvance; cbn; lia.

Lemma seriesEpisodeLoop_ids ns eps : keeps idsAdvance (forOf eps (seriesEpisodeLoopBody ns)).
Proof. keeps_auto; ids_le. Qed.

Lemma seriesLoop_ids l : keeps idsAdvance (forOf l seriesLoopBody).
Proof. keeps_auto; ids_le. Qed.

Lemma seriesEpisodeLoop_frame ns eps :
  keeps (unchanged (fun w => (db_Series w, db_SeriesTransferLog w, db_ComingSoonSeries w,
                              clock w)))
        (forOf eps (seriesEpisodeLoopBody ns)).
Proof. keeps_auto; world_eq. Qed.

Lemma seriesEpisodeLoop_calm_faults ns eps w w' :
  faults w = [] ->
  forOf eps (seriesEpisodeLoopBody ns) w = (Normal Next, w') -> faults w' = [].
Proof.
  intros Hw H.
  pose proof (accounts_calm _ w (seriesEpisodeLoop_accounts ns eps) Hw) as F.
  now rewrite H in F.
Qed.

(** A calm pass of the Series Promoter's loop: one live series and one
    transfer log entry per item, under fresh and pairwise distinct ids. *)
Lemma seriesLoop_calm l : forall w,
  faults w = [] ->
  exists w',
    forOf l seriesLoopBody w = (Normal Next, w') /\
    faults w' = [] /\ errors w' = errors w /\ clock w' = clock w /\
    db_ComingSoonSeries w'
      = deleteWhere (fun s => idIn (map css_id l) (css_id s)) (db_ComingSoonSeries w) /\
    (nextObjectId w <= nextObjectId w')%nat /\
    exists ids,
      length ids = length l /\
      Forall (fun i => (nextObjectId w <= i < nextObjectId w')%nat) ids /\
      NoDup ids /\
      db_Series w'
        = db_Series w ++ map (fun p => newSeriesDoc (fst p) (snd p)) (combine ids l) /\
      db_SeriesTransferLog w'
        = db_SeriesTransferLog w
          ++ map (fun p => transferLogDoc (fst p) (snd p) (clock w)) (combine ids l).
Proof.
  induction l as [|cs l IH]; intros w Hw.
  - exists w. simpl. unfold ret. repeat split; auto.
    + unfold idIn. simpl. now rewrite deleteWhere_none.
    + exists []. simpl. rewrite !app_nil_r. repeat split; auto. constructor.
  - destruct (seriesLoopBody_calm cs w Hw) as (w1 & Hitem & Hbody & F1 & E1).
    destruct (releaseSeries_calm cs w Hw)
      as (w6 & w1' & Hinner & Hitem' & A3 & A5 & A1 & A2 & A4 & An & Ac & Af).
    rewrite Hitem in Hitem'. inversion Hitem'; subst w1'. clear Hitem'.
    pose proof (seriesEpisodeLoop_frame _ _ _ _ _ Hinner) as Hfr.
    unfold unchanged in Hfr. inversion Hfr as [[B3 B5 B1 Bc]]. clear Hfr.
    pose proof (seriesEpisodeLoop_ids _ _ _ _ _ Hinner) as Hn. unfold idsAdvance in Hn.
    destruct (IH w1 F1) as (w' & Hloop & F' & E' & C' & CS' & N' & ids & Hlen & Hrange
                            & Hnd & S' & L').
    exists w'. split; [|split; [exact F'|split; [congruence|split; [congruence|split;
                 [|split]]]]].
    + simpl. unfold bind. now rewrite Hbody.
    + rewrite CS', B1, A1, deleteWhere_deleteWhere. apply deleteWhere_ext.
      intros x. unfold idIn. simpl. reflexivity.
    + lia.
    + exists (nextObjectId w :: ids). simpl. split; [now rewrite Hlen|].
      split; [|split; [|split]].
      * constructor; [lia|]. eapply Forall_impl; [|exact Hrange]. cbn. intros; lia.
      * constructor; [|exact Hnd]. intros Hin.
        rewrite Forall_forall in Hrange. specialize (Hrange _ Hin). lia.
      * rewrite S', B3, A3, <- app_assoc. reflexivity.
      * rewrite L', B5, A5, <- app_assoc, Bc, Ac. reflexivity.
Qed.

(** A calm run of the Series Promoter. *)
Lemma releaseComingSoonSeries_calm w :
  faults w = [] ->
  exists w',
    releaseComingSoonSeries w = (Normal tt, w') /\
    faults w' = [] /\ errors w' = [] /\ clock w' = clock w /\
    db_ComingSoonSeries w'
      = deleteWhere
          (fun s => idIn (map css_id (filter (dueSeries (clock w)) (db_ComingSoonSeries w)))
                         (css_id s))
          (db_ComingSoonSeries w) /\
    (nextObjectId w <= nextObjectId w')%nat /\
    exists ids,
      length ids = length (filter (dueSeries (clock w)) (db_ComingSoonSeries w)) /\
      Forall (fun i => (nextObjectId w <= i < nextObjectId w')%nat) ids /\
      NoDup ids /\
      db_Series w'
        = db_Series w
          ++ map (fun p => newSeriesDoc (fst p) (snd p))
                 (combine ids (filter (dueSeries (clock w)) (db_ComingSoonSeries w))) /\
      db_SeriesTransferLog w'
        = db_SeriesTransferLog w
          ++ map (fun p => transferLogDoc (fst p) (snd p) (clock w))
                 (combine ids (filter (dueSeries (clock w)) (db_ComingSoonSeries w))).
Proof.
  intros Hw.
  destruct (releaseComingSoonSeries w) as [r w'] eqn:Hrun.
  pose proof (releaseComingSoonSeries_clock _ _ _ Hrun) as Hclk.
  pose proof (accounts_calm _ w releaseComingSoonSeries_accounts Hw) as F2.
  rewrite Hrun in F2. cbn [snd] in F2.
  destruct (releaseComingSoonSeries_run w _ w' Hrun) as [-> [Hsame|Hloop]].
  - destruct Hsame as (Hs & Hn & He & [Hf|Hl]); [rewrite Hw in Hf; now elim Hf|].
    apply store_eq in Hs as (A1 & A2 & A3 & A4 & A5).
    exists w'. rewrite Hl.
    split; [reflexivity|]. split; [exact F2|]. split; [exact He|]. split; [exact Hclk|].
    split; [|split; [lia|]].
    + rewrite A1. unfold idIn. simpl. now rewrite deleteWhere_none.
    + exists []. simpl. rewrite !app_nil_r. repeat split; auto. constructor.
  - destruct Hloop as (_ & _ & w0 & c & w1 & Hs0 & N0 & C0 & F0 & E0 & _ & Hfor & Hs1 & N1
                       & E1 & _ & F1 & _).
    rewrite Hw in F0. cbn in F0.
    destruct (seriesLoop_calm (filter (dueSeries (clock w)) (db_ComingSoonSeries w)) w0 F0)
      as (w1' & Hfor' & Fl & El & Cl & CSl & Nl & ids & Hlen & Hrange & Hnd & Sl & Ll).
    rewrite Hfor in Hfor'. inversion Hfor'; subst w1'. clear Hfor'.
    apply store_eq in Hs0 as (A1 & A2 & A3 & A4 & A5).
    apply store_eq in Hs1 as (B1 & B2 & B3 & B4 & B5).
    exists w'. split; [reflexivity|].
    split; [exact F2|]. split; [congruence|]. split; [exact Hclk|].
    split; [now rewrite B1, CSl, A1|]. split; [lia|].
    exists ids. split; [exact Hlen|]. split; [|split; [exact Hnd|split]].
    + eapply Forall_impl; [|exact Hrange]. cbn. intros; lia.
    + now rewrite B3, Sl, A3.
    + now rewrite B5, Ll, A5, C0.
Qed.

Lemma dueSeries_gone now (l : list ComingSoonSeries) :
  filter (dueSeries now)
         (deleteWhere (fun s => idIn (map css_id (filter (dueSeries now) l)) (css_id s)) l)
  = [].
Proof.
  destruct (filter (dueSeries now) (deleteWhere _ l)) as [|x r] eqn:E; [reflexivity|].
  exfalso.
  assert (In x (x :: r)) as Hx by now left. rewrite <- E in Hx.
  apply filter_In in Hx as [Hx Hd]. apply In_deleteWhere in Hx as [Hx Hn].
  assert (idIn (map css_id (filter (dueSeries now) l)) (css_id x) = true) as K;
    [|congruence].
  apply existsb_eqb_In. apply in_map. apply filter_In. auto.
Qed.

Lemma dueEpisodes_unresolved w (l : list ComingSoonEpisode) :
  resolvedIds w
    (filter (dueEpisode (clock w))
            (deleteWhere (fun x => idIn (resolvedIds w (filter (dueEpisode (clock w)) l))
                                        (ce_id x)) l))
  = [].
Proof.
  unfold resolvedIds at 1.
  destruct (filter _ (filter (dueEpisode (clock w)) (deleteWhere _ l))) as [|x r] eqn:E;
    [reflexivity|].
  exfalso.
  assert (In x (x :: r)) as Hx by now left. rewrite <- E in Hx.
  apply filter_In in Hx as [Hx Hres]. apply filter_In in Hx as [Hx Hd].
  apply In_deleteWhere in Hx as [Hx Hn].
  assert (idIn (resolvedIds w (filter (dueEpisode (clock w)) l)) (ce_id x) = true) as K;
    [|congruence].
  apply existsb_eqb_In. unfold resolvedIds. apply in_map.
  apply filter_In. split; [|exact Hres]. apply filter_In. auto.
Qed.





(** ** Lists under unique keys *)

Lemma filter_none {A} (p : A -> bool) (l : list A) :
  (forall y, In y l -> p y = false) -> filter p l = [].
Proof.
  induction l as [|a l IH]; simpl; intros H; [reflexivity|].
  rewrite (H a) by now left. apply IH. intros y Hy. apply H. now right.
Qed.

Lemma filter_key_unique {A} (key : A -> nat) (l : list A) (x : A) :
  NoDup (map key l) -> In x l ->
  filter (fun y => Nat.eqb (key y) (key x)) l = [x].
Proof.
  induction l as [|a l IH]; simpl; intros ND Hx; [contradiction|].
  inversion ND as [|? ? Hnot ND']; subst.
  destruct Hx as [->|Hx].
  - rewrite Nat.eqb_refl. f_equal. apply filter_none. intros y Hy.
    apply Nat.eqb_neq. intros E. apply Hnot. rewrite <- E. now apply in_map.
  - destruct (Nat.eqb (key a) (key x)) eqn:E.
    + exfalso. apply Nat.eqb_eq in E. apply Hnot. rewrite E. now apply in_map.
    + now apply IH.
Qed.

Lemma filter_of_map {A B} (p : B -> bool) (f : A -> B) (l : list A) :
  filter p (map f l) = map f (filter (fun a => p (f a)) l).
Proof.
  induction l as [|a l IH]; simpl; [reflexivity|].
  destruct (p (f a)); simpl; now rewrite IH.
Qed.

Lemma fst_combine {A B} (a : list A) : forall (b : list B),
  length a = length b -> map fst (combine a b) = a.
Proof.
  induction a as [|x a IH]; intros [|y b] H; simpl in *; try discriminate; [reflexivity|].
  f_equal. apply IH. lia.
Qed.

Lemma snd_combine {A B} (a : list A) : forall (b : list B),
  length a = length b -> map snd (combine a b) = b.
Proof.
  induction a as [|x a IH]; intros [|y b] H; simpl in *; try discriminate; [reflexivity|].
  f_equal. apply IH. lia.
Qed.

Lemma In_combine_snd {A B} (a : list A) : forall (b : list B) (y : B),
  length a = length b -> In y b -> exists x, In (x, y) (combine a b).
Proof.
  induction a as [|x a IH]; intros [|y' b] y H Hy; simpl in *; try discriminate;
    [contradiction|].
  destruct Hy as [->|Hy].
  - exists x. now left.
  - destruct (IH b y ltac:(lia) Hy) as [x' Hx']. exists x'. now right.
Qed.

Lemma NoDup_map_filter {A B} (key : A -> B) (keep : A -> bool) (xs : list A)
    (unique : NoDup (map key xs)) :
  NoDup (map key (filter keep xs)).
Proof.
  revert unique. induction xs as [|a xs IH]; simpl; intros ND; [constructor|].
  inversion ND as [|? ? Hnot ND']; subst.
  destruct (keep a); simpl; [|now apply IH].
  constructor; [|now apply IH].
  intros H. apply Hnot. apply in_map_iff in H as (y & E & Hy).
  apply filter_In in Hy as [Hy _]. rewrite <- E. now apply in_map.
Qed.

Lemma dueSeries_iff now cs :
  dueSeries now cs = true <->
  css_status cs = StPending /\ css_scheduledReleaseDate cs <= now.
Proof.
  unfold dueSeries, isDue. rewrite andb_true_iff, Z.leb_le.
  destruct (css_status cs); simpl; intuition congruence.
Qed.



(** ** The episodes of a series that is being released *)

Lemma find_none_all {A} (p : A -> bool) (l : list A) :
  (forall x, In x l -> p x = false) -> find p l = None.
Proof.
  induction l as [|a l IH]; simpl; intros H; [reflexivity|].
  rewrite (H a) by now left. apply IH. intros x Hx. apply H. now right.
Qed.

Lemma find_app_none {A} (p : A -> bool) (l : list A) (x : A) :
  find p l = None -> p x = false -> find p (l ++ [x]) = None.
Proof.
  intros Hl Hx. apply find_none_all. intros y Hy. apply in_app_or in Hy as [Hy|[<-|[]]].
  - eapply find_none; eauto.
  - exact Hx.
Qed.

Lemma releaseEpisodeOfSeries_fresh newSeries episode w :
  faults w = [] ->
  ComingSoonEpisode_validate episode = true ->
  find (sameEpisode (s_id newSeries) (ce_episode episode)) (db_Episode w) = None ->
  exists w',
    seriesEpisodeLoopBody newSeries episode w = (Normal Next, w') /\
    faults w' = [] /\
    db_Episode w'
      = db_Episode w ++ [newEpisodeDoc (nextObjectId w) (s_id newSeries) episode] /\
    db_ComingSoonEpisode w'
      = deleteWhere (fun y => Nat.eqb (ce_id y) (ce_id episode)) (db_ComingSoonEpisode w) /\
    nextObjectId w' = S (nextObjectId w).
Proof.
  intros Hw Hx Hf.
  destruct (seriesEpisodeLoopBody_next newSeries episode w) as [w' H].
  exists w'. split; [exact H|]. revert H.
  destruct w as [cs ce sr ep lg n clk fs tr rel errs].
  cbn [faults db_Episode db_ComingSoonEpisode nextObjectId] in *. subst fs.
  unfold seriesEpisodeLoopBody, releaseEpisodeOfSeries. unfold_js.
  cbv beta iota delta [hd tl].
  split_find; [rewrite Hf in Hfind; discriminate|].
  split_valid; [|refused_valid].
  intros H. inversion H; subst w'. cbn.
  repeat split. now apply deleteWhere_updateWhere.
Qed.

(** A calm pass over episodes with pairwise distinct numbers, none of which is
    live yet under the new series: one live episode each. *)
Lemma seriesEpisodeLoop_fresh newSeries eps : forall w,
  faults w = [] ->
  Forall (fun x => ComingSoonEpisode_validate x = true) eps ->
  NoDup (map ce_episode eps) ->
  (forall ep, In ep eps ->
     find (sameEpisode (s_id newSeries) (ce_episode ep)) (db_Episode w) = None) ->
  exists w',
    forOf eps (seriesEpisodeLoopBody newSeries) w = (Normal Next, w') /\
    faults w' = [] /\
    db_Episode w'
      = db_Episode w ++ numberedEpisodeDocs (nextObjectId w) (s_id newSeries) eps /\
    db_ComingSoonEpisode w'
      = deleteWhere (fun y => idIn (map ce_id eps) (ce_id y)) (db_ComingSoonEpisode w) /\
    nextObjectId w' = (nextObjectId w + length eps)%nat.
Proof.
  induction eps as [|ep eps IH]; intros w Hw Hvalid ND Hnone.
  - exists w. simpl. unfold ret. repeat split; auto.
    + now rewrite app_nil_r.
    + unfold idIn. simpl. now rewrite deleteWhere_none.
  - inversion ND as [|? ? Hnot ND']; subst.
    inversion Hvalid as [|? ? Hve Hvl]; subst.
    destruct (releaseEpisodeOfSeries_fresh newSeries ep w Hw Hve
                (Hnone ep (or_introl eq_refl)))
      as (w1 & Hbody & F1 & E1 & C1 & N1).
    destruct (IH w1 F1 Hvl ND') as (w' & Hloop & F' & E' & C' & N').
    { intros ep' Hep'. rewrite E1. apply find_app_none.
      - apply Hnone. now right.
      - unfold sameEpisode, newEpisodeDoc. cbn. rewrite Nat.eqb_refl. cbn.
        apply Z.eqb_neq. intros E. apply Hnot. rewrite E. now apply in_map. }
    exists w'. split; [|split; [exact F'|split; [|split]]].
    + simpl. unfold bind. now rewrite Hbody.
    + rewrite E', E1, N1, <- app_assoc. reflexivity.
    + rewrite C', C1, deleteWhere_deleteWhere. apply deleteWhere_ext. intros y.
      unfold idIn. simpl. reflexivity.
    + rewrite N', N1. simpl. lia.
Qed.

(** ** Relinking and the well-formedness of the store *)

Lemma validate_setSeriesId n x :
  ComingSoonEpisode_validate (setSeriesId n x) = ComingSoonEpisode_validate x.
Proof. reflexivity. Qed.

Lemma setSeriesId_relinked n cid (l : list ComingSoonEpisode) :
  (forall e s, In e l -> ce_seriesId e = Some s -> (s < n)%nat) ->
  filter (episodeOfSeries n cid)
         (updateWhere (fun e => idIs cid (ce_comingSoonSeriesId e)) (setSeriesId n) l)
  = map (setSeriesId n) (filter (pendingEpisodeOf cid) l).
Proof.
  induction l as [|x l IH]; intros Hfresh; [reflexivity|].
  assert (forall e s, In e l -> ce_seriesId e = Some s -> (s < n)%nat) as Hl
    by (intros e s He; apply Hfresh; now right).
  specialize (IH Hl). unfold updateWhere in *. simpl.
  unfold pendingEpisodeOf at 1. unfold episodeOfSeries at 1.
  destruct (idIs cid (ce_comingSoonSeriesId x)) eqn:E.
  - cbn [setSeriesId ce_seriesId ce_comingSoonSeriesId ce_status idIs].
    rewrite Nat.eqb_refl, E. cbn [orb andb].
    destruct (Status_eqb (ce_status x) StPending); simpl; now rewrite IH.
  - rewrite E. cbn [andb].
    assert (idIs n (ce_seriesId x) = false) as K.
    { destruct (ce_seriesId x) as [s|] eqn:Es; [|reflexivity]. cbn.
      apply Nat.eqb_neq. specialize (Hfresh x s (or_introl eq_refl) Es). lia. }
    rewrite K. cbn [orb andb]. exact IH.
Qed.

Lemma numberedEpisodeDocs_setSeriesId k sid n (l : list ComingSoonEpisode) :
  numberedEpisodeDocs k sid (map (setSeriesId n) l) = numberedEpisodeDocs k sid l.
Proof.
  revert k. induction l as [|x l IH]; intros k; simpl; [reflexivity|]. now rewrite IH.
Qed.

Lemma numberedEpisodeDocs_In k sid (l : list ComingSoonEpisode) e :
  In e (numberedEpisodeDocs k sid l) ->
  exists ep id, In ep l /\ (k <= id < k + length l)%nat /\ e = newEpisodeDoc id sid ep.
Proof.
  revert k. induction l as [|x l IH]; intros k; simpl; [contradiction|].
  intros [<-|H].
  - exists x, k. repeat split; auto; lia.
  - destruct (IH _ H) as (ep & id & Hep & Hid & ->).
    exists ep, id. repeat split; auto; lia.
Qed.

Lemma In_numberedEpisodeDocs k sid (l : list ComingSoonEpisode) ep :
  In ep l -> exists id, In (newEpisodeDoc id sid ep) (numberedEpisodeDocs k sid l).
Proof.
  revert k. induction l as [|x l IH]; intros k; simpl; [contradiction|].
  intros [->|H].
  - exists k. now left.
  - destruct (IH (S k) H) as [id Hid]. exists id. now right.
Qed.

Lemma map_id_updateWhere (p : ComingSoonEpisode -> bool) n l :
  map ce_id (updateWhere p (setSeriesId n) l) = map ce_id l.
Proof.
  unfold updateWhere. rewrite map_map. apply map_ext. intros x. now destruct (p x).
Qed.

Lemma In_updateWhere {A} (p : A -> bool) (f : A -> A) (l : list A) y :
  In y (updateWhere p f l) -> exists x, In x l /\ y = (if p x then f x else x).
Proof.
  unfold updateWhere. intros H. apply in_map_iff in H as (x & E & Hx). eauto.
Qed.

Lemma In_updateWhere_other {A} (p : A -> bool) (f : A -> A) (l : list A) x :
  In x l -> p x = false -> In x (updateWhere p f l).
Proof.
  intros Hx Hp. unfold updateWhere. apply in_map_iff. exists x. now rewrite Hp.
Qed.

(** Deleting and relinking keep the unique index. *)
Lemma index_kept (r q : ComingSoonEpisode -> bool) (g : ComingSoonEpisode -> ComingSoonEpisode)
    (l : list ComingSoonEpisode) :
  (forall x, ce_episode (g x) = ce_episode x) ->
  (forall x, r (g x) = r x) ->
  NoDup (map ce_episode (filter r l)) ->
  NoDup (map ce_episode (filter r (filter q (map g l)))).
Proof.
  intros Hep Hr.
  assert (forall l y, In y (map ce_episode (filter r (filter q (map g l)))) ->
                      In y (map ce_episode (filter r l))) as Hincl.
  { intros l0 y H. apply in_map_iff in H as (z & E & Hz).
    apply filter_In in Hz as [Hz Hrz]. apply filter_In in Hz as [Hz _].
    apply in_map_iff in Hz as (x & <- & Hx).
    apply in_map_iff. exists x. split; [now rewrite <- Hep|].
    apply filter_In. split; [exact Hx | now rewrite <- Hr]. }
  induction l as [|x l IH]; simpl; intros ND; [constructor|].
  destruct (r x) eqn:Erx; simpl in ND.
  - inversion ND as [|? ? Hnot ND']; subst.
    destruct (q (g x)); simpl; [|now apply IH].
    rewrite Hr, Erx. simpl. constructor; [|now apply IH].
    rewrite Hep. intros H. apply Hnot. now apply Hincl.
  - destruct (q (g x)); simpl; [|now apply IH].
    rewrite Hr, Erx. now apply IH.
Qed.

Lemma filter_andb {A} (p q : A -> bool) (l : list A) :
  filter (fun x => p x && q x) l = filter q (filter p l).
Proof.
  induction l as [|x l IH]; simpl; [reflexivity|].
  destruct (p x); simpl; [destruct (q x)|]; now rewrite IH.
Qed.

(** A calm iteration of the Series Promoter in a well-formed store. *)
Lemma seriesLoopBody_wf cs w :
  faults w = [] -> WellFormed w ->
  exists w',
    seriesLoopBody cs w = (Normal Next, w') /\
    faults w' = [] /\ WellFormed w' /\
    (nextObjectId w < nextObjectId w')%nat /\
    db_Series w' = db_Series w ++ [newSeriesDoc (nextObjectId w) cs] /\
    db_ComingSoonSeries w'
      = deleteWhere (fun s => Nat.eqb (css_id s) (css_id cs)) (db_ComingSoonSeries w) /\
    db_Episode w'
      = db_Episode w
        ++ numberedEpisodeDocs (S (S (nextObjectId w))) (nextObjectId w)
             (filter (pendingEpisodeOf (css_id cs)) (db_ComingSoonEpisode w)) /\
    db_ComingSoonEpisode w'
      = deleteWhere
          (fun y => idIn (map ce_id (filter (pendingEpisodeOf (css_id cs))
                                            (db_ComingSoonEpisode w)))
                         (ce_id y))
          (updateWhere (fun e => idIs (css_id cs) (ce_comingSoonSeriesId e))
                       (setSeriesId (nextObjectId w)) (db_ComingSoonEpisode w)).
Proof.
  intros Hw WF.
  destruct (seriesLoopBody_calm cs w Hw) as (w' & Hitem & Hbody & F' & _).
  destruct (releaseSeries_calm cs w Hw)
    as (w6 & w1 & Hinner & Hitem' & A3 & A5 & A1 & A2 & A4 & An & Ac & Af).
  rewrite Hitem in Hitem'. inversion Hitem'; subst w1. clear Hitem'.
  set (n := nextObjectId w) in *.
  set (T := filter (pendingEpisodeOf (css_id cs)) (db_ComingSoonEpisode w)).
  pose proof (seriesEpisodeLoop_frame _ _ _ _ _ Hinner) as Hfr.
  unfold unchanged in Hfr. inversion Hfr as [[B3 B5 B1 Bc]]. clear Hfr.
  rewrite A2 in Hinner.
  rewrite (setSeriesId_relinked n (css_id cs) (db_ComingSoonEpisode w)) in Hinner
    by (intros e s He Hs; exact (wf_pending_refs w WF e s He Hs)).
  fold T in Hinner.
  destruct (seriesEpisodeLoop_fresh (newSeriesDoc n cs) (map (setSeriesId n) T) w6 Af)
    as (w1 & Hinner' & _ & E1 & C1 & N1).
  { apply Forall_forall. intros y Hy. apply in_map_iff in Hy as (x & <- & Hx).
    rewrite validate_setSeriesId. apply filter_In in Hx as [Hx _].
    pose proof (wf_pending_valid w WF) as Hv. rewrite Forall_forall in Hv. auto. }
  { rewrite map_map. cbn [setSeriesId ce_episode].
    unfold T, pendingEpisodeOf.
    rewrite filter_andb.
    apply NoDup_map_filter. apply (wf_pending_index w WF). }
  { intros ep _. rewrite A4. apply find_none_all. intros x Hx.
    unfold sameEpisode. cbn [s_id newSeriesDoc].
    assert (Nat.eqb (e_seriesId x) n = false) as ->; [|reflexivity].
    apply Nat.eqb_neq. pose proof (wf_episode_refs w WF x Hx). unfold n. lia. }
  rewrite Hinner in Hinner'. inversion Hinner'; subst w1. clear Hinner'.
  cbn [s_id newSeriesDoc] in E1. rewrite numberedEpisodeDocs_setSeriesId in E1.
  rewrite map_map in C1. cbn [setSeriesId ce_id] in C1.
  rewrite length_map in N1.
  exists w'. split; [exact Hbody|]. split; [exact F'|].
  split; [|split; [lia|split; [congruence|split; [congruence|split]]]].
  - constructor.
    + intros s Hs. rewrite B3, A3 in Hs. apply in_app_or in Hs as [Hs|[<-|[]]].
      * pose proof (wf_series_ids w WF s Hs). fold n in H. lia.
      * cbn. lia.
    + intros e He. rewrite E1, A4 in He. apply in_app_or in He as [He|He].
      * pose proof (wf_episode_refs w WF e He). fold n in H. lia.
      * apply numberedEpisodeDocs_In in He as (ep & id & _ & _ & ->). cbn. lia.
    + intros e s He Hs. rewrite C1, A2 in He. apply In_deleteWhere in He as [He _].
      apply In_updateWhere in He as (x & Hx & ->).
      destruct (idIs (css_id cs) (ce_comingSoonSeriesId x)).
      * cbn in Hs. inversion Hs; subst s. lia.
      * pose proof (wf_pending_refs w WF x s Hx Hs). fold n in H. lia.
    + rewrite B1, A1. apply NoDup_map_filter. apply (wf_series_unique w WF).
    + rewrite C1, A2. apply NoDup_map_filter. rewrite map_id_updateWhere.
      apply (wf_pending_unique w WF).
    + intros c. rewrite C1, A2. unfold deleteWhere, updateWhere.
      apply index_kept.
      * intros x. now destruct (idIs (css_id cs) (ce_comingSoonSeriesId x)).
      * intros x. now destruct (idIs (css_id cs) (ce_comingSoonSeriesId x)).
      * apply (wf_pending_index w WF).
    + rewrite C1, A2. apply Forall_forall. intros y Hy.
      apply In_deleteWhere in Hy as [Hy _]. apply In_updateWhere in Hy as (x & Hx & ->).
      pose proof (wf_pending_valid w WF) as Hv. rewrite Forall_forall in Hv.
      destruct (idIs (css_id cs) (ce_comingSoonSeriesId x)); [rewrite validate_setSeriesId|];
        auto.
  - rewrite E1, A4, An. reflexivity.
  - rewrite C1, A2. reflexivity.
Qed.

Lemma pendingEpisodeOf_iff cid ep :
  pendingEpisodeOf cid ep = true <->
  ce_comingSoonSeriesId ep = Some cid /\ ce_status ep = StPending.
Proof.
  unfold pendingEpisodeOf, idIs. rewrite andb_true_iff. split.
  - intros [H1 H2]. destruct (ce_comingSoonSeriesId ep) as [c|]; [|discriminate].
    apply Nat.eqb_eq in H1. subst c. split; [reflexivity|].
    now destruct (ce_status ep).
  - intros [-> ->]. now rewrite Nat.eqb_refl.
Qed.

(** A calm pass of the Series Promoter's loop in a well-formed store: every
    item gets its live series, and every pending episode of the item its live
    episode under that series. *)
Lemma seriesLoop_wf l : forall w,
  faults w = [] -> WellFormed w -> NoDup (map css_id l) ->
  exists w',
    forOf l seriesLoopBody w = (Normal Next, w') /\
    faults w' = [] /\ WellFormed w' /\
    (nextObjectId w <= nextObjectId w')%nat /\
    grows db_Series w w' /\ grows db_Episode w w' /\
    incl (map ce_id (db_ComingSoonEpisode w')) (map ce_id (db_ComingSoonEpisode w)) /\
    forall cs, In cs l ->
      exists n,
        (nextObjectId w <= n)%nat /\
        In (newSeriesDoc n cs) (db_Series w') /\
        forall ep, In ep (db_ComingSoonEpisode w) ->
                   pendingEpisodeOf (css_id cs) ep = true ->
                   (exists id, In (newEpisodeDoc id n ep) (db_Episode w')) /\
                   ~ In (ce_id ep) (map ce_id (db_ComingSoonEpisode w')).
Proof.
  induction l as [|cs0 l IH]; intros w Hw WF ND.
  - exists w. split; [reflexivity|]. split; [exact Hw|]. split; [exact WF|].
    split; [lia|]. split; [exists []; now rewrite app_nil_r|].
    split; [exists []; now rewrite app_nil_r|]. split; [apply incl_refl|].
    intros cs [].
  - inversion ND as [|? ? Hnot ND']; subst.
    destruct (seriesLoopBody_wf cs0 w Hw WF)
      as (w1 & Hbody & F1 & WF1 & N1 & S1 & CS1 & E1 & C1).
    destruct (IH w1 F1 WF1 ND') as (w' & Hloop & F' & WF' & N' & GS & GE & Hincl & Hall).
    set (T := filter (pendingEpisodeOf (css_id cs0)) (db_ComingSoonEpisode w)) in *.
    assert (forall ep, In ep (db_ComingSoonEpisode w) ->
                       pendingEpisodeOf (css_id cs0) ep = false ->
                       idIn (map ce_id T) (ce_id ep) = false) as Hout.
    { intros ep Hep Hp.
      destruct (idIn (map ce_id T) (ce_id ep)) eqn:K; [|reflexivity]. exfalso.
      apply existsb_eqb_In in K. apply in_map_iff in K as (t & Eid & Ht).
      apply filter_In in Ht as [Ht Hpt].
      assert (t = ep)
        by exact (NoDup_map_In_eq ce_id _ t ep (wf_pending_unique w WF) Ht Hep Eid).
      subst t. congruence. }
    exists w'. split; [|split; [exact F'|split; [exact WF'|split; [lia|split; [|split;
                 [|split]]]]]].
    + simpl. unfold bind. now rewrite Hbody.
    + destruct GS as [l2 G2]. exists ([newSeriesDoc (nextObjectId w) cs0] ++ l2).
      now rewrite G2, S1, app_assoc.
    + destruct GE as [l2 G2]. eexists. rewrite G2, E1, <- app_assoc. reflexivity.
    + eapply incl_tran; [exact Hincl|]. rewrite C1. intros id Hid.
      apply in_map_iff in Hid as (x & <- & Hx). apply In_deleteWhere in Hx as [Hx _].
      rewrite <- (map_id_updateWhere (fun e => idIs (css_id cs0) (ce_comingSoonSeriesId e))
                                     (nextObjectId w)).
      now apply in_map.
    + intros cs [<-|Hcs].
      * exists (nextObjectId w). split; [lia|]. split.
        -- destruct GS as [l2 G2]. rewrite G2, S1. apply in_or_app. left.
           apply in_or_app. right. now left.
        -- intros ep Hep Hp. assert (In ep T) as HT by (apply filter_In; auto). split.
           ++ destruct (In_numberedEpisodeDocs (S (S (nextObjectId w))) (nextObjectId w)
                                               T ep HT) as [id Hid].
              exists id. destruct GE as [l2 G2]. rewrite G2, E1.
              apply in_or_app. left. apply in_or_app. now right.
           ++ intros Hin. apply Hincl in Hin. rewrite C1 in Hin.
              apply in_map_iff in Hin as (x & Eid & Hx).
              apply In_deleteWhere in Hx as [_ Hx].
              assert (idIn (map ce_id T) (ce_id x) = true) as K; [|congruence].
              apply existsb_eqb_In. rewrite Eid. now apply in_map.
      * destruct (Hall cs Hcs) as (n & Hn & HS & Heps).
        exists n. split; [lia|]. split; [exact HS|].
        intros ep Hep Hp. apply Heps; [|exact Hp].
        assert (css_id cs <> css_id cs0) as Hne.
        { intros E. apply Hnot. rewrite <- E. now apply in_map. }
        assert (idIs (css_id cs0) (ce_comingSoonSeriesId ep) = false) as Hlink.
        { apply pendingEpisodeOf_iff in Hp as [Hc _]. rewrite Hc. cbn.
          now apply Nat.eqb_neq. }
        rewrite C1. apply In_deleteWhere. split.
        -- now apply In_updateWhere_other.
        -- apply Hout; [exact Hep|]. unfold pendingEpisodeOf. now rewrite Hlink.
Qed.

Lemma WellFormed_store w w0 :
  store w0 = store w -> nextObjectId w0 = nextObjectId w -> WellFormed w -> WellFormed w0.
Proof.
  intros Hs Hn WF. apply store_eq in Hs as (A1 & A2 & A3 & A4 & A5).
  destruct WF as [W1 W2 W3 W4 W5 W6 W7].
  constructor; rewrite ?A1, ?A2, ?A3, ?A4, ?Hn; auto.
Qed.

(** C2.  Let the store not disturb the run and be well formed.  When the
    Series Promoter promotes a due series, then in the same run -- the Episode
    Promoter is not involved -- every coming-soon episode that is still
    pending and linked to it, by [comingSoonSeriesId] or by a [seriesId]
    naming the new live series, gets a live episode under the new series and
    leaves the coming-soon collection.  The live episode carries the episode
    number, the counts (0 where absent) and, trimmed, the title (empty where
    absent), the video URL and the thumbnail of the coming-soon episode.  The
    scheduled date of the episode plays no part. *)
Theorem series_release_takes_its_episodes (w : World) (comingSoonSeries : ComingSoonSeries) :
  faults w = [] ->
  WellFormed w ->
  In comingSoonSeries (db_ComingSoonSeries w) ->
  css_status comingSoonSeries = StPending ->
  css_scheduledReleaseDate comingSoonSeries <= clock w ->
  exists w' newSeriesId,
    releaseComingSoonSeries w = (Normal tt, w') /\
    In (newSeriesDoc newSeriesId comingSoonSeries) (db_Series w') /\
    ~ In newSeriesId (map s_id (db_Series w)) /\
    forall episode,
      In episode (db_ComingSoonEpisode w) ->
      ce_status episode = StPending ->
      ce_comingSoonSeriesId episode = Some (css_id comingSoonSeries) \/
      ce_seriesId episode = Some newSeriesId ->
      (exists newEpisode,
          In newEpisode (db_Episode w') /\
          ~ In newEpisode (db_Episode w) /\
          e_seriesId newEpisode = newSeriesId /\
          e_episode newEpisode = ce_episode episode /\
          e_title newEpisode = trim (orElse (ce_title episode) EmptyString) /\
          e_coin newEpisode = orElse (ce_coin episode) 0 /\
          e_views newEpisode = orElse (ce_views episode) 0 /\
          e_coinEarned newEpisode = orElse (ce_coinEarned episode) 0 /\
          e_videoUrl newEpisode = trim (ce_videoUrl episode) /\
          e_videoThumbnail newEpisode = option_map trim (ce_videoThumbnail episode)) /\
      (forall x, In x (db_ComingSoonEpisode w') -> ce_id x <> ce_id episode).
Proof.
  intros Hw WF Hin Hst Hdue.
  set (l := filter (dueSeries (clock w)) (db_ComingSoonSeries w)).
  assert (In comingSoonSeries l) as Hl.
  { apply filter_In. split; [exact Hin|]. now apply dueSeries_iff. }
  assert (NoDup (map css_id l)) as NDl
    by (apply NoDup_map_filter; apply (wf_series_unique w WF)).
  destruct (releaseComingSoonSeries_calm w Hw) as (w' & Hrun & _).
  destruct (releaseComingSoonSeries_run w _ _ Hrun) as [_ [Hsame|Hloop]].
  { destruct Hsame as (_ & _ & _ & [Hf|Hnil]).
    - rewrite Hw in Hf. now elim Hf.
    - fold l in Hnil. rewrite Hnil in Hl. destruct Hl. }
  destruct Hloop as (_ & _ & w0 & c & w1 & Hs0 & N0 & _ & F0 & _ & _ & Hfor & Hs1 & _).
  fold l in Hfor. rewrite Hw in F0. cbn in F0.
  pose proof (WellFormed_store w w0 Hs0 N0 WF) as WF0.
  destruct (seriesLoop_wf l w0 F0 WF0 NDl)
    as (w1' & Hfor' & _ & _ & _ & _ & _ & _ & Hall).
  rewrite Hfor in Hfor'. inversion Hfor'; subst w1'. clear Hfor'.
  apply store_eq in Hs0 as (A1 & A2 & A3 & A4 & A5).
  apply store_eq in Hs1 as (B1 & B2 & B3 & B4 & B5).
  destruct (Hall comingSoonSeries Hl) as (n & Hn & HS & Heps).
  rewrite N0 in Hn.
  exists w', n. split; [exact Hrun|]. split; [now rewrite B3|]. split.
  - intros H. apply in_map_iff in H as (s & E & Hs).
    pose proof (wf_series_ids w WF s Hs). lia.
  - intros episode Hep Hpend [Hlink|Hlink].
    + rewrite <- A2 in Hep.
      destruct (Heps episode Hep) as [(id & Hid) Hgone].
      { apply pendingEpisodeOf_iff. auto. }
      split.
      * exists (newEpisodeDoc id n episode). split; [now rewrite B4|].
        split; [|cbn; repeat split].
        intros Hold. pose proof (wf_episode_refs w WF _ Hold) as K. cbn in K. lia.
      * intros x Hx Heq. apply Hgone. rewrite <- Heq, <- B2. now apply in_map.
    + exfalso. pose proof (wf_pending_refs w WF episode n Hep Hlink). lia.
Qed.

Lemma sample_w1_wellFormed : WellFormed Sample.w1.
Proof.
  constructor; cbn.
  - intros s [].
  - intros e [].
  - intros e s [<-|[]] H. discriminate H.
  - repeat constructor; intros [].
  - repeat constructor; intros [].
  - intros [|[|c]]; cbn; repeat constructor; intros [].
  - repeat constructor.
Qed.

Lemma series_release_takes_its_episodes_witness :
  faults Sample.w1 = [] /\
  In (Sample.aSeries 1 "X" 999 StPending) (db_ComingSoonSeries Sample.w1) /\
  css_scheduledReleaseDate (Sample.aSeries 1 "X" 999 StPending) <= clock Sample.w1 /\
  clock Sample.w1 < ce_scheduledReleaseDate (Sample.anEpisode 2 None (Some 1%nat) 1 4600) /\
  exists w' newSeriesId newEpisode,
    releaseComingSoonSeries Sample.w1 = (Normal tt, w') /\
    In (newSeriesDoc newSeriesId (Sample.aSeries 1 "X" 999 StPending)) (db_Series w') /\
    In newEpisode (db_Episode w') /\
    e_seriesId newEpisode = newSeriesId /\ e_episode newEpisode = 1 /\
    e_title newEpisode = "t"%string /\ e_videoUrl newEpisode = "v.mp4"%string.
Proof.
  assert (In (Sample.aSeries 1 "X" 999 StPending) (db_ComingSoonSeries Sample.w1)) as Hin
    by (left; reflexivity).
  assert (css_scheduledReleaseDate (Sample.aSeries 1 "X" 999 StPending)
          <= clock Sample.w1) as Hdue by (cbn; lia).
  destruct (series_release_takes_its_episodes
              Sample.w1 (Sample.aSeries 1 "X" 999 StPending)
              eq_refl sample_w1_wellFormed Hin eq_refl Hdue)
    as (w' & n & Hrun & HS & _ & Heps).
  destruct (Heps (Sample.anEpisode 2 None (Some 1%nat) 1 4600)
                 (or_introl eq_refl) eq_refl (or_introl eq_refl))
    as [(y & Hy & _ & Y1 & Y2 & Y3 & _ & _ & _ & Y4 & _) _].
  split; [reflexivity|]. split; [exact Hin|]. split; [exact Hdue|].
  split; [cbn; lia|].
  exists w', n, y. auto 10.
Defined.

(** ** The cron callback *)

(** One tick runs the Series Promoter to its end, then the Episode Promoter,
    and throws nothing. *)
Lemma cronTick_in_order w :
  exists w1 w2,
    releaseComingSoonSeries w = (Normal tt, w1) /\
    releaseComingSoonEpisodes w1 = (Normal tt, w2) /\
    cronTick w = (Normal tt, w2).
Proof.
  destruct (releaseComingSoonSeries_normal w) as [w1 H1].
  destruct (releaseComingSoonEpisodes_normal w1) as [w2 H2].
  exists w1, w2. split; [exact H1|]. split; [exact H2|].
  unfold cronTick, bind. now rewrite H1.
Qed.

(** ** The scenario of the specification *)

(** Series "X" was due a moment ago, its episode 1 is scheduled an hour
    later.  After one run of the Series Promoter the live series and the live
    episode exist, both coming-soon records are gone, and the transfer log has
    one entry. *)
Example release_with_parent_scenario :
  releaseComingSoonSeries Sample.w1 = (Normal tt, Sample.w1Released) /\
  db_Series Sample.w1Released = [newSeriesDoc 100 (Sample.aSeries 1 "X" 999 StPending)] /\
  db_Episode Sample.w1Released
    = [newEpisodeDoc 102 100 (Sample.anEpisode 2 None (Some 1%nat) 1 4600)] /\
  db_ComingSoonSeries Sample.w1Released = [] /\
  db_ComingSoonEpisode Sample.w1Released = [] /\
  db_SeriesTransferLog Sample.w1Released
    = [transferLogDoc 100 (Sample.aSeries 1 "X" 999 StPending) 1000] /\
  errors Sample.w1Released = [].
Proof. repeat split; reflexivity. Qed.


(** * Invariants of a whole tick, under any fault script *)

Lemma keeps_weaken (R1 R2 : World -> World -> Prop) {A} (m : M A) :
  (forall w w', R1 w w' -> R2 w w') -> keeps R1 m -> keeps R2 m.
Proof. intros Hsub Hk w c w' Hrun. apply Hsub. exact (Hk w c w' Hrun). Qed.

Lemma keeps_snd (R : World -> World -> Prop) {A} (m : M A) w :
  keeps R m -> R w (snd (m w)).
Proof. intros Hk. destruct (m w) as [c w'] eqn:E. exact (Hk w c w' E). Qed.

(** A query followed by code that depends on the state the query saw. *)
Lemma keeps_query_then (R : World -> World -> Prop) {FR : Frame R} {A B}
    (c : StoreCall) (f : World -> A) (k : A -> M B) :
  (forall w1 r w', k (f w1) w1 = (r, w') -> R w1 w') ->
  keeps R (bind (query c f) k).
Proof.
  intros Hk w r w'. unfold bind, query, call, gets, bind.
  destruct (hd None (faults w)) eqn:Hf; intros H.
  - inversion H; subst. eapply frame_trans; [apply frame_emit | apply frame_faults].
  - eapply frame_trans; [|exact (Hk _ _ _ H)].
    eapply frame_trans; [apply frame_emit | apply frame_faults].
Qed.

(** ** The live collections are append-only *)

Lemma cronTick_grows_Series : keeps (grows db_Series) cronTick.
Proof. keeps_auto; grows_eq. Qed.

Lemma cronTick_grows_Episode : keeps (grows db_Episode) cronTick.
Proof. keeps_auto; grows_eq. Qed.

Lemma cronTick_grows_Log : keeps (grows db_SeriesTransferLog) cronTick.
Proof. keeps_auto; grows_eq. Qed.

(** X1. Whatever the store rejects during a tick, the live series, the live
    episodes and the transfer log only get longer at their end: the job never
    edits or deletes a record of these three collections. *)
Theorem live_collections_append_only (w : World) :
  grows db_Series w (snd (cronTick w)) /\
  grows db_Episode w (snd (cronTick w)) /\
  grows db_SeriesTransferLog w (snd (cronTick w)).
Proof.
  split; [|split]; apply keeps_snd.
  - apply cronTick_grows_Series.
  - apply cronTick_grows_Episode.
  - apply cronTick_grows_Log.
Qed.

(** ** The Episode Promoter writes to two collections only *)

Lemma releaseComingSoonEpisodes_scope :
  keeps (unchanged (fun w => (db_ComingSoonSeries w, db_Series w, db_SeriesTransferLog w)))
        releaseComingSoonEpisodes.
Proof. keeps_auto; world_eq. Qed.

(** X2. [releaseComingSoonEpisodes] reads the transfer log but never writes to
    it, nor to the coming-soon series or the live series, whatever the store
    rejects. *)
Theorem episode_promoter_leaves_series_alone (w : World) :
  db_ComingSoonSeries (snd (releaseComingSoonEpisodes w)) = db_ComingSoonSeries w /\
  db_Series (snd (releaseComingSoonEpisodes w)) = db_Series w /\
  db_SeriesTransferLog (snd (releaseComingSoonEpisodes w)) = db_SeriesTransferLog w.
Proof.
  pose proof (keeps_snd _ _ w releaseComingSoonEpisodes_scope) as H.
  unfold unchanged in H. inversion H. auto.
Qed.

(** ** Coming-soon records are never created, and edited in two fields only *)

Lemma derived_frame {X} (edit : X -> X -> Prop) (f : World -> list X) :
  (forall x, edit x x) ->
  (forall x y z, edit x y -> edit y z -> edit x z) ->
  (forall w ev, f (emit ev w) = f w) ->
  (forall w fs, f (with_faults fs w) = f w) ->
  Frame (derived edit f).
Proof.
  intros Hrefl Htrans He Hf. split; unfold derived.
  - intros w. apply Forall_forall. intros y Hy. eauto.
  - intros a b c Hab Hbc. rewrite Forall_forall in *. intros z Hz.
    destruct (Hbc z Hz) as (y & Hy & Eyz). destruct (Hab y Hy) as (x & Hx & Exy). eauto.
  - intros w ev. rewrite He. apply Forall_forall. eauto.
  - intros w fs. rewrite Hf. apply Forall_forall. eauto.
Qed.

Lemma seriesEdit_refl s : seriesEdit s s.
Proof. now left. Qed.

Lemma seriesEdit_trans a b c : seriesEdit a b -> seriesEdit b c -> seriesEdit a c.
Proof.
  unfold seriesEdit. intros [->| ->] [->| ->]; auto.
Qed.

#[export] Instance seriesEdit_frame : Frame (derived seriesEdit db_ComingSoonSeries).
Proof.
  apply derived_frame; [exact seriesEdit_refl | exact seriesEdit_trans | |];
    intros [? ? ? ? ? ? ? ? ? ? ?] ?; reflexivity.
Qed.

Lemma episodeEdit_refl e : episodeEdit e e.
Proof. unfold episodeEdit. auto. Qed.

Lemma episodeEdit_trans a b c : episodeEdit a b -> episodeEdit b c -> episodeEdit a c.
Proof.
  unfold episodeEdit. intros (C1 & S1 & T1) (C2 & S2 & T2). split; [congruence|]. split.
  - destruct S2 as [S2|S2]; [rewrite S2; exact S1 | now right].
  - destruct T2 as [T2|T2]; [rewrite T2; exact T1 | now right].
Qed.

#[export] Instance episodeEdit_frame : Frame (derived episodeEdit db_ComingSoonEpisode).
Proof.
  apply derived_frame; [exact episodeEdit_refl | exact episodeEdit_trans | |];
    intros [? ? ? ? ? ? ? ? ? ? ?] ?; reflexivity.
Qed.

Lemma derived_same {X} (edit : X -> X -> Prop) (l : list X) :
  (forall x, edit x x) -> Forall (fun y => exists x, In x l /\ edit x y) l.
Proof. intros Hrefl. apply Forall_forall. eauto. Qed.

Lemma derived_updateWhere {X} (edit : X -> X -> Prop) (p : X -> bool) (g : X -> X)
    (l : list X) :
  (forall x, edit x x) -> (forall x, edit x (g x)) ->
  Forall (fun y => exists x, In x l /\ edit x y) (updateWhere p g l).
Proof.
  intros Hrefl Hg. apply Forall_forall. intros y Hy.
  apply In_updateWhere in Hy as (x & Hx & ->). exists x. split; [exact Hx|].
  destruct (p x); auto.
Qed.

Lemma derived_deleteWhere {X} (edit : X -> X -> Prop) (p : X -> bool) (l : list X) :
  (forall x, edit x x) ->
  Forall (fun y => exists x, In x l /\ edit x y) (deleteWhere p l).
Proof.
  intros Hrefl. apply Forall_forall. intros y Hy.
  apply In_deleteWhere in Hy as [Hy _]. eauto.
Qed.

Ltac derived_prim :=
  intros [? ? ? ? ? ? ? ? ? ? ?]; unfold derived; cbn -[updateWhere deleteWhere];
  first [ apply derived_same; first [exact seriesEdit_refl | exact episodeEdit_refl]
        | apply derived_deleteWhere; first [exact seriesEdit_refl | exact episodeEdit_refl]
        | apply derived_updateWhere;
          [ first [exact seriesEdit_refl | exact episodeEdit_refl]
          | intros ?; unfold seriesEdit, episodeEdit; cbn; eauto 6 ] ].

Lemma cronTick_series_derived : keeps (derived seriesEdit db_ComingSoonSeries) cronTick.
Proof. keeps_auto; derived_prim. Qed.

Lemma cronTick_episodes_derived : keeps (derived episodeEdit db_ComingSoonEpisode) cronTick.
Proof. keeps_auto; derived_prim. Qed.

(** X3. After a tick, under any fault script, every coming-soon series in the
    store is a record that was there before, either as it was or with its
    status set to released: the job creates no coming-soon series and writes
    to no other field of one. *)
Theorem pending_series_only_marked (w : World) :
  Forall (fun s' => exists s, In s (db_ComingSoonSeries w) /\
                              (s' = s \/ s' = setSeriesStatus StReleased s))
         (db_ComingSoonSeries (snd (cronTick w))).
Proof. exact (keeps_snd _ _ w cronTick_series_derived). Qed.

(** X4. After a tick, under any fault script, every coming-soon episode in
    the store comes from one that was there before and differs from it at most
    in [seriesId] and in a status set to released; its number, title, coins,
    video and release date are as they were. *)
Theorem pending_episodes_keep_content (w : World) :
  Forall (fun e' => exists e, In e (db_ComingSoonEpisode w) /\
                              episodeContent e' = episodeContent e /\
                              (ce_status e' = ce_status e \/ ce_status e' = StReleased))
         (db_ComingSoonEpisode (snd (cronTick w))).
Proof.
  pose proof (keeps_snd _ _ w cronTick_episodes_derived) as H.
  unfold derived in H. rewrite Forall_forall in *. intros e' He'.
  destruct (H e' He') as (e & He & C & _ & T). eauto.
Qed.

(** ** An episode that points to no series *)

Ltac keeps_with tac := repeat first [ tac | keeps_step ].

#[export] Instance staysPut_frame e : Frame (staysPut e).
Proof.
  split; unfold staysPut.
  - auto.
  - auto.
  - intros [? ? ? ? ? ? ? ? ? ? ?] ev H. exact H.
  - intros [? ? ? ? ? ? ? ? ? ? ?] fs H. exact H.
Qed.

Lemma filter_updateWhere_apart {A} (p q : A -> bool) (g : A -> A) (l : list A) :
  (forall x, In x l -> p x = true -> q x = false) ->
  (forall x, q x = true -> p (g x) = p x) ->
  filter p (updateWhere q g l) = filter p l.
Proof.
  intros Hapart Hg. unfold updateWhere. induction l as [|a l IH]; [reflexivity|].
  cbn [map filter]. rewrite IH by (intros x Hx; apply Hapart; now right).
  destruct (q a) eqn:Eq; [|reflexivity].
  rewrite (Hg a Eq). destruct (p a) eqn:Ep; [|reflexivity].
  rewrite (Hapart a (or_introl eq_refl) Ep) in Eq. discriminate.
Qed.

Lemma filter_deleteWhere_apart {A} (p q : A -> bool) (l : list A) :
  (forall x, In x l -> p x = true -> q x = false) ->
  filter p (deleteWhere q l) = filter p l.
Proof.
  intros Hapart. induction l as [|a l IH]; [reflexivity|].
  unfold deleteWhere in *. cbn [filter].
  rewrite <- IH by (intros x Hx; apply Hapart; now right).
  destruct (p a) eqn:Ep.
  - rewrite (Hapart a (or_introl eq_refl) Ep). cbn [negb filter]. now rewrite Ep.
  - destruct (q a); cbn [negb filter]; [reflexivity | now rewrite Ep].
Qed.

Lemma id_apart (i j : ObjectId) (x : ComingSoonEpisode) :
  j <> i -> Nat.eqb (ce_id x) i = true -> Nat.eqb (ce_id x) j = false.
Proof.
  intros Hne E. apply Nat.eqb_eq in E. apply Nat.eqb_neq. congruence.
Qed.

Ltac withId_prim Hne :=
  intros [? ? ? ? ? ? ? ? ? ? ?]; unfold unchanged, episodesWithId;
  cbn -[updateWhere deleteWhere];
  first [ reflexivity
        | apply filter_updateWhere_apart;
          [ intros ? _; apply id_apart; exact Hne | intros ? _; reflexivity ]
        | apply filter_deleteWhere_apart; intros ? _; apply id_apart; exact Hne ].

(** The iterations for other ids leave the records of the id [i] as they
    are. *)
Lemma seriesEpisodeLoopBody_otherId i newSeries episode :
  ce_id episode <> i ->
  keeps (unchanged (episodesWithId i)) (seriesEpisodeLoopBody newSeries episode).
Proof. intros Hne. keeps_auto; withId_prim Hne. Qed.

Lemma episodeLoopBody_otherId i comingSoonEpisode :
  ce_id comingSoonEpisode <> i ->
  keeps (unchanged (episodesWithId i)) (episodeLoopBody comingSoonEpisode).
Proof. intros Hne. keeps_auto; withId_prim Hne. Qed.

Lemma unchanged_staysPut e w w' :
  unchanged (episodesWithId (ce_id e)) w w' -> staysPut e w w'.
Proof. unfold unchanged, staysPut. intros ->. auto. Qed.

Ltac staysPut_quiet :=
  intros [? ? ? ? ? ? ? ? ? ? ?]; unfold staysPut, episodesWithId; cbn; auto.

Lemma withId_In e w x :
  episodesWithId (ce_id e) w = [e] ->
  In x (db_ComingSoonEpisode w) -> ce_id x = ce_id e -> x = e.
Proof.
  intros Hput Hx E.
  assert (In x (episodesWithId (ce_id e) w)) as Hin.
  { apply filter_In. split; [exact Hx | now apply Nat.eqb_eq]. }
  rewrite Hput in Hin. destruct Hin as [<-|[]]. reflexivity.
Qed.

Lemma releaseSeries_staysPut e comingSoonSeries :
  ce_seriesId e = None -> ce_comingSoonSeriesId e = None ->
  keeps (staysPut e) (releaseSeries comingSoonSeries).
Proof.
  intros Hs Hc. unfold releaseSeries.
  repeat lazymatch goal with
  | |- keeps _ (bind (ComingSoonEpisode_findOfSeries _ _) _) => fail
  | |- keeps _ (bind (ComingSoonEpisode_relink _ _) _) =>
      apply (@keeps_bind (staysPut e) _); [ | intro ]
  | |- keeps _ (ComingSoonEpisode_relink _ _) => idtac
  | |- keeps ?R (bind _ _) =>
      apply (@keeps_bind R _); [ solve [keeps_auto; staysPut_quiet] | intro ]
  | |- keeps _ (let _ := _ in _) => cbv zeta
  end.
  - (* updateMany: the record has no comingSoonSeriesId *)
    keeps_auto. intros w Hput. unfold episodesWithId in *.
    destruct w as [cs ce sr ep lg n clk fs tr rel errs]; cbn -[updateWhere] in *.
    rewrite filter_updateWhere_apart; [exact Hput | | intros ? _; reflexivity].
    intros x Hx E.
    assert (In x (filter (fun y => Nat.eqb (ce_id y) (ce_id e)) ce)) as Hin
      by (apply filter_In; auto).
    rewrite Hput in Hin. destruct Hin as [<-|[]]. now rewrite Hc.
  - (* the episodes found for the series are other records *)
    unfold ComingSoonEpisode_findOfSeries. apply (@keeps_query_then (staysPut e) _).
    intros w1 r w' Hrun Hput.
    assert (forall x, In x (filter (episodeOfSeries (s_id (newSeriesDoc a comingSoonSeries))
                                                (css_id comingSoonSeries))
                                   (db_ComingSoonEpisode w1)) -> ce_id x <> ce_id e) as Hother.
    { intros x Hx E. apply filter_In in Hx as [Hx Hof].
      rewrite (withId_In e w1 x Hput Hx E) in Hof.
      unfold episodeOfSeries in Hof. rewrite Hs, Hc in Hof. discriminate. }
    revert Hput. revert Hrun. revert r w'. revert w1 Hother. intros w1.
    generalize (filter (episodeOfSeries (s_id (newSeriesDoc a comingSoonSeries))
                                        (css_id comingSoonSeries))
                       (db_ComingSoonEpisode w1)).
    intros eps Hother r w'.
    assert (keeps (staysPut e)
              (if Nat.ltb 0 (length eps)
               then console LOG (SeriesEpisodesReleasing (length eps)
                                   (s_title (newSeriesDoc a comingSoonSeries))) ;;
                    forOf eps (seriesEpisodeLoopBody (newSeriesDoc a comingSoonSeries)) ;;
                    ret Next
               else ret Next)) as K.
    { keeps_with ltac:(idtac; match goal with
                       | Hin : In ?x eps |- keeps _ (seriesEpisodeLoopBody _ ?x) =>
                           apply (keeps_weaken _ _ _ (unchanged_staysPut e));
                           apply seriesEpisodeLoopBody_otherId; apply Hother; exact Hin
                       end); staysPut_quiet. }
    exact (K w1 r w').
Qed.

Lemma releaseComingSoonSeries_staysPut e :
  ce_seriesId e = None -> ce_comingSoonSeriesId e = None ->
  keeps (staysPut e) releaseComingSoonSeries.
Proof.
  intros Hs Hc.
  keeps_with ltac:(apply (releaseSeries_staysPut e); assumption); staysPut_quiet.
Qed.

Lemma releaseEpisode_unlinked e :
  ce_seriesId e = None -> ce_comingSoonSeriesId e = None ->
  releaseEpisode e
  = (console WARN (EpisodeSkippedNoSeries (ce_id e)) ;; ret Next).
Proof. intros Hs Hc. unfold releaseEpisode. now rewrite Hs, Hc. Qed.

Lemma episodeLoop_staysPut e l :
  ce_seriesId e = None -> ce_comingSoonSeriesId e = None ->
  (forall x, In x l -> ce_id x = ce_id e -> x = e) ->
  keeps (staysPut e) (forOf l episodeLoopBody).
Proof.
  intros Hs Hc Hsame. apply keeps_forOf; [apply staysPut_frame|]. intros x Hx.
  destruct (Nat.eq_dec (ce_id x) (ce_id e)) as [E|Hne].
  - rewrite (Hsame x Hx E). unfold episodeLoopBody.
    rewrite (releaseEpisode_unlinked e Hs Hc). keeps_auto; staysPut_quiet.
  - apply (keeps_weaken _ _ _ (unchanged_staysPut e)).
    now apply episodeLoopBody_otherId.
Qed.

Lemma releaseComingSoonEpisodes_staysPut e :
  ce_seriesId e = None -> ce_comingSoonSeriesId e = None ->
  keeps (staysPut e) releaseComingSoonEpisodes.
Proof.
  intros Hs Hc. unfold releaseComingSoonEpisodes.
  apply (@keeps_bind (staysPut e) _); [keeps_auto; staysPut_quiet | intro].
  apply (@keeps_tryCatch (staysPut e) _); [ | intro; keeps_auto ].
  apply (@keeps_bind (staysPut e) _); [keeps_auto | intro now].
  unfold ComingSoonEpisode_findDue. apply (@keeps_query_then (staysPut e) _).
  intros w1 r w' Hrun Hput.
  assert (forall x, In x (filter (dueEpisode now) (db_ComingSoonEpisode w1)) ->
                    ce_id x = ce_id e -> x = e) as Hsame.
  { intros x Hx E. apply filter_In in Hx as [Hx _]. exact (withId_In e w1 x Hput Hx E). }
  revert Hput. revert Hrun. revert r w'. revert w1 Hsame. intros w1.
  generalize (filter (dueEpisode now) (db_ComingSoonEpisode w1)).
  intros eps Hsame r w'.
  assert (keeps (staysPut e)
            (if Nat.eqb (length eps) 0 then ret tt
             else
               console LOG (EpisodesFound (length eps)) ;;
               forOf eps episodeLoopBody ;;
               rel <- gets released ;;
               (if Nat.ltb 0 (length rel)
                then console LOG (EpisodesReleasedCount (length rel)) else ret tt) ;;
               errs <- gets errors ;;
               (if Nat.ltb 0 (length errs)
                then console ERROR (EpisodesFailedCount (length errs)) else ret tt))) as K.
  { keeps_with ltac:(apply (episodeLoop_staysPut e); assumption); staysPut_quiet. }
  exact (K w1 r w').
Qed.

Lemma cronTick_staysPut e :
  ce_seriesId e = None -> ce_comingSoonSeriesId e = None ->
  keeps (staysPut e) cronTick.
Proof.
  intros Hs Hc. unfold cronTick. apply (@keeps_bind (staysPut e) _).
  - now apply releaseComingSoonSeries_staysPut.
  - intro. now apply releaseComingSoonEpisodes_staysPut.
Qed.

Lemma episodeLoop_warns e l : forall w r w',
  ce_seriesId e = None -> ce_comingSoonSeriesId e = None ->
  faults w = [] -> In e l ->
  forOf l episodeLoopBody w = (r, w') ->
  hasSegment [Console WARN (EpisodeSkippedNoSeries (ce_id e))] w'.
Proof.
  induction l as [|x l IH]; intros w r w' Hs Hc Hcalm Hin Hrun; [contradiction|].
  destruct (episodeLoopBody_calm_next x w Hcalm) as (w2 & Hbody & Hcalm2).
  rewrite (forOf_next _ _ _ _ _ Hbody) in Hrun.
  destruct Hin as [->|Hin].
  - apply (episodeLoop_keepsSegment _ l w2 r w' Hrun).
    unfold episodeLoopBody, tryCatch in Hbody.
    rewrite (releaseEpisode_unlinked e Hs Hc) in Hbody.
    destruct w as [cs ce sr ep lg n clk fs tr rel errs].
    inversion Hbody; subst. exists tr, []. cbn. reflexivity.
  - exact (IH w2 r w' Hs Hc Hcalm2 Hin Hrun).
Qed.

(** X5. A coming-soon episode that has neither [seriesId] nor
    [comingSoonSeriesId] is never promoted and never removed: whatever the
    store rejects during a tick, the record is in the collection afterwards,
    unchanged.  In a tick without rejections in which it is due, the job
    writes the warning that it skips it. *)
Theorem unlinked_episode_is_skipped (w : World) (comingSoonEpisode : ComingSoonEpisode) :
  NoDup (map ce_id (db_ComingSoonEpisode w)) ->
  In comingSoonEpisode (db_ComingSoonEpisode w) ->
  ce_seriesId comingSoonEpisode = None ->
  ce_comingSoonSeriesId comingSoonEpisode = None ->
  In comingSoonEpisode (db_ComingSoonEpisode (snd (cronTick w))) /\
  (faults w = [] -> dueEpisode (clock w) comingSoonEpisode = true ->
   In (Console WARN (EpisodeSkippedNoSeries (ce_id comingSoonEpisode)))
      (trace (snd (cronTick w)))).
Proof.
  intros ND Hin Hs Hc.
  assert (episodesWithId (ce_id comingSoonEpisode) w = [comingSoonEpisode]) as Hput
    by (apply (filter_key_unique ce_id); assumption).
  split.
  - pose proof (keeps_snd _ _ w (cronTick_staysPut _ Hs Hc) Hput) as Hput'.
    assert (In comingSoonEpisode (episodesWithId (ce_id comingSoonEpisode) (snd (cronTick w))))
      as H by (rewrite Hput'; now left).
    apply filter_In in H as [H _]. exact H.
  - intros Hcalm Hdue.
    destruct (releaseComingSoonSeries_calm w Hcalm) as (w1 & Hrun1 & Hcalm1 & _ & Hclk & _).
    pose proof (releaseComingSoonSeries_staysPut _ Hs Hc w _ _ Hrun1 Hput) as Hput1.
    assert (In comingSoonEpisode
               (filter (dueEpisode (clock w1)) (db_ComingSoonEpisode w1))) as Hdue1.
    { apply filter_In. split; [|now rewrite Hclk].
      assert (In comingSoonEpisode (episodesWithId (ce_id comingSoonEpisode) w1)) as H
        by (rewrite Hput1; now left).
      apply filter_In in H as [H _]. exact H. }
    destruct (releaseComingSoonEpisodes w1) as [r w2] eqn:Hrun2.
    destruct (releaseComingSoonEpisodes_run w1 r w2 Hrun2) as [-> Hshape].
    assert (cronTick w = (Normal tt, w2)) as Htick
      by (unfold cronTick, bind; now rewrite Hrun1).
    rewrite Htick. cbn [snd].
    destruct Hshape as [(_ & _ & _ & [Hf|Hnone]) | (_ & _ & w0 & c & w3 & Hst & _ & _ & Hf0 &
                                                    _ & _ & Hloop & _ & _ & _ & _ & _ & Hgrow)].
    + rewrite Hcalm1 in Hf. now contradiction Hf.
    + rewrite Hnone in Hdue1. contradiction.
    + assert (faults w0 = []) as Hcalm0 by (rewrite Hf0, Hcalm1; reflexivity).
      pose proof (episodeLoop_warns _ _ w0 _ w3 Hs Hc Hcalm0 Hdue1 Hloop) as Hseg.
      apply (grows_trace_keepsSegment _ _ _ Hgrow) in Hseg.
      destruct Hseg as (before & after & ->).
      apply in_or_app. right. now left.
Qed.

Lemma unlinked_episode_is_skipped_witness :
  NoDup (map ce_id (db_ComingSoonEpisode Scenario.wLoose)) /\
  In Scenario.loose (db_ComingSoonEpisode Scenario.wLoose) /\
  faults Scenario.wLoose = [] /\
  dueEpisode (clock Scenario.wLoose) Scenario.loose = true /\
  In Scenario.loose (db_ComingSoonEpisode (snd (cronTick Scenario.wLoose))) /\
  In (Console WARN (EpisodeSkippedNoSeries 7)) (trace (snd (cronTick Scenario.wLoose))).
Proof.
  assert (NoDup (map ce_id (db_ComingSoonEpisode Scenario.wLoose))) as ND.
  { cbn. repeat constructor; cbn; intuition discriminate. }
  assert (In Scenario.loose (db_ComingSoonEpisode Scenario.wLoose)) as Hin
    by (left; reflexivity).
  destruct (unlinked_episode_is_skipped Scenario.wLoose Scenario.loose
              ND Hin eq_refl eq_refl) as [Hstay Hwarn].
  split; [exact ND|]. split; [exact Hin|]. split; [reflexivity|]. split; [reflexivity|].
  split; [exact Hstay | exact (Hwarn eq_refl eq_refl)].
Defined.


(** ** The unique index of the live episodes *)

#[export] Instance uniqueEpisodeIndex_frame : Frame uniqueEpisodeIndex.
Proof.
  split; unfold uniqueEpisodeIndex.
  - auto.
  - auto.
  - intros [? ? ? ? ? ? ? ? ? ? ?] ev H. exact H.
  - intros [? ? ? ? ? ? ? ? ? ? ?] fs H. exact H.
Qed.

Lemma find_none_key seriesId episode (l : list Episode) :
  find (sameEpisode seriesId episode) l = None ->
  ~ In (seriesId, episode) (map episodeKey l).
Proof.
  induction l as [|a l IH]; cbn [find map]; intros Hf; [intros []|].
  destruct (sameEpisode seriesId episode a) eqn:E; [discriminate|].
  intros [Ha|Hin]; [|exact (IH Hf Hin)].
  unfold episodeKey in Ha. inversion Ha; subst.
  unfold sameEpisode in E. now rewrite Nat.eqb_refl, Z.eqb_refl in E.
Qed.

Lemma NoDup_key_snoc {A B} (key : A -> B) (l : list A) (x : A) :
  NoDup (map key l) -> ~ In (key x) (map key l) -> NoDup (map key (l ++ [x])).
Proof.
  intros ND Hnew. rewrite map_app. cbn [map].
  induction (map key l) as [|b bs IH]; cbn.
  - constructor; [intros [] | constructor].
  - inversion ND as [|? ? Hb ND']; subst. constructor.
    + intros Hin. apply in_app_or in Hin as [Hin|[E|[]]]; [exact (Hb Hin)|].
      apply Hnew. now left.
    + apply IH; [exact ND'|]. intros Hin. apply Hnew. now right.
Qed.

Ltac index_new ND :=
  apply (NoDup_key_snoc episodeKey); [exact ND | cbn; apply find_none_key; assumption].

Ltac index_cases :=
  repeat first [split_fault | split_find | split_valid];
  intros H; inversion H; subst; cbn; intros ND; first [exact ND | index_new ND].

(** The check [Episode.findOne({seriesId, episode})] guards the [save]. *)
Lemma releaseEpisodeOfSeries_index newSeries episode :
  keeps uniqueEpisodeIndex (releaseEpisodeOfSeries newSeries episode).
Proof.
  intros w c w'. destruct w as [cs ce sr ep lg n clk fs tr rel errs].
  unfold uniqueEpisodeIndex, releaseEpisodeOfSeries. unfold_js. index_cases.
Qed.

Lemma releaseEpisode_index comingSoonEpisode :
  keeps uniqueEpisodeIndex (releaseEpisode comingSoonEpisode).
Proof.
  intros w c w'. destruct w as [cs ce sr ep lg n clk fs tr rel errs].
  unfold uniqueEpisodeIndex, releaseEpisode. unfold_js.
  destruct (ce_seriesId comingSoonEpisode), (ce_comingSoonSeriesId comingSoonEpisode);
    index_cases.
Qed.

Ltac index_quiet :=
  intros [? ? ? ? ? ? ? ? ? ? ?]; unfold uniqueEpisodeIndex; cbn; auto.

Lemma cronTick_index : keeps uniqueEpisodeIndex cronTick.
Proof.
  keeps_with ltac:(first [ apply releaseEpisodeOfSeries_index
                         | apply releaseEpisode_index ]); index_quiet.
Qed.

(** X6. The job keeps the unique index of the live episodes by itself: if no
    two live episodes share (seriesId, episode) before a tick, none do after
    it, whatever the store rejects in between.  Each [save] of a live episode
    comes right after a [findOne] on its key that found nothing. *)
Theorem episode_unique_index_kept (w : World) :
  NoDup (map episodeKey (db_Episode w)) ->
  NoDup (map episodeKey (db_Episode (snd (cronTick w)))).
Proof. exact (keeps_snd _ _ w cronTick_index). Qed.

Lemma episode_unique_index_kept_witness :
  NoDup (map episodeKey (db_Episode Sample.wDuplicate)) /\
  NoDup (map episodeKey (db_Episode (snd (cronTick Sample.wDuplicate)))).
Proof.
  assert (NoDup (map episodeKey (db_Episode Sample.wDuplicate))) as ND
    by (cbn; repeat constructor; intros []).
  split; [exact ND | exact (episode_unique_index_kept Sample.wDuplicate ND)].
Defined.

(** ** A tick with nothing due *)

(** X7. When no pending series and no pending episode is due, a tick only
    reads: the five collections and the id generator are afterwards as they
    were, whether or not the store rejects a call. *)
Theorem idle_tick_reads_only (w : World) :
  filter (dueSeries (clock w)) (db_ComingSoonSeries w) = [] ->
  filter (dueEpisode (clock w)) (db_ComingSoonEpisode w) = [] ->
  store (snd (cronTick w)) = store w /\
  nextObjectId (snd (cronTick w)) = nextObjectId w.
Proof.
  intros Hs He.
  destruct (releaseComingSoonSeries w) as [r1 w1] eqn:Hrun1.
  destruct (releaseComingSoonSeries_run w r1 w1 Hrun1) as [-> Hshape1].
  pose proof (releaseComingSoonSeries_clock w _ _ Hrun1) as Hclk. unfold unchanged in Hclk.
  destruct (releaseComingSoonEpisodes w1) as [r2 w2] eqn:Hrun2.
  destruct (releaseComingSoonEpisodes_run w1 r2 w2 Hrun2) as [-> Hshape2].
  assert (cronTick w = (Normal tt, w2)) as Htick
    by (unfold cronTick, bind; now rewrite Hrun1).
  rewrite Htick. cbn [snd].
  destruct Hshape1 as [(Hst1 & Hid1 & _) | (_ & Hne & _)]; [|now rewrite Hs in Hne].
  destruct Hshape2 as [(Hst2 & Hid2 & _) | (_ & Hne & _)].
  - split; congruence.
  - exfalso. apply Hne. rewrite Hclk.
    destruct (store_eq _ _ Hst1) as (_ & -> & _). exact He.
Qed.

Lemma idle_tick_reads_only_witness :
  filter (dueSeries (clock Scenario.wIdle)) (db_ComingSoonSeries Scenario.wIdle) = [] /\
  filter (dueEpisode (clock Scenario.wIdle)) (db_ComingSoonEpisode Scenario.wIdle) = [] /\
  store (snd (cronTick Scenario.wIdle)) = store Scenario.wIdle.
Proof.
  split; [reflexivity|]. split; [reflexivity|].
  exact (proj1 (idle_tick_reads_only Scenario.wIdle eq_refl eq_refl)).
Defined.

(** ** The line about the next release *)

Lemma earliest_least (l : list ComingSoonSeries) :
  l <> [] ->
  exists s, earliest l = Some s /\ In s l /\
            forall x, In x l -> css_scheduledReleaseDate s <= css_scheduledReleaseDate x.
Proof.
  induction l as [|a l IH]; intros Hne; [contradiction|].
  cbn [earliest]. destruct l as [|b l'].
  - exists a. cbn. split; [reflexivity|]. split; [now left|].
    intros x [<-|[]]. lia.
  - destruct IH as (s & -> & Hin & Hle); [discriminate|].
    destruct (css_scheduledReleaseDate s <? css_scheduledReleaseDate a) eqn:E.
    + exists s. split; [reflexivity|]. split; [now right|].
      intros x [<-|Hx]; [apply Z.ltb_lt in E; lia | now apply Hle].
    + exists a. split; [reflexivity|]. split; [now left|].
      intros x [<-|Hx]; [lia|]. apply Z.ltb_ge in E. specialize (Hle x Hx). lia.
Qed.

Lemma futureSeries_iff now s :
  futureSeries now s = true <-> css_status s = StPending /\ now < css_scheduledReleaseDate s.
Proof.
  unfold futureSeries. rewrite andb_true_iff, Z.ltb_lt.
  destruct (css_status s); cbn; intuition discriminate.
Qed.

Lemma ceilDiv_bracket a b :
  0 < b -> (ceilDiv a b - 1) * b < a <= ceilDiv a b * b.
Proof.
  intros Hpos. unfold ceilDiv.
  pose proof (Z.mul_div_le (- a) b Hpos).
  pose proof (Z.mul_succ_div_gt (- a) b Hpos).
  nia.
Qed.

(** X8. When no series is due and the store rejects nothing,
    [releaseComingSoonSeries] changes nothing in the store and only reads.
    If no pending series is scheduled for later it makes two reads, the query
    for the due series and the count of the later ones, and writes no line.
    Otherwise it makes a third read and writes one line, which names a
    pending series with the earliest release date among the pending ones.
    The branch for a count above zero with no series found is never taken. *)
Theorem next_release_is_announced (w : World) :
  faults w = [] ->
  filter (dueSeries (clock w)) (db_ComingSoonSeries w) = [] ->
  store (snd (releaseComingSoonSeries w)) = store w /\
  match filter (futureSeries (clock w)) (db_ComingSoonSeries w) with
  | [] =>
      trace (snd (releaseComingSoonSeries w))
      = trace w ++ [Call (ComingSoonSeries_find_due (clock w));
                    Call (ComingSoonSeries_countDocuments_future (clock w))]
  | _ :: _ =>
      exists nextSeries,
        In nextSeries (db_ComingSoonSeries w) /\
        css_status nextSeries = StPending /\
        clock w < css_scheduledReleaseDate nextSeries /\
        (forall s, In s (db_ComingSoonSeries w) -> css_status s = StPending ->
                   css_scheduledReleaseDate nextSeries <= css_scheduledReleaseDate s) /\
        trace (snd (releaseComingSoonSeries w))
        = trace w ++ [Call (ComingSoonSeries_find_due (clock w));
                      Call (ComingSoonSeries_countDocuments_future (clock w));
                      Call (ComingSoonSeries_findOne_future (clock w));
                      Console LOG (NoSeriesReady (css_title nextSeries)
                                                 (css_scheduledReleaseDate nextSeries))]
  end.
Proof.
  destruct w as [cs ce sr ep lg n clk fs tr rel errs].
  cbn [faults clock db_ComingSoonSeries trace].
  intros -> Hdue.
  destruct (filter (futureSeries clk) cs) as [|a l] eqn:Ef.
  - unfold releaseComingSoonSeries. unfold_js. cbn -[filter earliest]. rewrite Hdue.
    cbn -[filter earliest]. rewrite ?Ef. cbn. split; [reflexivity|].
    rewrite <- !app_assoc. reflexivity.
  - assert (filter (futureSeries clk) cs <> []) as Hfuture by (rewrite Ef; discriminate).
    destruct (earliest_least _ Hfuture) as (s & Hs & Hin & Hleast).
    apply filter_In in Hin as [Hin Hfut]. apply futureSeries_iff in Hfut as [Hpend Hlater].
    assert (snd (releaseComingSoonSeries (mkWorld cs ce sr ep lg n clk [] tr rel errs))
            = mkWorld cs ce sr ep lg n clk []
                (tr ++ [Call (ComingSoonSeries_find_due clk);
                        Call (ComingSoonSeries_countDocuments_future clk);
                        Call (ComingSoonSeries_findOne_future clk);
                        Console LOG (NoSeriesReady (css_title s)
                                                   (css_scheduledReleaseDate s))])
                [] []) as Hrun.
    { unfold releaseComingSoonSeries. unfold_js. cbn -[filter earliest]. rewrite Hdue.
      cbn -[filter earliest]. rewrite Ef in Hs. rewrite ?Ef. cbn -[earliest].
      rewrite ?Ef, Hs. cbn. rewrite <- !app_assoc. reflexivity. }
    rewrite Hrun. split; [reflexivity|].
    exists s. split; [exact Hin|]. split; [exact Hpend|]. split; [exact Hlater|].
    split; [|reflexivity].
    intros x Hx Hxp. destruct (Z.ltb_spec clk (css_scheduledReleaseDate x)) as [Hl|Hl].
    + apply Hleast. apply filter_In. split; [exact Hx|]. apply futureSeries_iff. auto.
    + exfalso.
      assert (In x (filter (dueSeries clk) cs)) as Hd.
      { apply filter_In. split; [exact Hx|]. apply dueSeries_iff. auto. }
      rewrite Hdue in Hd. contradiction.
Qed.

Lemma next_release_is_announced_witness :
  faults Scenario.wIdle = [] /\
  (exists nextSeries,
    css_title nextSeries = "Sooner"%string /\
    trace (snd (releaseComingSoonSeries Scenario.wIdle))
    = [Call (ComingSoonSeries_find_due 1000);
       Call (ComingSoonSeries_countDocuments_future 1000);
       Call (ComingSoonSeries_findOne_future 1000);
       Console LOG (NoSeriesReady (css_title nextSeries)
                                  (css_scheduledReleaseDate nextSeries))]) /\
  trace (snd (releaseComingSoonSeries Sample.wStuck))
  = [Call (ComingSoonSeries_find_due 1000);
     Call (ComingSoonSeries_countDocuments_future 1000)].
Proof.
  split; [reflexivity|]. split.
  - destruct (next_release_is_announced Scenario.wIdle eq_refl eq_refl)
      as (_ & s & Hin & Hp & _ & Hleast & Htrace).
    exists s. split; [|exact Htrace].
    assert (css_scheduledReleaseDate s <= 5000) as Hle
      by (apply (Hleast (Sample.aSeries 2 "Sooner" 5000 StPending));
          [right; left; reflexivity | reflexivity]).
    destruct Hin as [<-|[<-|[<-|[]]]]; [cbn in Hle; lia | reflexivity | discriminate Hp].
  - exact (proj2 (next_release_is_announced Sample.wStuck eq_refl eq_refl)).
Defined.

(** ** A rejected call after the save *)

(** X9. The steps of a series promotion are not undone when a later one
    fails.  If the store accepts the [save] of the live series and rejects
    the [updateMany] that follows, the live series stays, while the
    coming-soon series, its episodes and the transfer log are as before; the
    series is therefore due again, and the next run without rejections
    saves a second live series from the same record. *)
Theorem rejected_relink_is_not_rolled_back
    (w : World) (comingSoonSeries : ComingSoonSeries) (error : JsError) :
  filter (dueSeries (clock w)) (db_ComingSoonSeries w) = [comingSoonSeries] ->
  faults w = [None; None; Some error] ->
  let w1 := snd (releaseComingSoonSeries w) in
  let w2 := snd (releaseComingSoonSeries w1) in
  db_Series w1 = db_Series w ++ [newSeriesDoc (nextObjectId w) comingSoonSeries] /\
  db_ComingSoonSeries w1 = db_ComingSoonSeries w /\
  db_ComingSoonEpisode w1 = db_ComingSoonEpisode w /\
  db_SeriesTransferLog w1 = db_SeriesTransferLog w /\
  exists id,
    (nextObjectId w < id)%nat /\
    db_Series w2 = db_Series w ++ [newSeriesDoc (nextObjectId w) comingSoonSeries;
                                   newSeriesDoc id comingSoonSeries].
Proof.
  intros Hdue Hfaults.
  assert (db_Series (snd (releaseComingSoonSeries w))
          = db_Series w ++ [newSeriesDoc (nextObjectId w) comingSoonSeries] /\
          db_ComingSoonSeries (snd (releaseComingSoonSeries w)) = db_ComingSoonSeries w /\
          db_ComingSoonEpisode (snd (releaseComingSoonSeries w)) = db_ComingSoonEpisode w /\
          db_SeriesTransferLog (snd (releaseComingSoonSeries w)) = db_SeriesTransferLog w /\
          nextObjectId (snd (releaseComingSoonSeries w)) = S (nextObjectId w) /\
          clock (snd (releaseComingSoonSeries w)) = clock w /\
          faults (snd (releaseComingSoonSeries w)) = [])
    as (Hsr & Hcs & Hce & Hlg & Hid & Hclk & Hcalm).
  { destruct w as [cs ce sr ep lg n clk fs tr rel errs].
    cbn [faults clock db_ComingSoonSeries] in Hdue, Hfaults. subst fs.
    unfold releaseComingSoonSeries. unfold_js. cbn -[filter forOf]. rewrite Hdue.
    cbn [length Nat.eqb forOf]. unfold seriesLoopBody, releaseSeries. unfold_js.
    cbn -[isENOSPC]. destruct (isENOSPC error); cbn; repeat split; reflexivity. }
  cbv zeta.
  split; [exact Hsr|]. split; [exact Hcs|]. split; [exact Hce|]. split; [exact Hlg|].
  destruct (releaseComingSoonSeries_calm _ Hcalm)
    as (w2 & Hrun2 & _ & _ & _ & _ & _ & ids & Hlen & Hids & _ & Hsr2 & _).
  rewrite Hrun2. cbn [snd]. rewrite Hclk, Hcs, Hdue in Hlen, Hsr2.
  destruct ids as [|id [|? ?]]; try discriminate Hlen.
  exists id. split.
  - inversion Hids as [|? ? Hrange _]; subst. rewrite Hid in Hrange. lia.
  - rewrite Hsr2, Hsr. cbn. rewrite <- app_assoc. reflexivity.
Qed.

Lemma rejected_relink_is_not_rolled_back_witness :
  faults Scenario.wRelinkFails = [None; None; Some Sample.EBUSY] /\
  db_Series (snd (releaseComingSoonSeries Scenario.wRelinkFails))
  = [newSeriesDoc 100 (Sample.aSeries 1 "X" 999 StPending)] /\
  db_ComingSoonSeries (snd (releaseComingSoonSeries Scenario.wRelinkFails))
  = [Sample.aSeries 1 "X" 999 StPending].
Proof.
  split; [reflexivity|].
  destruct (rejected_relink_is_not_rolled_back
              Scenario.wRelinkFails (Sample.aSeries 1 "X" 999 StPending) Sample.EBUSY
              eq_refl eq_refl) as (Hsr & Hcs & _).
  split; [exact Hsr | exact Hcs].
Defined.

Lemma dueEpisode_iff now e :
  dueEpisode now e = true <-> ce_status e = StPending /\ ce_scheduledReleaseDate e <= now.
Proof.
  unfold dueEpisode, isDue. rewrite andb_true_iff, Z.leb_le.
  destruct (ce_status e); cbn; intuition discriminate.
Qed.


(** * The schemas and the handlers around the job *)

(** At a query, continue with the state that the query saw. *)
Ltac at_query R :=
  apply (@keeps_query_then R _);
  let w1 := fresh "w1" in
  let r := fresh "r" in
  let w' := fresh "w'" in
  let Hrun := fresh "Hrun" in
  let HQ := fresh "HQ" in
  intros w1 r w' Hrun HQ;
  match type of Hrun with
  | ?m w1 = _ =>
      let K := fresh "K" in
      assert (K : keeps R m); [ cbv beta | exact (K w1 r w' Hrun HQ) ]
  end.

Lemma Forall_updateWhere {A} (P : A -> Prop) (p : A -> bool) (g : A -> A) (l : list A) :
  Forall P l -> (forall x, P x -> P (g x)) -> Forall P (updateWhere p g l).
Proof.
  intros Hl Hg. apply Forall_forall. intros y Hy.
  apply In_updateWhere in Hy as (x & Hx & ->). rewrite Forall_forall in Hl.
  destruct (p x); auto.
Qed.

Lemma Forall_deleteWhere {A} (P : A -> Prop) (p : A -> bool) (l : list A) :
  Forall P l -> Forall P (deleteWhere p l).
Proof.
  intros Hl. apply Forall_forall. intros y Hy. apply In_deleteWhere in Hy as [Hy _].
  rewrite Forall_forall in Hl. auto.
Qed.

(** ** The range validators of the two episode schemas agree *)

Lemma newEpisodeDoc_ranges id seriesId x :
  Episode_rangesValid (newEpisodeDoc id seriesId x) = ComingSoonEpisode_rangesValid x.
Proof.
  unfold Episode_rangesValid, ComingSoonEpisode_rangesValid, newEpisodeDoc.
  destruct (ce_coin x), (ce_views x), (ce_coinEarned x); cbn;
    rewrite ?andb_true_r; reflexivity.
Qed.

#[export] Instance keepsRanges_frame : Frame keepsRanges.
Proof.
  split; unfold keepsRanges.
  - auto.
  - auto.
  - intros [? ? ? ? ? ? ? ? ? ? ?] ev H. exact H.
  - intros [? ? ? ? ? ? ? ? ? ? ?] fs H. exact H.
Qed.

Ltac ranges_prim :=
  intros [? ? ? ? ? ? ? ? ? ? ?]; unfold keepsRanges, rangesValid;
  cbn -[updateWhere deleteWhere];
  let Hc := fresh "Hc" in
  let He := fresh "He" in
  intros [Hc He]; split;
  first [ assumption
        | apply Forall_updateWhere; [assumption | intros ? Hy; exact Hy]
        | apply Forall_deleteWhere; assumption
        | apply Forall_app; split;
          [ assumption
          | constructor; [rewrite newEpisodeDoc_ranges; assumption | constructor] ] ].

Lemma episodeLoopBody_ranges x :
  ComingSoonEpisode_rangesValid x = true -> keeps keepsRanges (episodeLoopBody x).
Proof. intros Hx. keeps_auto; ranges_prim. Qed.

Lemma seriesEpisodeLoopBody_ranges newSeries x :
  ComingSoonEpisode_rangesValid x = true ->
  keeps keepsRanges (seriesEpisodeLoopBody newSeries x).
Proof. intros Hx. keeps_auto; ranges_prim. Qed.

Ltac found_is_valid :=
  match goal with
  | Hin : In ?x (filter _ (db_ComingSoonEpisode ?w1)), HQ : rangesValid ?w1 |- _ =>
      let H := fresh in
      apply filter_In in Hin as [Hin _]; destruct HQ as [H _];
      rewrite Forall_forall in H; exact (H x Hin)
  end.

Ltac ranges_step :=
  lazymatch goal with
  | |- keeps _ (bind (ComingSoonEpisode_findOfSeries _ _) _) =>
      unfold ComingSoonEpisode_findOfSeries; at_query keepsRanges
  | |- keeps _ (bind (ComingSoonEpisode_findDue _) _) =>
      unfold ComingSoonEpisode_findDue; at_query keepsRanges
  | |- keeps _ (episodeLoopBody _) => apply episodeLoopBody_ranges; found_is_valid
  | |- keeps _ (seriesEpisodeLoopBody _ _) =>
      apply seriesEpisodeLoopBody_ranges; found_is_valid
  end.

Lemma cronTick_ranges : keeps keepsRanges cronTick.
Proof. keeps_with ltac:(idtac; ranges_step); ranges_prim. Qed.

(** X11. The range validators of the two episode schemas agree through the
    copy [new Episode({...})] of the job ([episode] from 1 to 100, [coin],
    [views] and [coinEarned] not negative, an absent count becoming 0): if
    all coming-soon and live episodes are within range before a tick, so are
    they after it, whatever the store rejects. *)
Theorem saved_episodes_are_in_range (w : World) :
  Forall (fun x => ComingSoonEpisode_rangesValid x = true) (db_ComingSoonEpisode w) ->
  Forall (fun e => Episode_rangesValid e = true) (db_Episode w) ->
  Forall (fun x => ComingSoonEpisode_rangesValid x = true)
         (db_ComingSoonEpisode (snd (cronTick w))) /\
  Forall (fun e => Episode_rangesValid e = true) (db_Episode (snd (cronTick w))).
Proof.
  intros Hc He. exact (keeps_snd _ _ w cronTick_ranges (conj Hc He)).
Qed.

Lemma saved_episodes_are_in_range_witness :
  Forall (fun x => ComingSoonEpisode_rangesValid x = true)
         (db_ComingSoonEpisode Sample.w1) /\
  Forall (fun e => Episode_rangesValid e = true) (db_Episode Sample.w1) /\
  Forall (fun e => Episode_rangesValid e = true) (db_Episode (snd (cronTick Sample.w1))).
Proof.
  assert (Forall (fun x => ComingSoonEpisode_rangesValid x = true)
                 (db_ComingSoonEpisode Sample.w1)) as Hc
    by (repeat constructor).
  assert (Forall (fun e => Episode_rangesValid e = true) (db_Episode Sample.w1)) as He
    by (repeat constructor).
  split; [exact Hc|]. split; [exact He|].
  exact (proj2 (saved_episodes_are_in_range Sample.w1 Hc He)).
Defined.

(** ** Deleting a coming-soon series leaves its episodes behind *)

#[export] Instance staysOrphaned_frame e c : Frame (staysOrphaned e c).
Proof.
  split; unfold staysOrphaned.
  - auto.
  - auto.
  - intros [? ? ? ? ? ? ? ? ? ? ?] ev H. exact H.
  - intros [? ? ? ? ? ? ? ? ? ? ?] fs H. exact H.
Qed.

Lemma keeps_both (R1 R2 : World -> World -> Prop) {A} (m : M A) :
  keeps R1 m -> keeps R2 m -> keeps (fun w w' => R1 w w' /\ R2 w w') m.
Proof. intros H1 H2 w c w' Hrun. split; [exact (H1 w c w' Hrun) | exact (H2 w c w' Hrun)]. Qed.

Lemma episodeLoopBody_series x :
  keeps (unchanged (fun w => (db_ComingSoonSeries w, db_SeriesTransferLog w)))
        (episodeLoopBody x).
Proof. keeps_auto; world_eq. Qed.

Lemma seriesEpisodeLoopBody_series newSeries x :
  keeps (unchanged (fun w => (db_ComingSoonSeries w, db_SeriesTransferLog w)))
        (seriesEpisodeLoopBody newSeries x).
Proof. keeps_auto; world_eq. Qed.

Lemma apart_staysOrphaned e c w w' :
  unchanged (episodesWithId (ce_id e)) w w' /\
  unchanged (fun w => (db_ComingSoonSeries w, db_SeriesTransferLog w)) w w' ->
  staysOrphaned e c w w'.
Proof.
  unfold unchanged, staysOrphaned, orphaned. intros [Hw Hs]. inversion Hs as [[Hcs Hlg]].
  rewrite Hw, Hcs, Hlg. auto.
Qed.

Lemma episodeLoopBody_apart e c x :
  ce_id x <> ce_id e -> keeps (staysOrphaned e c) (episodeLoopBody x).
Proof.
  intros Hne. apply (keeps_weaken _ _ _ (apart_staysOrphaned e c)).
  apply keeps_both; [now apply episodeLoopBody_otherId | apply episodeLoopBody_series].
Qed.

Lemma seriesEpisodeLoopBody_apart e c newSeries x :
  ce_id x <> ce_id e -> keeps (staysOrphaned e c) (seriesEpisodeLoopBody newSeries x).
Proof.
  intros Hne. apply (keeps_weaken _ _ _ (apart_staysOrphaned e c)).
  apply keeps_both; [now apply seriesEpisodeLoopBody_otherId
                    | apply seriesEpisodeLoopBody_series].
Qed.

Ltac orphan_quiet :=
  intros [? ? ? ? ? ? ? ? ? ? ?]; unfold staysOrphaned, orphaned, episodesWithId; cbn; auto.

Lemma no_log_found c w :
  (forall entry, In entry (db_SeriesTransferLog w) -> tl_comingSoonSeriesId entry <> c) ->
  transferLogFor c w = None.
Proof.
  intros Hlg. unfold transferLogFor. apply find_none_all. intros x Hx.
  apply Nat.eqb_neq. now apply Hlg.
Qed.

(** The orphan itself: the look-up in the transfer log finds nothing, and the
    iteration goes on to the next episode. *)
Lemma episodeLoopBody_orphan e c :
  ce_seriesId e = None -> ce_comingSoonSeriesId e = Some c ->
  keeps (staysOrphaned e c) (episodeLoopBody e).
Proof.
  intros Hs Hc. unfold episodeLoopBody.
  apply (@keeps_tryCatch (staysOrphaned e c) _); [|intro; keeps_auto; orphan_quiet].
  unfold releaseEpisode. rewrite Hs, Hc. unfold SeriesTransferLog_findOneBy.
  at_query (staysOrphaned e c).
  rewrite (no_log_found c w1) by apply HQ. keeps_auto.
Qed.

Lemma episodeLoop_orphan e c l :
  ce_seriesId e = None -> ce_comingSoonSeriesId e = Some c ->
  (forall x, In x l -> ce_id x = ce_id e -> x = e) ->
  keeps (staysOrphaned e c) (forOf l episodeLoopBody).
Proof.
  intros Hs Hc Hsame. apply keeps_forOf; [apply staysOrphaned_frame|]. intros x Hx.
  destruct (Nat.eq_dec (ce_id x) (ce_id e)) as [E|Hne].
  - rewrite (Hsame x Hx E). now apply episodeLoopBody_orphan.
  - now apply episodeLoopBody_apart.
Qed.

Lemma releaseSeries_orphan e c comingSoonSeries :
  ce_seriesId e = None -> ce_comingSoonSeriesId e = Some c ->
  css_id comingSoonSeries <> c ->
  keeps (staysOrphaned e c) (releaseSeries comingSoonSeries).
Proof.
  intros Hs Hc Hne.
  keeps_with ltac:(idtac; lazymatch goal with
    | |- keeps _ (bind (ComingSoonEpisode_findOfSeries _ _) _) =>
        unfold ComingSoonEpisode_findOfSeries; at_query (staysOrphaned e c)
    | |- keeps _ (seriesEpisodeLoopBody _ ?x) =>
        apply seriesEpisodeLoopBody_apart;
        match goal with
        | Hin : In x (filter _ (db_ComingSoonEpisode ?w1)), HQ : orphaned e c ?w1 |- _ =>
            let E := fresh in
            intros E; apply filter_In in Hin as [Hin Hof];
            rewrite (withId_In e w1 x (proj1 HQ) Hin E) in Hof;
            unfold episodeOfSeries in Hof; rewrite Hs, Hc in Hof; cbn in Hof;
            apply andb_true_iff in Hof as [Hof _]; apply Nat.eqb_eq in Hof;
            apply Hne; symmetry; exact Hof
        end
    end).
  all: intros [cs ce sr ep lg n clk fs tr rel errs];
    unfold staysOrphaned, orphaned, episodesWithId; cbn -[updateWhere deleteWhere];
    intros (Hput & Hcs & Hlg); (split; [|split]); try assumption.
  - (* updateMany *)
    rewrite filter_updateWhere_apart; [exact Hput | | intros ? _; reflexivity].
    intros x Hx E.
    assert (In x (filter (fun y => Nat.eqb (ce_id y) (ce_id e)) ce)) as Hin
      by (apply filter_In; auto).
    rewrite Hput in Hin. destruct Hin as [<-|[]]. rewrite Hc. cbn.
    apply Nat.eqb_neq. congruence.
  - (* create *)
    intros entry Hin. apply in_app_or in Hin as [Hin|[<-|[]]]; [now apply Hlg | exact Hne].
  - (* status *)
    intros s Hin. apply In_updateWhere in Hin as (s0 & Hs0 & ->).
    destruct (Nat.eqb (css_id s0) (css_id comingSoonSeries)); cbn; now apply Hcs.
  - (* delete *)
    intros s Hin. apply In_deleteWhere in Hin as [Hin _]. now apply Hcs.
Qed.

Lemma releaseComingSoonSeries_orphan e c :
  ce_seriesId e = None -> ce_comingSoonSeriesId e = Some c ->
  keeps (staysOrphaned e c) releaseComingSoonSeries.
Proof.
  intros Hs Hc.
  keeps_with ltac:(idtac; lazymatch goal with
    | |- keeps _ (bind (ComingSoonSeries_findDue _) _) =>
        unfold ComingSoonSeries_findDue; at_query (staysOrphaned e c)
    | |- keeps _ (releaseSeries ?x) =>
        apply (releaseSeries_orphan e c); [exact Hs | exact Hc |];
        match goal with
        | Hin : In x (filter _ (db_ComingSoonSeries ?w1)), HQ : orphaned e c ?w1 |- _ =>
            apply filter_In in Hin as [Hin _]; exact (proj1 (proj2 HQ) x Hin)
        end
    end); orphan_quiet.
Qed.

Lemma releaseComingSoonEpisodes_orphan e c :
  ce_seriesId e = None -> ce_comingSoonSeriesId e = Some c ->
  keeps (staysOrphaned e c) releaseComingSoonEpisodes.
Proof.
  intros Hs Hc.
  keeps_with ltac:(idtac; lazymatch goal with
    | |- keeps _ (bind (ComingSoonEpisode_findDue _) _) =>
        unfold ComingSoonEpisode_findDue; at_query (staysOrphaned e c)
    | |- keeps _ (forOf (filter _ (db_ComingSoonEpisode ?w1)) episodeLoopBody) =>
        apply (episodeLoop_orphan e c); [exact Hs | exact Hc |];
        match goal with
        | HQ : orphaned e c w1 |- _ =>
            let x := fresh "x" in
            let Hx := fresh "Hx" in
            intros x Hx; apply filter_In in Hx as [Hx _];
            exact (withId_In e w1 x (proj1 HQ) Hx)
        end
    end); orphan_quiet.
Qed.

Lemma ticks_orphan e c times : forall w,
  ce_seriesId e = None -> ce_comingSoonSeriesId e = Some c ->
  orphaned e c w -> orphaned e c (ticks times w).
Proof.
  induction times as [|now times IH]; intros w Hs Hc Ho; [exact Ho|].
  unfold ticks. cbn [fold_left]. apply IH; [exact Hs | exact Hc |].
  assert (keeps (staysOrphaned e c) cronTick) as K.
  { unfold cronTick. apply (@keeps_bind (staysOrphaned e c) _).
    - now apply releaseComingSoonSeries_orphan.
    - intro. now apply releaseComingSoonEpisodes_orphan. }
  apply (keeps_snd _ _ (with_clock now w) K).
  destruct w as [? ? ? ? ? ? ? ? ? ? ?]. exact Ho.
Qed.

(** X12. [deleteComingSoonSeries] deletes the series record only.  An episode
    that points to the deleted series by [comingSoonSeriesId] alone stays in
    the coming-soon collection, and no later tick, at whatever times and
    with whatever rejections, promotes or removes it: the look-up in the
    transfer log finds nothing for a series that was never released. *)
Theorem deleted_series_orphans_its_episodes
    (w : World) (comingSoonSeriesId : ObjectId) (episode : ComingSoonEpisode)
    (times : list Z) :
  NoDup (map ce_id (db_ComingSoonEpisode w)) ->
  In episode (db_ComingSoonEpisode w) ->
  ce_seriesId episode = None ->
  ce_comingSoonSeriesId episode = Some comingSoonSeriesId ->
  (forall entry, In entry (db_SeriesTransferLog w) ->
                 tl_comingSoonSeriesId entry <> comingSoonSeriesId) ->
  hd None (faults w) = None ->
  let w1 := snd (deleteComingSoonSeries (Some comingSoonSeriesId) w) in
  (exists res, fst (deleteComingSoonSeries (Some comingSoonSeriesId) w) = Normal res /\
               (statusCode res = 200 \/ statusCode res = 404)) /\
  (forall s, In s (db_ComingSoonSeries w1) -> css_id s <> comingSoonSeriesId) /\
  db_ComingSoonEpisode w1 = db_ComingSoonEpisode w /\
  In episode (db_ComingSoonEpisode (ticks times w1)) /\
  transferLogFor comingSoonSeriesId (ticks times w1) = None.
Proof.
  intros ND Hin Hs Hc Hlg Hfault. cbv zeta.
  assert (episodesWithId (ce_id episode) w = [episode]) as Hput
    by (apply (filter_key_unique ce_id); assumption).
  destruct w as [cs ce sr ep lg n clk fs tr rel errs]. cbn [faults] in Hfault.
  unfold deleteComingSoonSeries, ComingSoonSeries_findByIdAndDelete_doc.
  unfold_js. rewrite Hfault.
  set (found := find (fun s => Nat.eqb (css_id s) comingSoonSeriesId) cs).
  assert (forall s, In s (deleteWhere (fun s => Nat.eqb (css_id s) comingSoonSeriesId) cs) ->
                    css_id s <> comingSoonSeriesId) as Hgone.
  { intros s H. apply In_deleteWhere in H as [_ H]. now apply Nat.eqb_neq. }
  match goal with
  | |- context [ticks times ?v] =>
      assert (orphaned episode comingSoonSeriesId (ticks times v)) as (Hput' & _ & Hlg')
  end.
  { apply ticks_orphan; [exact Hs | exact Hc |].
    destruct found; cbn; (split; [exact Hput | split; [exact Hgone | exact Hlg]]). }
  destruct found; cbn [fst snd] in *.
  - split; [eexists; split; [reflexivity | now left]|].
    split; [exact Hgone|]. split; [reflexivity|]. split.
    + assert (In episode (episodesWithId (ce_id episode) _)) as H
        by (rewrite Hput'; now left).
      apply filter_In in H as [H _]. exact H.
    + now apply no_log_found.
  - split; [eexists; split; [reflexivity | now right]|].
    split; [exact Hgone|]. split; [reflexivity|]. split.
    + assert (In episode (episodesWithId (ce_id episode) _)) as H
        by (rewrite Hput'; now left).
      apply filter_In in H as [H _]. exact H.
    + now apply no_log_found.
Qed.

Lemma deleted_series_orphans_its_episodes_witness :
  NoDup (map ce_id (db_ComingSoonEpisode Scenario.wBeforeDelete)) /\
  In Scenario.waiting (db_ComingSoonEpisode Scenario.wBeforeDelete) /\
  dueEpisode 1000 Scenario.waiting = true /\
  In Scenario.waiting
     (db_ComingSoonEpisode
        (ticks [1000; 3000]
               (snd (deleteComingSoonSeries (Some 1%nat) Scenario.wBeforeDelete)))).
Proof.
  assert (NoDup (map ce_id (db_ComingSoonEpisode Scenario.wBeforeDelete))) as ND.
  { cbn. repeat constructor; cbn; intuition discriminate. }
  assert (In Scenario.waiting (db_ComingSoonEpisode Scenario.wBeforeDelete)) as Hin
    by (left; reflexivity).
  assert (forall entry, In entry (db_SeriesTransferLog Scenario.wBeforeDelete) ->
                        tl_comingSoonSeriesId entry <> 1%nat) as Hlg
    by (intros entry []).
  split; [exact ND|]. split; [exact Hin|]. split; [reflexivity|].
  exact (proj1 (proj2 (proj2 (proj2
           (deleted_series_orphans_its_episodes
              Scenario.wBeforeDelete 1%nat Scenario.waiting [1000; 3000]
              ND Hin eq_refl eq_refl Hlg eq_refl))))).
Defined.

(** ** The pagination of the transfer logs *)

Lemma pageSlice_length {A} (skip limit : Z) (l : list A) :
  0 <= skip -> 0 <= limit ->
  Z.of_nat (length (pageSlice skip limit l))
  = Z.max 0 (Z.min limit (Z.of_nat (length l) - skip)).
Proof.
  intros Hs Hl. unfold pageSlice. rewrite length_firstn, length_skipn. lia.
Qed.

Lemma nonempty_length {A} (l : list A) : l <> [] <-> 0 < Z.of_nat (length l).
Proof.
  destruct l; cbn [length]; split; intros H; try lia; try discriminate.
  now contradiction H.
Qed.

(** X13. In [getTransferLogs], [parseInt(x) || d] never yields 0, so the
    page count never divides by zero.  For a page and a limit of at least 1
    the [pagination] object agrees with the window [skip((page - 1) * limit)],
    [limit(limit)] of the query: [hasNextPage] is true exactly when the next
    page has a log, the current page has a log exactly when
    [currentPage <= totalPages], [hasPrevPage] is true exactly when something
    is skipped, and the page holds [min(limit, total - skip)] logs. *)
Theorem pagination_matches_the_window
    (pageParam limitParam : option Z) (sorted : list SeriesTransferLog) :
  let page := parseIntOr pageParam 1 in
  let limit := parseIntOr limitParam 10 in
  let total := Z.of_nat (length sorted) in
  let pagination := paginationOf page limit total in
  page <> 0 /\ limit <> 0 /\
  (1 <= page -> 1 <= limit ->
   (hasNextPage pagination = true
    <-> pageSlice (skipOf (page + 1) limit) limit sorted <> []) /\
   (currentPage pagination <= totalPages pagination
    <-> pageSlice (skipOf page limit) limit sorted <> []) /\
   (hasPrevPage pagination = true <-> 0 < skipOf page limit) /\
   Z.of_nat (length (pageSlice (skipOf page limit) limit sorted))
   = Z.max 0 (Z.min limit (total - skipOf page limit))).
Proof.
  cbv zeta.
  assert (forall x d, d <> 0 -> parseIntOr x d <> 0) as Hnz.
  { intros [v|] d Hd; cbn; [|exact Hd]. destruct (Z.eqb_spec v 0); auto. }
  split; [apply Hnz; discriminate|]. split; [apply Hnz; discriminate|].
  generalize (parseIntOr pageParam 1) (parseIntOr limitParam 10). intros page limit Hp Hl.
  pose proof (ceilDiv_bracket (Z.of_nat (length sorted)) limit ltac:(lia)) as [Hlo Hhi].
  unfold paginationOf, skipOf. cbn [hasNextPage currentPage totalPages hasPrevPage].
  rewrite !nonempty_length, !pageSlice_length by nia.
  rewrite !Z.ltb_lt. repeat split; intros; nia.
Qed.

Lemma pagination_matches_the_window_witness :
  parseIntOr (Some 2) 1 = 2 /\ parseIntOr None 10 = 10 /\
  hasNextPage (paginationOf 2 10 (Z.of_nat (length (repeat (transferLogDoc 1 Sample.stuckX 0) 25))))
  = true /\
  pageSlice (skipOf 3 10) 10 (repeat (transferLogDoc 1 Sample.stuckX 0) 25) <> [].
Proof.
  split; [reflexivity|]. split; [reflexivity|]. split; [reflexivity|].
  destruct (pagination_matches_the_window (Some 2) None
              (repeat (transferLogDoc 1 Sample.stuckX 0) 25)) as (_ & _ & H).
  destruct (H ltac:(cbn; lia) ltac:(cbn; lia)) as (Hnext & _).
  apply Hnext. reflexivity.
Defined.

(** ** The 12-hour clock of the listing *)

(** X14. [formatDateAndTime] loses nothing of the hour: for an hour of the
    day from 0 to 23 the displayed hour lies between 1 and 12, and together
    with the AM/PM mark it gives the hour back. *)
Theorem twelve_hour_clock_round_trip (hours : Z) :
  0 <= hours < 24 ->
  1 <= hours12 hours <= 12 /\
  hours = Z.rem (hours12 hours) 12
          + match ampmOf hours with PM => 12 | AM => 0 end.
Proof.
  intros Hrange. unfold hours12, ampmOf.
  rewrite Z.rem_mod_nonneg by lia.
  pose proof (Z.mod_pos_bound hours 12 ltac:(lia)) as Hb.
  pose proof (Z.div_mod hours 12 ltac:(lia)) as Hd.
  destruct (Z.eqb_spec (hours mod 12) 0) as [E|E]; destruct (Z.leb_spec 12 hours).
  - split; [lia|]. cbn. assert (hours / 12 = 1) by nia. lia.
  - split; [lia|]. cbn. assert (hours / 12 = 0) by nia. lia.
  - split; [lia|]. rewrite Z.rem_mod_nonneg by lia. rewrite Z.mod_mod by lia.
    assert (hours / 12 = 1) by nia. lia.
  - split; [lia|]. rewrite Z.rem_mod_nonneg by lia. rewrite Z.mod_mod by lia.
    assert (hours / 12 = 0) by nia. lia.
Qed.

Lemma twelve_hour_clock_round_trip_witness :
  hours12 0 = 12 /\ ampmOf 0 = AM /\ hours12 13 = 1 /\ ampmOf 13 = PM /\
  13 = Z.rem (hours12 13) 12 + match ampmOf 13 with PM => 12 | AM => 0 end.
Proof.
  split; [reflexivity|]. split; [reflexivity|]. split; [reflexivity|]. split; [reflexivity|].
  exact (proj2 (twelve_hour_clock_round_trip 13 ltac:(lia))).
Defined.


(** * The Episode Promoter on linked episodes *)

#[export] Instance copiesOnly_frame w0 l : Frame (copiesOnly w0 l).
Proof.
  split; unfold copiesOnly.
  - intros w H. split; [exact H|]. exists []. rewrite app_nil_r.
    split; [reflexivity | constructor].
  - intros a b c Hab Hbc Ha. destruct (Hab Ha) as (Hb & l1 & E1 & F1).
    destruct (Hbc Hb) as (Hc & l2 & E2 & F2). split; [exact Hc|].
    exists (l1 ++ l2). rewrite E2, E1, app_assoc. split; [reflexivity|].
    apply Forall_app. split; assumption.
  - intros [? ? ? ? ? ? ? ? ? ? ?] ev H. split; [exact H|]. exists []. cbn.
    rewrite app_nil_r. split; [reflexivity | constructor].
  - intros [? ? ? ? ? ? ? ? ? ? ?] fs H. split; [exact H|]. exists []. cbn.
    rewrite app_nil_r. split; [reflexivity | constructor].
Qed.

Ltac copies_prim :=
  intros [? ? ? ? ? ? ? ? ? ? ?]; unfold copiesOnly, growsBy; cbn;
  let H := fresh in
  intros H; (split; [exact H|]);
  first [ exists []; rewrite app_nil_r; split; [reflexivity | constructor]
        | eexists; split; [reflexivity|]; constructor; [|constructor];
          unfold promotedFrom; cbn; eexists; split; [eassumption|];
          split; [|reflexivity] ].

Lemma episodeLoopBody_copies w0 l x :
  In x l -> keeps (copiesOnly w0 l) (episodeLoopBody x).
Proof.
  intros Hx. unfold episodeLoopBody.
  apply (@keeps_tryCatch (copiesOnly w0 l) _); [|intro; keeps_auto; copies_prim].
  unfold releaseEpisode.
  destruct (ce_seriesId x) as [seriesId|] eqn:Hs;
    [|destruct (ce_comingSoonSeriesId x) as [c|] eqn:Hc].
  - (* the episode carries its seriesId *)
    assert (finalSeriesIdOf w0 x = Some seriesId) as Hfinal
      by (unfold finalSeriesIdOf; rewrite Hs; now destruct (ce_comingSoonSeriesId x)).
    destruct (ce_comingSoonSeriesId x); keeps_auto; copies_prim; exact Hfinal.
  - (* resolved through the transfer log *)
    unfold SeriesTransferLog_findOneBy. at_query (copiesOnly w0 l).
    assert (finalSeriesIdOf w0 x = option_map tl_seriesId (transferLogFor c w1)) as Hfinal.
    { unfold finalSeriesIdOf, transferLogFor. now rewrite Hs, Hc, HQ. }
    destruct (transferLogFor c w1) as [entry|]; keeps_auto; copies_prim; exact Hfinal.
  - keeps_auto; copies_prim.
Qed.

Lemma episodeLoop_copies w0 l :
  keeps (copiesOnly w0 l) (forOf l episodeLoopBody).
Proof.
  apply keeps_forOf; [apply copiesOnly_frame|]. intros x Hx.
  now apply episodeLoopBody_copies.
Qed.

Lemma releaseComingSoonEpisodes_copies (w : World) :
  growsBy (promotedFrom w (filter (dueEpisode (clock w)) (db_ComingSoonEpisode w)))
          db_Episode w (snd (releaseComingSoonEpisodes w)).
Proof.
  destruct (releaseComingSoonEpisodes w) as [r w'] eqn:Hrun. cbn [snd].
  destruct (releaseComingSoonEpisodes_run w r w' Hrun) as [_ Hshape].
  destruct Hshape as [(Hst & _) | (_ & _ & w0 & c & w1 & Hst0 & _ & _ & _ & _ & _ & Hloop &
                                   Hst1 & _)].
  - exists []. destruct (store_eq _ _ Hst) as (_ & _ & _ & -> & _).
    rewrite app_nil_r. split; [reflexivity | constructor].
  - destruct (store_eq _ _ Hst0) as (_ & _ & _ & Hep0 & Hlg0).
    destruct (episodeLoop_copies w _ w0 _ w1 Hloop Hlg0) as (_ & added & Hadd & Hall).
    exists added. destruct (store_eq _ _ Hst1) as (_ & _ & _ & -> & _).
    rewrite <- Hep0. split; [exact Hadd | exact Hall].
Qed.

Lemma newEpisodeDoc_fields id seriesId x :
  e_episode (newEpisodeDoc id seriesId x) = ce_episode x /\
  e_title (newEpisodeDoc id seriesId x) = trim (orElse (ce_title x) EmptyString) /\
  e_coin (newEpisodeDoc id seriesId x) = orElse (ce_coin x) 0 /\
  e_views (newEpisodeDoc id seriesId x) = orElse (ce_views x) 0 /\
  e_coinEarned (newEpisodeDoc id seriesId x) = orElse (ce_coinEarned x) 0 /\
  e_videoUrl (newEpisodeDoc id seriesId x) = trim (ce_videoUrl x) /\
  e_videoThumbnail (newEpisodeDoc id seriesId x) = option_map trim (ce_videoThumbnail x).
Proof. repeat split. Qed.

(** X10. Whatever the store rejects, every live episode that
    [releaseComingSoonEpisodes] adds is the copy of a coming-soon episode
    that was pending with a release date not after the clock when the run
    began, saved under the series id that the resolution step gives for that
    episode (its own [seriesId], or else the one of the transfer log entry of
    its [comingSoonSeriesId]): unlike the promotion of a series, this run
    never promotes an episode ahead of its date.  The copy has the episode
    number, the counts (0 where absent) and, trimmed, the title (empty where
    absent), the video URL and the thumbnail of that coming-soon episode. *)
Theorem episode_promoter_promotes_only_due (w : World) :
  exists added,
    db_Episode (snd (releaseComingSoonEpisodes w)) = db_Episode w ++ added /\
    Forall (fun e => exists x, In x (db_ComingSoonEpisode w) /\
                               ce_status x = StPending /\
                               ce_scheduledReleaseDate x <= clock w /\
                               finalSeriesIdOf w x = Some (e_seriesId e) /\
                               e_episode e = ce_episode x /\
                               e_title e = trim (orElse (ce_title x) EmptyString) /\
                               e_coin e = orElse (ce_coin x) 0 /\
                               e_views e = orElse (ce_views x) 0 /\
                               e_coinEarned e = orElse (ce_coinEarned x) 0 /\
                               e_videoUrl e = trim (ce_videoUrl x) /\
                               e_videoThumbnail e
                                 = option_map trim (ce_videoThumbnail x)) added.
Proof.
  destruct (releaseComingSoonEpisodes_copies w) as (added & Hadd & Hall).
  exists added. split; [exact Hadd|].
  eapply Forall_impl; [|exact Hall]. cbn beta. intros e (x & Hx & Hfinal & He).
  apply filter_In in Hx as [Hx Hd]. apply dueEpisode_iff in Hd as [Hp Hd].
  exists x. split; [exact Hx|]. split; [exact Hp|]. split; [exact Hd|].
  split; [exact Hfinal|]. rewrite He.
  exact (newEpisodeDoc_fields (e_id e) (e_seriesId e) x).
Qed.

(** X15. The main line of [releaseComingSoonEpisodes]: in a run without
    rejections over coming-soon episodes that pass the validators of their
    schema, a pending episode that carries a [seriesId] and whose release
    date has come leaves the coming-soon collection, and a live episode of
    that series with its number exists afterwards.  If no live episode had
    that series and number before and no other due episode resolves to them,
    the live episode is new and is the copy of this one: number, counts
    (absent ones as 0) and, trimmed, title (empty if absent), video URL and
    thumbnail. *)
Theorem due_linked_episode_is_promoted
    (w : World) (comingSoonEpisode : ComingSoonEpisode) (seriesId : ObjectId) :
  faults w = [] ->
  Forall (fun x => ComingSoonEpisode_validate x = true) (db_ComingSoonEpisode w) ->
  In comingSoonEpisode (db_ComingSoonEpisode w) ->
  ce_status comingSoonEpisode = StPending ->
  ce_scheduledReleaseDate comingSoonEpisode <= clock w ->
  ce_seriesId comingSoonEpisode = Some seriesId ->
  exists w',
    releaseComingSoonEpisodes w = (Normal tt, w') /\
    errors w' = [] /\
    (forall x, In x (db_ComingSoonEpisode w') -> ce_id x <> ce_id comingSoonEpisode) /\
    (exists y, In y (db_Episode w') /\
               e_seriesId y = seriesId /\ e_episode y = ce_episode comingSoonEpisode) /\
    (find (sameEpisode seriesId (ce_episode comingSoonEpisode)) (db_Episode w) = None ->
     (forall x, In x (db_ComingSoonEpisode w) -> dueEpisode (clock w) x = true ->
                finalSeriesIdOf w x = Some seriesId ->
                ce_episode x = ce_episode comingSoonEpisode -> x = comingSoonEpisode) ->
     exists newEpisode,
       In newEpisode (db_Episode w') /\
       e_seriesId newEpisode = seriesId /\
       e_episode newEpisode = ce_episode comingSoonEpisode /\
       e_title newEpisode = trim (orElse (ce_title comingSoonEpisode) EmptyString) /\
       e_coin newEpisode = orElse (ce_coin comingSoonEpisode) 0 /\
       e_views newEpisode = orElse (ce_views comingSoonEpisode) 0 /\
       e_coinEarned newEpisode = orElse (ce_coinEarned comingSoonEpisode) 0 /\
       e_videoUrl newEpisode = trim (ce_videoUrl comingSoonEpisode) /\
       e_videoThumbnail newEpisode
         = option_map trim (ce_videoThumbnail comingSoonEpisode)).
Proof.
  intros Hcalm Hvalid Hin Hp Hd Hs.
  assert (dueEpisode (clock w) comingSoonEpisode = true) as Hdue
    by (apply dueEpisode_iff; auto).
  assert (In comingSoonEpisode (filter (dueEpisode (clock w)) (db_ComingSoonEpisode w)))
    as Hindue by (apply filter_In; auto).
  assert (finalSeriesIdOf w comingSoonEpisode = Some seriesId) as Hfinal
    by (unfold finalSeriesIdOf; rewrite Hs;
        now destruct (ce_comingSoonSeriesId comingSoonEpisode)).
  pose proof (releaseComingSoonEpisodes_copies w) as Hcopies.
  destruct (releaseComingSoonEpisodes_calm w Hvalid Hcalm)
    as (w' & Hrun & _ & Herr & _ & _ & _ & _ & Hce & _ & _ & Hlive).
  rewrite Hrun in Hcopies. cbn [snd] in Hcopies.
  exists w'. split; [exact Hrun|]. split; [exact Herr|].
  destruct (Hlive _ _ Hindue Hfinal) as (y & Hy & Hkey).
  apply sameEpisode_true in Hkey as [Hys Hyn].
  split; [|split].
  - intros x Hx E. rewrite Hce in Hx. apply In_deleteWhere in Hx as [_ Hx].
    assert (idIn (resolvedIds w (filter (dueEpisode (clock w)) (db_ComingSoonEpisode w)))
                 (ce_id x) = true) as Hres; [|rewrite Hres in Hx; discriminate].
    apply existsb_eqb_In. rewrite E. unfold resolvedIds. apply in_map.
    apply filter_In. split; [exact Hindue|]. now rewrite Hfinal.
  - exists y. auto.
  - intros Hfresh Hunique. destruct Hcopies as (added & Hadd & Hall).
    rewrite Hadd in Hy. apply in_app_or in Hy as [Hy|Hy].
    + exfalso. apply (find_none_key _ _ _ Hfresh).
      change (seriesId, ce_episode comingSoonEpisode)
        with (episodeKey (mkEpisode 0 seriesId (ce_episode comingSoonEpisode)
                                    EmptyString 0 0 0 EmptyString None)).
      rewrite <- Hys, <- Hyn. apply (in_map episodeKey) in Hy. exact Hy.
    + rewrite Forall_forall in Hall. destruct (Hall y Hy) as (x & Hx & Hfx & Ey).
      apply filter_In in Hx as [Hx Hxd]. rewrite Hys in Hfx, Ey.
      assert (x = comingSoonEpisode) as ->.
      { apply Hunique; auto. rewrite <- Hyn, Ey. reflexivity. }
      exists y. split; [rewrite Hadd; apply in_or_app; now right|].
      split; [exact Hys|]. rewrite Ey.
      exact (newEpisodeDoc_fields (e_id y) seriesId comingSoonEpisode).
Qed.

Lemma due_linked_episode_is_promoted_witness :
  faults Scenario.wDangling = [] /\
  In Sample.dueEpisode1 (db_ComingSoonEpisode Scenario.wDangling) /\
  ce_scheduledReleaseDate Sample.dueEpisode1 <= clock Scenario.wDangling /\
  exists w' newEpisode,
    releaseComingSoonEpisodes Scenario.wDangling = (Normal tt, w') /\
    In newEpisode (db_Episode w') /\
    e_seriesId newEpisode = 100%nat /\ e_episode newEpisode = 1 /\
    e_title newEpisode = "t"%string /\ e_videoUrl newEpisode = "v.mp4"%string /\
    (forall x, In x (db_ComingSoonEpisode w') -> ce_id x <> 2%nat).
Proof.
  assert (In Sample.dueEpisode1 (db_ComingSoonEpisode Scenario.wDangling)) as Hin
    by (left; reflexivity).
  assert (ce_scheduledReleaseDate Sample.dueEpisode1 <= clock Scenario.wDangling) as Hd
    by (cbn; lia).
  assert (Forall (fun x => ComingSoonEpisode_validate x = true)
                 (db_ComingSoonEpisode Scenario.wDangling)) as Hv
    by (repeat constructor).
  destruct (due_linked_episode_is_promoted Scenario.wDangling Sample.dueEpisode1 100%nat
              eq_refl Hv Hin eq_refl Hd eq_refl) as (w' & Hrun & _ & Hgone & _ & Hcopy).
  split; [reflexivity|]. split; [exact Hin|]. split; [exact Hd|].
  destruct (Hcopy eq_refl) as (y & Hy & Y1 & Y2 & Y3 & _ & _ & _ & Y4 & _).
  { intros x [<-|[]] _ _ _. reflexivity. }
  exists w', y. split; [exact Hrun|]. split; [exact Hy|].
  split; [exact Y1|]. split; [exact Y2|]. split; [exact Y3|]. split; [exact Y4|].
  exact Hgone.
Defined.

(** ** The Episode Promoter never reads the live series *)

Lemma ignoresSeries_ret {A} (a : A) : ignoresSeries (ret a).
Proof. intros w sr. reflexivity. Qed.

Lemma ignoresSeries_gets {A} (f : World -> A) :
  (forall w sr, f (with_Series (fun _ => sr) w) = f w) -> ignoresSeries (gets f).
Proof. intros Hf w sr. unfold gets. cbn. now rewrite Hf. Qed.

Lemma ignoresSeries_modify (f : World -> World) :
  (forall w sr, f (with_Series (fun _ => sr) w) = with_Series (fun _ => sr) (f w)) ->
  ignoresSeries (modify f).
Proof. intros Hf w sr. unfold modify. cbn. now rewrite Hf. Qed.

Lemma ignoresSeries_call c : ignoresSeries (call c).
Proof.
  intros [cs ce sr0 ep lg n clk fs tr rel errs] sr. unfold call. cbn.
  destruct (hd None fs); reflexivity.
Qed.

Lemma ignoresSeries_bind {A B} (m : M A) (k : A -> M B) :
  ignoresSeries m -> (forall a, ignoresSeries (k a)) -> ignoresSeries (bind m k).
Proof.
  intros Hm Hk w sr. unfold bind. rewrite Hm.
  destruct (m w) as [[a|e] w1]; cbn [fst snd]; [|reflexivity].
  rewrite Hk. destruct (k a w1); reflexivity.
Qed.

Lemma ignoresSeries_tryCatch {A} (m : M A) (h : JsError -> M A) :
  ignoresSeries m -> (forall e, ignoresSeries (h e)) -> ignoresSeries (tryCatch m h).
Proof.
  intros Hm Hh w sr. unfold tryCatch. rewrite Hm.
  destruct (m w) as [[a|e] w1]; cbn [fst snd]; [reflexivity|].
  rewrite Hh. destruct (h e w1); reflexivity.
Qed.

Lemma ignoresSeries_forOf {A} (xs : list A) (body : A -> M Ctl) :
  (forall x, ignoresSeries (body x)) -> ignoresSeries (forOf xs body).
Proof.
  intros Hb. induction xs as [|x xs IH]; [apply ignoresSeries_ret|].
  cbn [forOf]. apply ignoresSeries_bind; [apply Hb|].
  intros [|]; [exact IH | apply ignoresSeries_ret].
Qed.

Ltac ignores_step :=
  lazymatch goal with
  | |- ignoresSeries (ret _) => apply ignoresSeries_ret
  | |- ignoresSeries (gets _) => apply ignoresSeries_gets
  | |- ignoresSeries (call _) => apply ignoresSeries_call
  | |- ignoresSeries (modify _) => apply ignoresSeries_modify
  | |- ignoresSeries (bind _ _) => apply ignoresSeries_bind; [ | intro ]
  | |- ignoresSeries (tryCatch _ _) => apply ignoresSeries_tryCatch; [ | intro ]
  | |- ignoresSeries (forOf _ _) => apply ignoresSeries_forOf; intro
  | |- ignoresSeries (match ?x with _ => _ end) => destruct x
  | |- ignoresSeries (let _ := _ in _) => cbv zeta
  | |- ignoresSeries ?m =>
      let h := (match m with ?f _ _ _ => f | ?f _ _ => f | ?f _ => f | ?f => f end) in
      unfold h
  end.

Lemma releaseComingSoonEpisodes_ignoresSeries : ignoresSeries releaseComingSoonEpisodes.
Proof. repeat ignores_step; intros [? ? ? ? ? ? ? ? ? ? ?] ?; reflexivity. Qed.

(** X16. [releaseComingSoonEpisodes] never consults the live series: with any
    other Series collection in the store, an empty one for instance, the run
    completes in the same way, makes the same calls and writes the same
    records.  An episode is promoted to its [seriesId] whether or not a live
    series with that id exists. *)
Theorem episode_promoter_ignores_live_series (w : World) (series : list Series) :
  releaseComingSoonEpisodes (with_Series (fun _ => series) w)
  = (fst (releaseComingSoonEpisodes w),
     with_Series (fun _ => series) (snd (releaseComingSoonEpisodes w))).
Proof. apply releaseComingSoonEpisodes_ignoresSeries. Qed.


(** * The summary lines count the per-item lines *)

(** Rules for relations that only plain events leave intact. *)
Section PlainRules.
Context (ok : Event -> bool) (R : World -> World -> Prop).
Hypothesis R_refl : forall w, R w w.
Hypothesis R_trans : forall a b c, R a b -> R b c -> R a c.
Hypothesis R_emit : forall w ev, ok ev = true -> R w (emit ev w).
Hypothesis R_faults : forall w fs, R w (with_faults fs w).

Lemma plain_ret {A} (a : A) : keeps R (ret a).
Proof. intros w c w' H. inversion H; subst. apply R_refl. Qed.

Lemma plain_gets {A} (f : World -> A) : keeps R (gets f).
Proof. intros w c w' H. inversion H; subst. apply R_refl. Qed.

Lemma plain_modify (f : World -> World) : (forall w, R w (f w)) -> keeps R (modify f).
Proof. intros Hf w c w' H. inversion H; subst. apply Hf. Qed.

Lemma plain_bind {A B} (m : M A) (k : A -> M B) :
  keeps R m -> (forall a, keeps R (k a)) -> keeps R (bind m k).
Proof.
  intros Hm Hk w c w'. unfold bind. destruct (m w) as [[a|e] w1] eqn:E; intros H.
  - eapply R_trans; [exact (Hm _ _ _ E) | exact (Hk a _ _ _ H)].
  - inversion H; subst. exact (Hm _ _ _ E).
Qed.

Lemma plain_tryCatch {A} (m : M A) (h : JsError -> M A) :
  keeps R m -> (forall e, keeps R (h e)) -> keeps R (tryCatch m h).
Proof.
  intros Hm Hh w c w'. unfold tryCatch. destruct (m w) as [[a|e] w1] eqn:E; intros H.
  - inversion H; subst. exact (Hm _ _ _ E).
  - eapply R_trans; [exact (Hm _ _ _ E) | exact (Hh e _ _ _ H)].
Qed.

Lemma plain_call (c : StoreCall) : ok (Call c) = true -> keeps R (call c).
Proof.
  intros Hok w r w'. unfold call. intros H.
  assert (R w (with_faults (List.tl (faults w)) (emit (Call c) w))) as HR
    by (eapply R_trans; [apply R_emit; exact Hok | apply R_faults]).
  destruct (hd None (faults w)); inversion H; subst; exact HR.
Qed.

Lemma plain_refuse {A} (c : StoreCall) (e : JsError) :
  ok (Call c) = true -> keeps R (@refuse A c e).
Proof.
  intros Hok w r w'. unfold refuse. intros H. inversion H; subst.
  apply R_emit. exact Hok.
Qed.

Lemma plain_console lvl line : ok (Console lvl line) = true -> keeps R (console lvl line).
Proof.
  intros Hok w c w' H. unfold console, modify in H. inversion H; subst.
  apply R_emit. exact Hok.
Qed.

Lemma plain_forOf {A} (xs : list A) (body : A -> M Ctl) :
  (forall x, keeps R (body x)) -> keeps R (forOf xs body).
Proof.
  intros Hb. induction xs as [|x xs IH]; [apply plain_ret|].
  cbn [forOf]. apply plain_bind; [apply Hb|].
  intros [|]; [exact IH | apply plain_ret].
Qed.

End PlainRules.

Lemma tallies_refl w : tallies w w.
Proof. exists []. cbn. rewrite app_nil_r, !Nat.add_0_r. auto. Qed.

Lemma tallies_trans a b c : tallies a b -> tallies b c -> tallies a c.
Proof.
  intros (l1 & T1 & E1 & L1 & S1) (l2 & T2 & E2 & L2 & S2). exists (l1 ++ l2).
  rewrite T2, T1, app_assoc, !filter_app, !length_app, S1, S2. repeat split; lia.
Qed.

Lemma tallies_emit w ev : isPlain ev = true -> tallies w (emit ev w).
Proof.
  intros Hp. unfold isPlain in Hp. apply negb_true_iff in Hp.
  apply orb_false_iff in Hp as [Hp Hs]. apply orb_false_iff in Hp as [He Hr].
  destruct w as [cs ce sr ep lg n clk fs tr rel errs]. exists [ev]. cbn.
  rewrite He, Hr, Hs. cbn. rewrite !Nat.add_0_r. auto.
Qed.

Lemma tallies_faults w fs : tallies w (with_faults fs w).
Proof.
  destruct w as [cs ce sr ep lg n clk fs0 tr rel errs]. exists []. cbn.
  rewrite app_nil_r, !Nat.add_0_r. auto.
Qed.

Ltac tally_quiet :=
  intros [? ? ? ? ? ? ? ? ? ? ?]; exists []; cbn; rewrite app_nil_r, !Nat.add_0_r; auto.

(** A failure is pushed together with its line. *)
Lemma failure_tallies f line (k : M Ctl) :
  isItemError (Console ERROR line) = true ->
  isItemReleased (Console ERROR line) = false ->
  isSummary (Console ERROR line) = false ->
  keeps tallies k ->
  keeps tallies (errors_push f ;; console ERROR line ;; k).
Proof.
  intros He Hr Hs Hk.
  assert (keeps tallies (errors_push f ;; console ERROR line)) as Hpair.
  { intros [cs ce sr ep lg n clk fs tr rel errs] c w' H. inversion H; subst.
    exists [Console ERROR line]. cbn -[isItemError isItemReleased isSummary].
    rewrite He, Hr, Hs. cbn. rewrite length_app. cbn. repeat split; lia. }
  intros w c w' H.
  unfold bind in *. unfold errors_push, modify in *.
  destruct (console ERROR line (with_errors (fun l => l ++ [f]) w)) as [[[]|e] w1] eqn:E.
  - eapply tallies_trans; [|exact (Hk _ _ _ H)].
    apply (Hpair w (Normal tt) w1). now rewrite E.
  - unfold console, modify in E. discriminate E.
Qed.

(** An entry is pushed to [released] together with its line. *)
Lemma release_tallies r line (k : M Ctl) :
  isItemError (Console LOG line) = false ->
  isItemReleased (Console LOG line) = true ->
  isSummary (Console LOG line) = false ->
  keeps tallies k ->
  keeps tallies (released_push r ;; console LOG line ;; k).
Proof.
  intros He Hr Hs Hk.
  assert (keeps tallies (released_push r ;; console LOG line)) as Hpair.
  { intros [cs ce sr ep lg n clk fs tr rel errs] c w' H. inversion H; subst.
    exists [Console LOG line]. cbn -[isItemError isItemReleased isSummary].
    rewrite He, Hr, Hs. cbn. rewrite length_app. cbn. repeat split; lia. }
  intros w c w' H.
  unfold bind in *. unfold released_push, modify in *.
  destruct (console LOG line (with_released (fun l => l ++ [r]) w)) as [[[]|e] w1] eqn:E.
  - eapply tallies_trans; [|exact (Hk _ _ _ H)].
    apply (Hpair w (Normal tt) w1). now rewrite E.
  - unfold console, modify in E. discriminate E.
Qed.

Lemma newObjectId_tallies : keeps tallies newObjectId.
Proof.
  intros [cs ce sr ep lg n clk fs tr rel errs] c w' H. inversion H; subst.
  exists []. cbn. rewrite app_nil_r, !Nat.add_0_r. auto.
Qed.

Ltac tally_step :=
  lazymatch goal with
  | |- keeps tallies newObjectId => apply newObjectId_tallies
  | |- keeps tallies (errors_push _ ;; console ERROR _ ;; _) =>
      apply failure_tallies; [reflexivity | reflexivity | reflexivity | ]
  | |- keeps tallies (released_push _ ;; console LOG _ ;; _) =>
      apply release_tallies; [reflexivity | reflexivity | reflexivity | ]
  | |- keeps tallies (ret _) => apply (plain_ret tallies tallies_refl)
  | |- keeps tallies (gets _) => apply (plain_gets tallies tallies_refl)
  | |- keeps tallies (call _) =>
      apply (plain_call isPlain tallies tallies_trans tallies_emit tallies_faults);
      reflexivity
  | |- keeps tallies (refuse _ _) =>
      apply (plain_refuse isPlain tallies tallies_emit); reflexivity
  | |- keeps tallies (console _ _) =>
      apply (plain_console isPlain tallies tallies_emit); reflexivity
  | |- keeps tallies (modify _) => apply (plain_modify tallies)
  | |- keeps tallies (bind _ _) => apply (plain_bind tallies tallies_trans); [ | intro ]
  | |- keeps tallies (tryCatch _ _) =>
      apply (plain_tryCatch tallies tallies_trans); [ | intro ]
  | |- keeps tallies (forOf _ _) =>
      apply (plain_forOf tallies tallies_refl tallies_trans); intro
  | |- keeps _ (match ?x with _ => _ end) => destruct x
  | |- keeps _ (if ?x then _ else _) => destruct x
  | |- keeps _ (let _ := _ in _) => cbv zeta
  | |- keeps _ ?m =>
      let h := (match m with ?f _ _ _ => f | ?f _ _ => f | ?f _ => f | ?f => f end) in
      unfold h
  end.

Lemma seriesLoop_tallies l : keeps tallies (forOf l seriesLoopBody).
Proof. repeat tally_step; tally_quiet. Qed.

Lemma episodeLoop_tallies l : keeps tallies (forOf l episodeLoopBody).
Proof. repeat tally_step; tally_quiet. Qed.

Lemma tallied_quiet rc fc (added : list Event) :
  filter isSummary added = [] -> filter isItemError added = [] ->
  filter isItemReleased added = [] ->
  tallied rc fc added.
Proof.
  intros Hs He Hr. exists added. split; [exact Hs|].
  rewrite He, Hr. cbn. now rewrite app_nil_r.
Qed.

Lemma tallied_run rc fc (prefix looped : list Event) (rel : list Released)
    (errs : list Failure) :
  filter isSummary prefix = [] -> filter isItemError prefix = [] ->
  filter isItemReleased prefix = [] ->
  filter isSummary looped = [] ->
  length errs = length (filter isItemError looped) ->
  length rel = length (filter isItemReleased looped) ->
  tallied rc fc
    (prefix ++ looped ++
     (if Nat.ltb 0 (length rel) then [Console LOG (rc (length rel))] else []) ++
     (if Nat.ltb 0 (length errs) then [Console ERROR (fc (length errs))] else [])).
Proof.
  intros Hs He Hr Hsl Hel Hrl. exists (prefix ++ looped).
  rewrite !filter_app, Hs, He, Hr, Hsl. cbn [app].
  split; [reflexivity|]. unfold summaryLines. rewrite <- Hel, <- Hrl.
  now rewrite <- app_assoc.
Qed.

Lemma releaseComingSoonSeries_tallied (w : World) :
  exists added,
    trace (snd (releaseComingSoonSeries w)) = trace w ++ added /\
    tallied SeriesReleasedCount SeriesFailedCount added.
Proof.
  destruct w as [cs ce sr ep lg n clk fs tr rel errs]. cbn [trace].
  unfold releaseComingSoonSeries. unfold_js.
  destruct (hd None fs) eqn:Hfs.
  - cbn. eexists [_; _]. rewrite <- app_assoc. split; [reflexivity|].
    apply tallied_quiet; reflexivity.
  - remember (filter (dueSeries clk) cs) as seriesToRelease eqn:El.
    destruct seriesToRelease as [|x l].
    + cbn [length Nat.eqb].
      destruct (hd None (List.tl fs)).
      * cbn. eexists [_; _; _]. rewrite <- !app_assoc. split; [reflexivity|].
        apply tallied_quiet; reflexivity.
      * match goal with |- context [if ?b then _ else _] => destruct b end.
        -- destruct (hd None (List.tl (List.tl fs))).
           ++ cbn. eexists [_; _; _; _]. rewrite <- !app_assoc. split; [reflexivity|].
              apply tallied_quiet; reflexivity.
           ++ match goal with |- context [match ?o with Some _ => _ | None => _ end] =>
                destruct o end; cbn.
              ** eexists [_; _; _; _]. rewrite <- !app_assoc. split; [reflexivity|].
                 apply tallied_quiet; reflexivity.
              ** eexists [_; _; _]. rewrite <- !app_assoc. split; [reflexivity|].
                 apply tallied_quiet; reflexivity.
        -- cbn. eexists [_; _]. rewrite <- !app_assoc. split; [reflexivity|].
           apply tallied_quiet; reflexivity.
    + cbn [length Nat.eqb].
      match goal with |- context [forOf ?xs seriesLoopBody ?x0] =>
        destruct (forOf_normal seriesLoopBody seriesLoopBody_normal xs x0) as (c & w1 & Hloop);
        pose proof (seriesLoop_tallies xs x0 _ w1 Hloop) as (looped & T & E & L & Hsum)
      end.
      rewrite Hloop.
      destruct w1 as [cs1 ce1 sr1 ep1 lg1 n1 clk1 fs1 tr1 rel1 errs1].
      cbn in T, E, L. subst tr1.
      exists ([Call (ComingSoonSeries_find_due clk); Console LOG (SeriesFound (S (length l)))]
              ++ looped
              ++ (if Nat.ltb 0 (length rel1)
                  then [Console LOG (SeriesReleasedCount (length rel1))] else [])
              ++ (if Nat.ltb 0 (length errs1)
                  then [Console ERROR (SeriesFailedCount (length errs1))] else [])).
      split; [|apply tallied_run; auto].
      destruct rel1 as [|? ?], errs1 as [|? ?]; cbn; rewrite <- ?app_assoc; cbn;
        rewrite ?app_nil_r; reflexivity.
Qed.

Lemma releaseComingSoonEpisodes_tallied (w : World) :
  exists added,
    trace (snd (releaseComingSoonEpisodes w)) = trace w ++ added /\
    tallied EpisodesReleasedCount EpisodesFailedCount added.
Proof.
  destruct w as [cs ce sr ep lg n clk fs tr rel errs]. cbn [trace].
  unfold releaseComingSoonEpisodes. unfold_js.
  destruct (hd None fs) eqn:Hfs.
  - cbn. eexists [_; _]. rewrite <- app_assoc. split; [reflexivity|].
    apply tallied_quiet; reflexivity.
  - remember (filter (dueEpisode clk) ce) as episodesToRelease eqn:El.
    destruct episodesToRelease as [|x l].
    + cbn. eexists [_]. split; [reflexivity|]. apply tallied_quiet; reflexivity.
    + cbn [length Nat.eqb].
      match goal with |- context [forOf ?xs episodeLoopBody ?x0] =>
        destruct (forOf_normal episodeLoopBody episodeLoopBody_normal xs x0)
          as (c & w1 & Hloop);
        pose proof (episodeLoop_tallies xs x0 _ w1 Hloop) as (looped & T & E & L & Hsum)
      end.
      rewrite Hloop.
      destruct w1 as [cs1 ce1 sr1 ep1 lg1 n1 clk1 fs1 tr1 rel1 errs1].
      cbn in T, E, L. subst tr1.
      exists ([Call (ComingSoonEpisode_find_due clk);
               Console LOG (EpisodesFound (S (length l)))]
              ++ looped
              ++ (if Nat.ltb 0 (length rel1)
                  then [Console LOG (EpisodesReleasedCount (length rel1))] else [])
              ++ (if Nat.ltb 0 (length errs1)
                  then [Console ERROR (EpisodesFailedCount (length errs1))] else [])).
      split; [|apply tallied_run; auto].
      destruct rel1 as [|? ?], errs1 as [|? ?]; cbn; rewrite <- ?app_assoc; cbn;
        rewrite ?app_nil_r; reflexivity.
Qed.

(** X17. The summary of a run counts what the run logged per item.  Under
    any fault script, the lines that [releaseComingSoonSeries] and
    [releaseComingSoonEpisodes] add end with their summary: "Successfully
    released n" if and only if n > 0 lines "Released ..." came before it, then
    "Failed to release m" if and only if m > 0 lines "Error releasing ..."
    came before it, and no summary line occurs elsewhere.  Only these two
    kinds of lines are counted: not the critical line of an aborted batch,
    not the lines about the episodes inside a series promotion, and not the
    line of an episode whose live copy existed already. *)
Theorem summary_lines_count_the_item_lines (w : World) :
  (exists added,
      trace (snd (releaseComingSoonSeries w)) = trace w ++ added /\
      exists body,
        filter isSummary body = [] /\
        added = body ++ summaryLines SeriesReleasedCount SeriesFailedCount
                                     (length (filter isItemReleased body))
                                     (length (filter isItemError body))) /\
  (exists added,
      trace (snd (releaseComingSoonEpisodes w)) = trace w ++ added /\
      exists body,
        filter isSummary body = [] /\
        added = body ++ summaryLines EpisodesReleasedCount EpisodesFailedCount
                                     (length (filter isItemReleased body))
                                     (length (filter isItemError body))).
Proof.
  split.
  - exact (releaseComingSoonSeries_tallied w).
  - exact (releaseComingSoonEpisodes_tallied w).
Qed.


(** * The scheduler *)

(** ** An activation that is never interrupted *)

Lemma runStep_bindStep {A B} (s : Step A) (k : A -> Co B) :
  runStep (bindStep s k)
  = match runStep s with
    | (Normal a, w') => runStep (k a w')
    | (Throw e, w') => (Throw e, w')
    end.
Proof.
  induction s as [[a|e] w|w resume IH]; cbn; [reflexivity | reflexivity | apply IH].
Qed.

Lemma runStep_catchStep {A} (s : Step A) (h : JsError -> Co A) :
  runStep (catchStep s h)
  = match runStep s with
    | (Normal a, w') => (Normal a, w')
    | (Throw e, w') => runStep (h e w')
    end.
Proof.
  induction s as [[a|e] w|w resume IH]; cbn; [reflexivity | reflexivity | apply IH].
Qed.

Lemma runsAs_lift {A} (m : M A) : runsAs (lift m) m.
Proof. intros w. unfold run, lift. now destruct (m w). Qed.

Lemma runsAs_await {A} (m : M A) : runsAs (await m) m.
Proof. intros w. unfold run, await. cbn. apply runsAs_lift. Qed.

Lemma runsAs_ret {A} (a : A) : runsAs (retCo a) (ret a).
Proof. apply runsAs_lift. Qed.

Lemma runsAs_bind {A B} (c : Co A) (m : M A) (k : A -> Co B) (k' : A -> M B) :
  runsAs c m -> (forall a, runsAs (k a) (k' a)) -> runsAs (bindCo c k) (bind m k').
Proof.
  intros Hc Hk w. unfold run, bindCo, bind. rewrite runStep_bindStep.
  change (runStep (c w)) with (run c w). rewrite Hc.
  destruct (m w) as [[a|e] w']; [apply Hk | reflexivity].
Qed.

Lemma runsAs_tryCatch {A} (c : Co A) (m : M A) (h : JsError -> Co A) (h' : JsError -> M A) :
  runsAs c m -> (forall e, runsAs (h e) (h' e)) -> runsAs (tryCatchCo c h) (tryCatch m h').
Proof.
  intros Hc Hh w. unfold run, tryCatchCo, tryCatch. rewrite runStep_catchStep.
  change (runStep (c w)) with (run c w). rewrite Hc.
  destruct (m w) as [[a|e] w']; [reflexivity | apply Hh].
Qed.

Lemma runsAs_forOf {A} (xs : list A) (body : A -> Co Ctl) (body' : A -> M Ctl) :
  (forall x, runsAs (body x) (body' x)) -> runsAs (forOfCo xs body) (forOf xs body').
Proof.
  intros Hb. induction xs as [|x xs IH]; cbn [forOfCo forOf]; [apply runsAs_ret|].
  apply runsAs_bind; [apply Hb|]. intros [|]; [exact IH | apply runsAs_ret].
Qed.

Ltac runsAs_step :=
  lazymatch goal with
  | |- runsAs (lift _) _ => apply runsAs_lift
  | |- runsAs (await _) _ => apply runsAs_await
  | |- runsAs (retCo _) _ => apply runsAs_ret
  | |- runsAs (bindCo _ _) _ => apply runsAs_bind; [ | intro ]
  | |- runsAs (tryCatchCo _ _) _ => apply runsAs_tryCatch; [ | intro ]
  | |- runsAs (forOfCo _ _) _ => apply runsAs_forOf; intro
  | |- runsAs (match ?x with _ => _ end) _ => destruct x
  | |- runsAs (if ?x then _ else _) _ => destruct x
  | |- runsAs (let _ := _ in _) _ => cbv zeta
  end.

Lemma releaseEpisodeCo_runsAs e : runsAs (releaseEpisodeCo e) (releaseEpisode e).
Proof. unfold releaseEpisodeCo, releaseEpisode. repeat runsAs_step. Qed.

Lemma episodeLoopBodyCo_runsAs e : runsAs (episodeLoopBodyCo e) (episodeLoopBody e).
Proof.
  unfold episodeLoopBodyCo, episodeLoopBody.
  apply runsAs_tryCatch; [apply releaseEpisodeCo_runsAs | intro; apply runsAs_lift].
Qed.

Lemma releaseEpisodeOfSeriesCo_runsAs s e :
  runsAs (releaseEpisodeOfSeriesCo s e) (releaseEpisodeOfSeries s e).
Proof. unfold releaseEpisodeOfSeriesCo, releaseEpisodeOfSeries. repeat runsAs_step. Qed.

Lemma seriesEpisodeLoopBodyCo_runsAs s e :
  runsAs (seriesEpisodeLoopBodyCo s e) (seriesEpisodeLoopBody s e).
Proof.
  unfold seriesEpisodeLoopBodyCo, seriesEpisodeLoopBody.
  apply runsAs_tryCatch; [apply releaseEpisodeOfSeriesCo_runsAs | intro; apply runsAs_lift].
Qed.

Lemma releaseSeriesCo_runsAs cs : runsAs (releaseSeriesCo cs) (releaseSeries cs).
Proof.
  unfold releaseSeriesCo, releaseSeries.
  repeat first [ apply seriesEpisodeLoopBodyCo_runsAs | runsAs_step ].
Qed.

Lemma seriesLoopBodyCo_runsAs cs : runsAs (seriesLoopBodyCo cs) (seriesLoopBody cs).
Proof.
  unfold seriesLoopBodyCo, seriesLoopBody.
  apply runsAs_tryCatch; [apply releaseSeriesCo_runsAs | intro; apply runsAs_lift].
Qed.

Lemma releaseComingSoonSeriesCo_runsAs : runsAs releaseComingSoonSeriesCo releaseComingSoonSeries.
Proof.
  unfold releaseComingSoonSeriesCo, releaseComingSoonSeries, seriesFound.
  repeat first [ apply seriesLoopBodyCo_runsAs | runsAs_step ].
Qed.

Lemma releaseComingSoonEpisodesCo_runsAs :
  runsAs releaseComingSoonEpisodesCo releaseComingSoonEpisodes.
Proof.
  unfold releaseComingSoonEpisodesCo, releaseComingSoonEpisodes, episodesFound.
  repeat first [ apply episodeLoopBodyCo_runsAs | runsAs_step ].
Qed.

Lemma cronTickCo_runsAs : runsAs cronTickCo cronTick.
Proof.
  unfold cronTickCo, cronTick. apply runsAs_bind.
  - apply releaseComingSoonSeriesCo_runsAs.
  - intro. apply releaseComingSoonEpisodesCo_runsAs.
Qed.

(** ** Activations in flight *)

Lemma switchTo_saved w resume :
  switchTo (mkThread (released w) (errors w) resume) w = w.
Proof. now destruct w. Qed.

Lemma nth_setNth {A} (i : nat) (x d : A) (l : list A) :
  (i < length l)%nat -> nth i (setNth i x l) d = x.
Proof.
  revert i. induction l as [|y l IH]; intros [|i] H; cbn in *; try lia; [reflexivity|].
  apply IH. lia.
Qed.

Lemma setNth_setNth {A} (i : nat) (x y : A) (l : list A) :
  setNth i x (setNth i y l) = setNth i x l.
Proof.
  revert i. induction l as [|z l IH]; intros [|i]; cbn; try reflexivity.
  now rewrite IH.
Qed.

(** Resumed again and again, with no other activation in between, a pending
    activation does what it does when run alone. *)
Lemma drain (i : nat) (scheduled : list (Co unit)) (s : Step unit) :
  forall pending, (i < length pending)%nat ->
    runSchedule (repeat i (awaits s))
                (mkJob (fst (settle s)) scheduled (setNth i (snd (settle s)) pending))
    = mkJob (snd (runStep s)) scheduled (setNth i None pending).
Proof.
  induction s as [c w|w resume IH]; intros pending Hi; [reflexivity|].
  cbn [awaits repeat settle fst snd runStep runSchedule fold_left].
  unfold advance at 2. cbn [job_pending job_world job_scheduled].
  rewrite nth_setNth by exact Hi.
  unfold resumeThread. cbn [th_resume]. rewrite switchTo_saved.
  rewrite (surjective_pairing (settle (resume w))).
  rewrite setNth_setNth.
  exact (IH w pending Hi).
Qed.

Lemma drain_pending (i : nat) (scheduled : list (Co unit)) (t : Thread) (w : World)
    (pending : list (option Thread)) :
  (i < length pending)%nat ->
  runSchedule (repeat i (S (awaits (th_resume t (switchTo t w)))))
              (mkJob w scheduled (setNth i (Some t) pending))
  = mkJob (snd (runStep (th_resume t (switchTo t w)))) scheduled (setNth i None pending).
Proof.
  intros Hi. cbn [repeat runSchedule fold_left].
  unfold advance at 2. cbn [job_pending job_world job_scheduled].
  rewrite nth_setNth by exact Hi.
  unfold resumeThread.
  rewrite (surjective_pairing (settle (th_resume t (switchTo t w)))).
  rewrite setNth_setNth.
  exact (drain i scheduled (th_resume t (switchTo t w)) pending Hi).
Qed.

Lemma runSchedule_app (a b : list nat) (j : Job) :
  runSchedule (a ++ b) j = runSchedule b (runSchedule a j).
Proof. unfold runSchedule. apply fold_left_app. Qed.

(** ** The promoters as activations *)

(** Called without [await], a promoter takes its fresh local arrays, reads
    the clock and stops at its first store call, which it has not made yet.
    Resumed later, it goes on as a run of its own from there. *)
Lemma releaseComingSoonSeries_spawned (w : World) :
  exists t,
    spawn releaseComingSoonSeriesCo w = (entered w, Some t) /\
    forall v, clock v = clock w ->
      runStep (th_resume t (switchTo t v)) = releaseComingSoonSeries v.
Proof.
  eexists. split; [reflexivity|].
  intros v Hv. rewrite <- (releaseComingSoonSeriesCo_runsAs v).
  destruct v as [cs ce sr ep lg n clk fs tr rel errs].
  destruct w as [cs0 ce0 sr0 ep0 lg0 n0 clk0 fs0 tr0 rel0 errs0].
  cbn [clock] in Hv. subst clk0. reflexivity.
Qed.

Lemma releaseComingSoonEpisodes_spawned (w : World) :
  exists t,
    spawn releaseComingSoonEpisodesCo w = (entered w, Some t) /\
    forall v, clock v = clock w ->
      runStep (th_resume t (switchTo t v)) = releaseComingSoonEpisodes v.
Proof.
  eexists. split; [reflexivity|].
  intros v Hv. rewrite <- (releaseComingSoonEpisodesCo_runsAs v).
  destruct v as [cs ce sr ep lg n clk fs tr rel errs].
  destruct w as [cs0 ce0 sr0 ep0 lg0 n0 clk0 fs0 tr0 rel0 errs0].
  cbn [clock] in Hv. subst clk0. reflexivity.
Qed.

Lemma cronTick_spawned (w : World) :
  exists t, spawn cronTickCo w = (entered w, Some t).
Proof. eexists. reflexivity. Qed.

Lemma entered_facts w :
  store (entered w) = store w /\ clock (entered w) = clock w /\
  faults (entered w) = faults w /\ nextObjectId (entered w) = nextObjectId w /\
  trace (entered w) = trace w /\ entered (entered w) = entered w.
Proof. destruct w. repeat split. Qed.


Lemma existsb_false_not_In {A} (p : A -> bool) (l : list A) (x : A) :
  existsb p l = false -> p x = true -> ~ In x l.
Proof.
  intros Hnone Hx Hin.
  assert (existsb p l = true) as Hsome by (apply existsb_exists; eauto).
  congruence.
Qed.



(** * What the validators of the live schema let through *)

Lemma Episode_insert_validated doc :
  keeps (growsBy (fun e => Episode_validate e = true) db_Episode) (Episode_insert doc).
Proof.
  unfold Episode_insert. destruct (Episode_validate doc) eqn:Hvalid.
  - keeps_auto. intros [cs ce sr ep lg n clk fs tr rel errs]. unfold growsBy. cbn.
    exists [doc]. split; [reflexivity|]. constructor; [exact Hvalid | constructor].
  - keeps_auto.
Qed.

Ltac validated_step :=
  lazymatch goal with
  | |- keeps _ (Episode_insert _) => apply Episode_insert_validated
  end.

Lemma cronTick_validated :
  keeps (growsBy (fun e => Episode_validate e = true) db_Episode) cronTick.
Proof. keeps_with ltac:(idtac; validated_step); growsBy_nil. Qed.



